(** * The company set-up wizard: draft state, path updates, validation, saving

    A shallow embedding of [SetupWizard.tsx]: the path-set utility [set], the
    draft [reducer], the per-step validation [validateCurrent], the
    persistence routines [saveDraft], [next], [prev] and
    [handleSaveAndContinue], the effects that load and autosave the draft,
    the controls of the view, the page as a system of events in which a
    save waits for its remote call, and the progress bar, followed by the
    properties proved about them.

    JavaScript objects live in an explicit heap, so that copying an object
    ([{ ...x }]) and sharing one (two properties holding the same reference)
    are different things, as they are in the source. *)

From Stdlib Require Import ZArith NArith String Ascii List Lia SpecFloat.
From stdpp Require Import gmap list fin_maps option.

Set Warnings "-register-all".

(** ** JavaScript strings

    A string is a sequence of UTF-16 code units: [length] counts code units
    and a regular expression without the [u] flag reads code units. *)

Abbreviation jsstring := (list N).

(** String literals of the source are written as they appear there and decoded
    from the UTF-8 bytes of the literal to UTF-16 code units. *)
Fixpoint utf16_of_utf8 (bs : list N) : jsstring :=
  match bs with
  | [] => []
  | b :: rest =>
    if (b <? 128)%N then b :: utf16_of_utf8 rest
    else if (b <? 224)%N then
      match rest with
      | b1 :: rest1 => ((b - 192) * 64 + (b1 - 128))%N :: utf16_of_utf8 rest1
      | _ => []
      end
    else if (b <? 240)%N then
      match rest with
      | b1 :: b2 :: rest2 =>
        ((b - 224) * 4096 + (b1 - 128) * 64 + (b2 - 128))%N :: utf16_of_utf8 rest2
      | _ => []
      end
    else
      match rest with
      | b1 :: b2 :: b3 :: rest3 =>
        let cp := ((b - 240) * 262144 + (b1 - 128) * 4096 + (b2 - 128) * 64 + (b3 - 128))%N in
        let c := (cp - 65536)%N in
        (55296 + c / 1024)%N :: (56320 + c mod 1024)%N :: utf16_of_utf8 rest3
      | _ => []
      end
  end.

Definition js (s : string) : jsstring :=
  utf16_of_utf8 (List.map N_of_ascii (list_ascii_of_string s)).

Arguments js : simpl never.

(** [String(i)] for an array index [i]: its decimal digits. *)
Fixpoint uint_units (d : Decimal.uint) : jsstring :=
  match d with
  | Decimal.Nil => []
  | Decimal.D0 d => 48%N :: uint_units d
  | Decimal.D1 d => 49%N :: uint_units d
  | Decimal.D2 d => 50%N :: uint_units d
  | Decimal.D3 d => 51%N :: uint_units d
  | Decimal.D4 d => 52%N :: uint_units d
  | Decimal.D5 d => 53%N :: uint_units d
  | Decimal.D6 d => 54%N :: uint_units d
  | Decimal.D7 d => 55%N :: uint_units d
  | Decimal.D8 d => 56%N :: uint_units d
  | Decimal.D9 d => 57%N :: uint_units d
  end.

Definition index_key (i : nat) : jsstring := uint_units (Nat.to_uint i).

(** [s.split(sep)] for a one-character separator: never an empty array, and
    [[""]] for the empty string. *)
Fixpoint split (sep : N) (s : jsstring) : list jsstring :=
  match s with
  | [] => [[]]
  | c :: s' =>
    if (c =? sep)%N then [] :: split sep s'
    else match split sep s' with
         | [] => [[c]]
         | w :: ws => (c :: w) :: ws
         end
  end.

Definition DOT : N := 46.

(** ** Values and the heap

    A value is a primitive or a reference to an object of the heap. Objects
    are plain records of own enumerable data properties (what object
    literals, spreads and [JSON.parse] build), with [Object.prototype] as
    their prototype. Arrays, functions and a change of prototype are outside
    the model, and a member inherited from [Object.prototype] reads as
    [undefined]: its spread is as empty as that of [undefined], which is all
    that [set] asks of it. *)

Abbreviation loc := nat.

Inductive value :=
  | VUndef
  | VNull
  | VBool (b : bool)
  | VNum (n : Z)
  | VStr (s : jsstring)
  | VRef (l : loc).

#[global] Instance value_eq_dec : EqDecision value.
Proof. solve_decision. Defined.

#[global] Instance value_inhabited : Inhabited value := populate VUndef.

Abbreviation obj :=
  (@gmap (list N) (@list.list_eq_dec N N.eq_dec) (@list_countable N N.eq_dec N_countable) value).
Abbreviation heap := (list obj).

(** [new Object] with the given properties: the next free location. *)
Definition alloc (h : heap) (o : obj) : heap * loc := (h ++ [o], length h).

(** The own properties of the object at [l]. *)
Definition fields (h : heap) (l : loc) : obj := default ∅ (h !! l).

(** [o[k]] on an object of the heap: [undefined] when [k] is missing. *)
Definition get (h : heap) (l : loc) (k : jsstring) : value :=
  default VUndef (fields h l !! k).

(** [o[k] = v] on an object of the heap: the object gets, or keeps, a
    property [k] of its own. That is what the assignment does for every key
    but [__proto__], which [Object.prototype] takes with a setter; see
    [plain_path]. *)
Definition write (h : heap) (l : loc) (k : jsstring) (v : value) : heap :=
  alter (<[k := v]>) l h.

(** The properties [{ ...x }] copies: the own properties of an object, the
    indexed characters of a string, nothing for the other primitives. *)
Definition spread (h : heap) (x : value) : obj :=
  match x with
  | VRef l => fields h l
  | VStr s => list_to_map (imap (fun i c => (index_key i, VStr [c])) s)
  | _ => ∅
  end.

(** ** The path-set utility, lines 49-59 *)

(** The loop of [set] together with the final assignment: [cur] is the
    object being filled in, [keys] what is left of the path. For all but the
    last key the child is replaced by a copy of itself, and [cur] moves to
    that copy. *)
Fixpoint set_loop (h : heap) (cur : loc) (keys : list jsstring) (v : value) : heap :=
  match keys with
  | [] => write h cur (js "undefined") v
  | [k] => write h cur k v
  | k :: ks =>
    let '(h1, child) := alloc h (spread h (get h cur k)) in
    set_loop (write h1 cur k (VRef child)) child ks v
  end.

Definition set_keys (h : heap) (o : value) (keys : list jsstring) (v : value) : heap * value :=
  let '(h1, draft) := alloc h (spread h o) in
  (set_loop h1 draft keys v, VRef draft).

Definition set (h : heap) (o : value) (path : jsstring) (v : value) : heap * value :=
  set_keys h o (split DOT path) v.

(** Reading along a chain of keys, [x[k1][k2]...]: [None] is the TypeError
    of reading a property of [undefined] or [null]. A number or a boolean
    has none of the properties read here. *)
Definition get_prop (h : heap) (x : value) (k : jsstring) : option value :=
  match x with
  | VUndef | VNull => None
  | VRef l => Some (get h l k)
  | VStr s =>
    if decide (k = js "length") then Some (VNum (Z.of_nat (length s)))
    else Some (default VUndef (spread h x !! k))
  | VBool _ | VNum _ => Some VUndef
  end.

Fixpoint get_path (h : heap) (x : value) (keys : list jsstring) : option value :=
  match keys with
  | [] => Some x
  | k :: ks =>
    match get_prop h x k with
    | Some y => get_path h y ks
    | None => None
    end
  end.

(** ** The structure behind a value

    [reify n h x] unfolds [x] in [h] to depth [n]. Two values have the same
    structure when they unfold alike to every depth. *)

Inductive tree :=
  | TCut
  | TPrim (x : value)
  | TObj (fs : gmap jsstring tree).

Fixpoint reify (n : nat) (h : heap) (x : value) : tree :=
  match x with
  | VRef l =>
    match n with
    | O => TCut
    | S n' => TObj (reify n' h <$> fields h l)
    end
  | _ => TPrim x
  end.

Definition same_structure (h1 : heap) (x1 : value) (h2 : heap) (x2 : value) : Prop :=
  forall n, reify n h1 x1 = reify n h2 x2.

(** A heap without dangling references, and a value that lives in it. *)
Definition val_in (b : nat) (x : value) : Prop :=
  match x with VRef l => l < b | _ => True end.

Definition obj_in (b : nat) (o : obj) : Prop :=
  forall k x, o !! k = Some x -> val_in b x.

Definition heap_closed (h : heap) : Prop :=
  forall l o, h !! l = Some o -> obj_in (length h) o.


(** ** The wizard state and its actions, lines 3-47 *)

Record StepDefinition := { key : jsstring; label : jsstring }.

Definition STEPS : list StepDefinition :=
  [ {| key := js "account"; label := js "アカウント" |};
    {| key := js "company"; label := js "会社情報" |};
    {| key := js "members"; label := js "役員・株主" |};
    {| key := js "docs"; label := js "必要書類" |};
    {| key := js "review"; label := js "確認・提出" |} ].

(** [error] is [null] ([None]) or a message; [savedAt] is [undefined]
    ([None]) or a time stamp; [data] is typed in the source but built by the
    untyped [set], so it is kept as a value of the heap. *)
Record WizardState := {
  currentIndex : Z;
  savedAt : option jsstring;
  dirty : bool;
  saving : bool;
  error : option jsstring;
  data : value
}.

(** [Partial<WizardState>]: every property present or absent. *)
Record PartialState := {
  p_currentIndex : option Z;
  p_savedAt : option jsstring;
  p_dirty : option bool;
  p_saving : option bool;
  p_error : option (option jsstring);
  p_data : option value
}.

Inductive Action :=
  | GOTO (index : Z)
  | CHANGE (path : jsstring) (v : value)
  | SET_SAVING (b : bool)
  | SET_SAVED_AT (t : option jsstring)
  | SET_DIRTY (b : bool)
  | SET_ERROR (e : option jsstring)
  | HYDRATE (p : PartialState).

(** The object literal of [initialState]: the five sections, then [data]. *)
Definition initialData : heap * value :=
  let h := [] in
  let '(h, account) := alloc h {[ js "email" := VStr []; js "password" := VStr [] ]} in
  let '(h, company) :=
    alloc h {[ js "nameJa" := VStr []; js "nameEn" := VStr []; js "address" := VStr [] ]} in
  let '(h, members) := alloc h {[ js "ceo" := VStr []; js "directors" := VStr [] ]} in
  let '(h, docs) := alloc h {[ js "hankoReady" := VBool false; js "bankCert" := VBool false ]} in
  let '(h, review) := alloc h {[ js "agree" := VBool false ]} in
  let '(h, d) :=
    alloc h {[ js "account" := VRef account; js "company" := VRef company;
               js "members" := VRef members; js "docs" := VRef docs;
               js "review" := VRef review ]} in
  (h, VRef d).

Definition initialHeap : heap := Eval vm_compute in initialData.1.

Definition initialDataRef : value := Eval vm_compute in initialData.2.

Definition initialState : WizardState :=
  {| currentIndex := 0; savedAt := None; dirty := false; saving := false;
     error := None; data := initialDataRef |}.

(** ** The reducer, lines 61-82 *)

(** [!!x] *)
Definition truthy (x : value) : bool :=
  match x with
  | VUndef | VNull => false
  | VBool b => b
  | VNum n => negb (n =? 0)%Z
  | VStr s => negb (bool_decide (s = []))
  | VRef _ => true
  end.

(** [x || {}]: the empty object is a new one. *)
Definition or_empty_object (h : heap) (x : value) : heap * value :=
  if truthy x then (h, x) else let '(h1, l) := alloc h ∅ in (h1, VRef l).

(** [now] is what [new Date().toISOString()] returns when the reducer runs. *)
Definition reducer (now : jsstring) (h : heap) (state : WizardState) (action : Action)
  : heap * WizardState :=
  match action with
  | GOTO index =>
    (h, {| currentIndex := index; savedAt := savedAt state; dirty := dirty state;
           saving := saving state; error := None; data := data state |})
  | CHANGE path v =>
    let '(h1, nextData) := set h (data state) path v in
    (h1, {| currentIndex := currentIndex state; savedAt := savedAt state; dirty := true;
            saving := saving state; error := error state; data := nextData |})
  | SET_SAVING b =>
    (h, {| currentIndex := currentIndex state; savedAt := savedAt state;
           dirty := dirty state; saving := b; error := error state; data := data state |})
  | SET_SAVED_AT t =>
    (h, {| currentIndex := currentIndex state; savedAt := Some (default now t);
           dirty := false; saving := saving state; error := error state;
           data := data state |})
  | SET_DIRTY b =>
    (h, {| currentIndex := currentIndex state; savedAt := savedAt state; dirty := b;
           saving := saving state; error := error state; data := data state |})
  | SET_ERROR e =>
    (h, {| currentIndex := currentIndex state; savedAt := savedAt state;
           dirty := dirty state; saving := saving state; error := e; data := data state |})
  | HYDRATE p =>
    let '(h1, d) := or_empty_object h (default VUndef (p_data p)) in
    let '(h2, merged) := alloc h1 (spread h1 d ∪ spread h1 (data state)) in
    (h2, {| currentIndex := default (currentIndex state) (p_currentIndex p);
            savedAt := from_option Some (savedAt state) (p_savedAt p);
            dirty := default (dirty state) (p_dirty p);
            saving := default (saving state) (p_saving p);
            error := default (error state) (p_error p);
            data := VRef merged |})
  end.

(** The state after a list of actions, each with the clock reading of its
    reducer call. *)
Fixpoint run (h : heap) (state : WizardState) (actions : list (jsstring * Action))
  : heap * WizardState :=
  match actions with
  | [] => (h, state)
  | (now, a) :: rest => let '(h1, s1) := reducer now h state a in run h1 s1 rest
  end.

(** ** The regular expression of the e-mail check, line 170 *)

Inductive regex :=
  | Never
  | Empty
  | Class (p : N -> bool)
  | Seq (r1 r2 : regex)
  | Alt (r1 r2 : regex)
  | Star (r : regex).

Definition Plus (r : regex) : regex := Seq r (Star r).

Fixpoint nullable (r : regex) : bool :=
  match r with
  | Never => false
  | Empty => true
  | Class _ => false
  | Seq r1 r2 => nullable r1 && nullable r2
  | Alt r1 r2 => nullable r1 || nullable r2
  | Star _ => true
  end.

Fixpoint deriv (c : N) (r : regex) : regex :=
  match r with
  | Never => Never
  | Empty => Never
  | Class p => if p c then Empty else Never
  | Seq r1 r2 =>
    if nullable r1 then Alt (Seq (deriv c r1) r2) (deriv c r2)
    else Seq (deriv c r1) r2
  | Alt r1 r2 => Alt (deriv c r1) (deriv c r2)
  | Star r1 => Seq (deriv c r1) (Star r1)
  end.

(** [/^r$/.test(s)]: the whole string matches [r]. *)
Fixpoint test (r : regex) (s : jsstring) : bool :=
  match s with
  | [] => nullable r
  | c :: s' => test (deriv c r) s'
  end.

(** [\s]: the white space and line terminator code points. *)
Definition is_space (c : N) : bool :=
  bool_decide (c ∈ [9; 10; 11; 12; 13; 32; 160; 5760; 8232; 8233; 8239; 8287; 12288; 65279]%N)
  || ((8192 <=? c) && (c <=? 8202))%N.

Definition AT : N := 64.

(** [[^@\s]] *)
Definition not_at_space (c : N) : bool := negb ((c =? AT)%N || is_space c).

(** [/^[^@\s]+@[^@\s]+\.[^@\s]+$/] *)
Definition EMAIL : regex :=
  Seq (Plus (Class not_at_space))
      (Seq (Class (N.eqb AT))
           (Seq (Plus (Class not_at_space))
                (Seq (Class (N.eqb DOT)) (Plus (Class not_at_space))))).

(** ** Numbers and conversions

    The arithmetic of the source is that of IEEE 754 doubles, which
    [SpecFloat] defines for a precision of 53 bits. *)
Definition prec : Z := 53.
Definition emax : Z := 1024.

(** The double closest to an integer. *)
Definition number (z : Z) : spec_float := binary_normalize prec emax z 0 false.

(** [String(n)] for an integer: its decimal digits. JavaScript writes a
    number of 22 digits or more with an exponent; the numbers here are
    lengths of strings. *)
Definition Z_units (n : Z) : jsstring :=
  match n with
  | Z0 => [48%N]
  | Zpos p => uint_units (Pos.to_uint p)
  | Zneg p => 45%N :: uint_units (Pos.to_uint p)
  end.

(** [ToString(x)]. An object is converted by the [toString] it finds: that
    of [Object.prototype], which answers ["[object Object]"], unless the
    object has a property [toString] of its own. Such a property holds no
    function here, [valueOf] is then tried and gives no primitive either (a
    property of the object is no function, and [Object.prototype.valueOf]
    returns the object), and the conversion ends in a TypeError, [None]. *)
Definition ToString (h : heap) (x : value) : option jsstring :=
  match x with
  | VUndef => Some (js "undefined")
  | VNull => Some (js "null")
  | VBool b => Some (if b then js "true" else js "false")
  | VNum n => Some (Z_units n)
  | VStr s => Some s
  | VRef l =>
    match fields h l !! js "toString" with
    | Some _ => None
    | None => Some (js "[object Object]")
    end
  end.

(** [s.trim()], which [StringToNumber] starts with: it strips the code
    points of [\s]. *)
Fixpoint trim_start (s : jsstring) : jsstring :=
  match s with
  | c :: s' => if is_space c then trim_start s' else s
  | [] => []
  end.

Definition trim (s : jsstring) : jsstring := rev (trim_start (rev (trim_start s))).

(** The value of a digit in a base up to 16, if it is one. *)
Definition digit_of (base : Z) (c : N) : option Z :=
  d ← (if ((48 <=? c) && (c <=? 57))%N then Some (Z.of_N c - 48)
       else if ((97 <=? c) && (c <=? 102))%N then Some (Z.of_N c - 87)
       else if ((65 <=? c) && (c <=? 70))%N then Some (Z.of_N c - 55)
       else None)%Z;
  if (d <? base)%Z then Some d else None.

Definition digits_value (base : Z) (ds : list Z) : Z :=
  fold_left (fun a d => base * a + d)%Z ds 0%Z.

(** The decimal digits a string starts with, and what follows them. *)
Fixpoint digits (s : jsstring) : list Z * jsstring :=
  match s with
  | c :: s' =>
    match digit_of 10 c with
    | Some d => let '(ds, rest) := digits s' in (d :: ds, rest)
    | None => ([], s)
    end
  | [] => ([], [])
  end.

(** [0x...], [0o...] and [0b...] without their prefix: one digit at least. *)
Definition integer_literal (base : Z) (s : jsstring) : spec_float :=
  match mapM (digit_of base) s with
  | Some (d :: ds) => number (digits_value base (d :: ds))
  | _ => S754_nan
  end.

(** An exponent part, or nothing: [e] or [E], a sign if any, digits. *)
Definition exponent_part (s : jsstring) : option Z :=
  match s with
  | [] => Some 0%Z
  | c :: s' =>
    if bool_decide (c = 101 \/ c = 69)%N then
      let '(neg, s'') :=
        match s' with
        | 43%N :: t => (false, t)
        | 45%N :: t => (true, t)
        | _ => (false, s')
        end in
      match digits s'' with
      | (d :: ds, []) =>
        Some (if neg : bool then - digits_value 10 (d :: ds) else digits_value 10 (d :: ds))%Z
      | _ => None
      end
    else None
  end.

(** An unsigned decimal literal [m * 10 ^ e], as the pair [(m, e)]: digits
    with a fraction or not, or a fraction alone, then an exponent part. *)
Definition unsigned_decimal (s : jsstring) : option (Z * Z) :=
  let '(int, rest) := digits s in
  let '(frac, rest') :=
    match rest with
    | 46%N :: t => digits t
    | _ => ([], rest)
    end in
  match int ++ frac with
  | [] => None
  | ds => e ← exponent_part rest'; Some (digits_value 10 ds, e - Z.of_nat (length frac))%Z
  end.

(** The double closest to [m * 10 ^ e], for [m] not negative. *)
Definition decimal_number (m e : Z) : spec_float :=
  match m with
  | Zpos p =>
    if (0 <=? e)%Z then number (m * 10 ^ e)
    else SFdiv prec emax (S754_finite false p 0)
           (S754_finite false (Z.to_pos (10 ^ (- e))) 0)
  | _ => S754_zero false
  end.

(** [StringToNumber(s)]: the empty string is 0, and what is no numeric
    literal is [NaN]. *)
Definition StringToNumber (s : jsstring) : spec_float :=
  match trim s with
  | [] => S754_zero false
  | 48%N :: c :: t =>
    if bool_decide (c = 120 \/ c = 88)%N then integer_literal 16 t
    else if bool_decide (c = 111 \/ c = 79)%N then integer_literal 8 t
    else if bool_decide (c = 98 \/ c = 66)%N then integer_literal 2 t
    else from_option (fun me => decimal_number me.1 me.2) S754_nan
           (unsigned_decimal (48%N :: c :: t))
  | c :: t =>
    let '(neg, u) :=
      if (c =? 45)%N then (true, t) else if (c =? 43)%N then (false, t) else (false, c :: t) in
    let x :=
      if bool_decide (u = js "Infinity") then S754_infinity false
      else from_option (fun me => decimal_number me.1 me.2) S754_nan (unsigned_decimal u) in
    if neg : bool then SFopp x else x
  end.

(** ** Validation, lines 165-189 *)

(** [STEPS[i]]: [undefined] outside the list. *)
Definition step_at (i : Z) : option StepDefinition :=
  if (0 <=? i)%Z then STEPS !! Z.to_nat i else None.

(** [re.test(x)]: the argument is converted to a string. *)
Definition test_value (r : regex) (h : heap) (x : value) : option bool :=
  s ← ToString h x; Some (test r s).

(** [x < n] for a number [n]: [undefined] converts to [NaN], which is below
    nothing, [null] and the booleans to 0 or 1, a string to the number it
    writes, an object to the number its string writes. *)
Definition less_than (h : heap) (x : value) (n : Z) : option bool :=
  match x with
  | VUndef => Some false
  | VNull => Some (0 <? n)%Z
  | VBool b => Some ((if b then 1 else 0) <? n)%Z
  | VNum m => Some (m <? n)%Z
  | VStr _ | VRef _ => s ← ToString h x; Some (SFltb (StringToNumber s) (number n))
  end.

(** [null] is [Some None], a message [Some (Some m)]; [None] stands for a
    TypeError. *)
Definition validateCurrent (h : heap) (state : WizardState) : option (option jsstring) :=
  step ← step_at (currentIndex state);
  let s := data state in
  if decide (key step = js "account") then
    account ← get_prop h s (js "account");
    email ← get_prop h account (js "email");
    if negb (truthy email) then Some (Some (js "メールアドレスは必須です")) else
    ok ← test_value EMAIL h email;
    if negb ok then Some (Some (js "メール形式が不正です")) else
    password ← get_prop h account (js "password");
    len ← get_prop h (if truthy password then password else VStr []) (js "length");
    short ← less_than h len 8;
    if short : bool then Some (Some (js "パスワードは8文字以上")) else Some None
  else if decide (key step = js "company") then
    company ← get_prop h s (js "company");
    nameJa ← get_prop h company (js "nameJa");
    if negb (truthy nameJa) then Some (Some (js "商号（日本語）は必須です")) else
    address ← get_prop h company (js "address");
    if negb (truthy address) then Some (Some (js "本店所在地は必須です")) else Some None
  else if decide (key step = js "members") then
    members ← get_prop h s (js "members");
    ceo ← get_prop h members (js "ceo");
    if negb (truthy ceo) then Some (Some (js "代表者氏名は必須です")) else Some None
  else if decide (key step = js "docs") then
    docs ← get_prop h s (js "docs");
    hankoReady ← get_prop h docs (js "hankoReady");
    if negb (truthy hankoReady) then Some (Some (js "印鑑の準備を完了してください"))
    else Some None
  else if decide (key step = js "review") then
    review ← get_prop h s (js "review");
    agree ← get_prop h review (js "agree");
    if negb (truthy agree) then Some (Some (js "規約同意が必要です")) else Some None
  else Some None.

(** The e-mail format as the specification words it: one ["@"] with
    non-whitespace on both sides and a ["."] in the domain part. *)
Definition spec_email_format (email : jsstring) : Prop :=
  exists loc_part domain : jsstring,
    email = loc_part ++ AT :: domain /\
    loc_part <> [] /\ domain <> [] /\
    Forall (fun c => not_at_space c = true) loc_part /\
    Forall (fun c => not_at_space c = true) domain /\
    DOT ∈ domain.

(** ** The stored draft

    [JSON.stringify] reads the structure under a value and [JSON.parse]
    builds it anew; the text in between is kept in parsed form. Of the
    numbers it keeps the integers, exactly: the data of a draft that the
    page wrote holds strings and booleans only, and a draft edited by hand
    to hold a fraction, or an integer that a double would round, is outside
    the model. *)

Inductive json :=
  | JNull
  | JBool (b : bool)
  | JNum (n : Z)
  | JStr (s : jsstring)
  | JObj (members : list (jsstring * json)).

(** [None]: the TypeError of a circular structure, found when the depth
    exceeds what [n] allows. [Some None]: [undefined], which an enclosing
    object leaves out. *)
Fixpoint stringify (n : nat) (h : heap) (x : value) : option (option json) :=
  match x with
  | VUndef => Some None
  | VNull => Some (Some JNull)
  | VBool b => Some (Some (JBool b))
  | VNum m => Some (Some (JNum m))
  | VStr s => Some (Some (JStr s))
  | VRef l =>
    match n with
    | O => None
    | S n' =>
      ms ← mapM (fun kx : jsstring * value => j ← stringify n' h kx.2; Some (kx.1, j))
                (map_to_list (fields h l));
      Some (Some (JObj (omap (fun kj : jsstring * option json =>
                                j ← kj.2; Some (kj.1, j)) ms)))
    end
  end.

(** The members of an object, parsed in turn into the object being built;
    of two members with one key the later wins. *)
Definition parse_members (parse : json -> heap -> heap * value) :=
  fix go (ms : list (jsstring * json)) (h : heap) (o : obj) : heap * obj :=
    match ms with
    | [] => (h, o)
    | (k, j) :: ms' => let '(h1, x) := parse j h in go ms' h1 (<[k := x]> o)
    end.

Fixpoint parse (j : json) (h : heap) : heap * value :=
  match j with
  | JNull => (h, VNull)
  | JBool b => (h, VBool b)
  | JNum n => (h, VNum n)
  | JStr s => (h, VStr s)
  | JObj members =>
    let '(h1, o) := parse_members parse members h ∅ in
    let '(h2, l) := alloc h1 o in
    (h2, VRef l)
  end.

(** The text under [STORAGE_KEY]: a state whose [data] is JSON. *)
Record document := {
  d_currentIndex : Z;
  d_savedAt : option jsstring;
  d_dirty : bool;
  d_saving : bool;
  d_error : option jsstring;
  d_data : option json
}.

(** [JSON.stringify(state)]. A path without a repeated object is no longer
    than the heap, so the depth [S (length h)] is exceeded only on a cycle. *)
Definition stringify_state (h : heap) (state : WizardState) : option document :=
  d ← stringify (S (length h)) h (data state);
  Some {| d_currentIndex := currentIndex state; d_savedAt := savedAt state;
          d_dirty := dirty state; d_saving := saving state; d_error := error state;
          d_data := d |}.

(** [JSON.parse(raw)] *)
Definition parse_document (doc : document) (h : heap) : heap * PartialState :=
  let '(h1, d) :=
    match d_data doc with
    | Some j => let '(h1, x) := parse j h in (h1, Some x)
    | None => (h, None)
    end in
  (h1, {| p_currentIndex := Some (d_currentIndex doc); p_savedAt := d_savedAt doc;
          p_dirty := Some (d_dirty doc); p_saving := Some (d_saving doc);
          p_error := Some (d_error doc); p_data := d |}).

(** ** The component, lines 93-204

    What the component sees of the outside world: the clock, each exception
    the browser may raise while saving, and the outcome of the test
    [Math.random() < 0.05] of the remote stub. *)

Record env := {
  now : jsstring;
  json_error : jsstring;
  quota_error : option jsstring;
  random_below : bool
}.

Inductive effect :=
  | SetItem (doc : document)
  | RemoveItem
  | RemoteSave (index : Z) (d : value).

(** The heap, the reducer state and [loaded] of the current render, the
    render that armed the pending autosave timer if there is one, and the
    browser's storage with the log of what was done to the outside. *)
Record world := {
  w_heap : heap;
  w_state : WizardState;
  w_loaded : bool;
  w_timer : option WizardState;
  w_storage : option document;
  w_effects : list effect
}.

Definition initialWorld : world :=
  {| w_heap := initialHeap; w_state := initialState; w_loaded := false;
     w_timer := None; w_storage := None; w_effects := [] |}.

Definition dispatch (e : env) (a : Action) (w : world) : world :=
  let '(h, s) := reducer (now e) (w_heap w) (w_state w) a in
  {| w_heap := h; w_state := s; w_loaded := w_loaded w; w_timer := w_timer w;
     w_storage := w_storage w; w_effects := w_effects w |}.

Definition log (x : effect) (w : world) : world :=
  {| w_heap := w_heap w; w_state := w_state w; w_loaded := w_loaded w;
     w_timer := w_timer w; w_storage := w_storage w; w_effects := w_effects w ++ [x] |}.

Definition setItem (doc : document) (w : world) : world :=
  log (SetItem doc)
    {| w_heap := w_heap w; w_state := w_state w; w_loaded := w_loaded w;
       w_timer := w_timer w; w_storage := Some doc; w_effects := w_effects w |}.

Definition removeItem (w : world) : world :=
  log RemoveItem
    {| w_heap := w_heap w; w_state := w_state w; w_loaded := w_loaded w;
       w_timer := w_timer w; w_storage := None; w_effects := w_effects w |}.

Definition set_timer (t : option WizardState) (w : world) : world :=
  {| w_heap := w_heap w; w_state := w_state w; w_loaded := w_loaded w;
     w_timer := t; w_storage := w_storage w; w_effects := w_effects w |}.

(** [fakeSaveToServer], lines 85-89: the message of the error thrown, or
    [{ ok: true }]. *)
Definition fakeSaveToServer (below : bool) : jsstring + unit :=
  if below then inl (js "ネットワークエラー") else inr tt.

Inductive reason := manual | autosave.

#[global] Instance reason_eq_dec : EqDecision reason.
Proof. solve_decision. Defined.

(** [saveDraft], lines 142-156, run to its end. [state] is the state of the
    render whose [saveDraft] is called: the payload and the stored draft are
    taken from it, while every [dispatch] acts on the current state. The
    result of the [try] block is the message of what was thrown, if
    anything. *)
Definition saveDraft (state : WizardState) (opts : option reason) (e : env) (w : world)
  : world :=
  let w := dispatch e (SET_SAVING true) w in
  let w := dispatch e (SET_ERROR None) w in
  let payload_index := currentIndex state in
  let payload_data := data state in
  let merged :=
    {| currentIndex := payload_index; savedAt := savedAt state; dirty := dirty state;
       saving := saving state; error := error state; data := payload_data |} in
  let '(w, thrown) :=
    match stringify_state (w_heap w) merged with
    | None => (w, Some (json_error e))
    | Some doc =>
      match quota_error e with
      | Some m => (w, Some m)
      | None =>
        let w := setItem doc w in
        let w := log (RemoteSave payload_index payload_data) w in
        match fakeSaveToServer (random_below e) with
        | inl m => (w, Some m)
        | inr _ => (dispatch e (SET_SAVED_AT None) w, None)
        end
      end
    end in
  let w :=
    match thrown with
    | Some m =>
      dispatch e (SET_ERROR (Some (if truthy (VStr m) then m else js "保存に失敗しました"))) w
    | None => w
    end in
  let w := dispatch e (SET_SAVING false) w in
  match opts with
  | Some manual => dispatch e (SET_DIRTY false) w
  | _ => w
  end.

(** [next] and [prev], lines 158-163 *)
Definition next (state : WizardState) (e : env) (w : world) : world :=
  if (currentIndex state <? Z.of_nat (length STEPS) - 1)%Z
  then dispatch e (GOTO (currentIndex state + 1)) w else w.

Definition prev (state : WizardState) (e : env) (w : world) : world :=
  if (currentIndex state >? 0)%Z
  then dispatch e (GOTO (currentIndex state - 1)) w else w.

(** [handleSaveAndContinue], lines 191-199: [None] when [validateCurrent]
    throws, before anything is dispatched. *)
Definition handleSaveAndContinue (state : WizardState) (e : env) (w : world)
  : option world :=
  err ← validateCurrent (w_heap w) state;
  match err with
  | Some m =>
    if truthy (VStr m) then Some (dispatch e (SET_ERROR (Some m)) w)
    else Some (next state e (saveDraft state (Some manual) e w))
  | None => Some (next state e (saveDraft state (Some manual) e w))
  end.

(** [onChange], lines 138-140 *)
Definition onChange (path : jsstring) (v : value) (e : env) (w : world) : world :=
  dispatch e (CHANGE path v) w.

(** The effect that loads the draft, lines 103-112 *)
Definition loadDraft (e : env) (w : world) : world :=
  let w :=
    match w_storage w with
    | Some raw =>
      let '(h, parsed) := parse_document raw (w_heap w) in
      dispatch e (HYDRATE parsed)
        {| w_heap := h; w_state := w_state w; w_loaded := w_loaded w;
           w_timer := w_timer w; w_storage := w_storage w; w_effects := w_effects w |}
    | None => w
    end in
  {| w_heap := w_heap w; w_state := w_state w; w_loaded := true;
     w_timer := w_timer w; w_storage := w_storage w; w_effects := w_effects w |}.

(** The autosave effect, lines 116-124, after a render: it runs when one of
    [state.data], [state.dirty], [loaded] differs from the render before
    and, if it passes both guards, replaces the timer by one that calls the
    [saveDraft] of this render. *)
Definition autoSaveEffect (before after : world) : world :=
  if bool_decide (data (w_state before) = data (w_state after)
                  /\ dirty (w_state before) = dirty (w_state after)
                  /\ w_loaded before = w_loaded after)
  then after
  else if negb (w_loaded after) then after
  else if negb (dirty (w_state after)) then after
  else set_timer (Some (w_state after)) after.

(** [resetAll], lines 201-204, and the page load it ends with. *)
Definition reload (w : world) : world :=
  {| w_heap := initialHeap; w_state := initialState; w_loaded := false;
     w_timer := None; w_storage := w_storage w; w_effects := w_effects w |}.

Definition resetAll (w : world) : world := reload (removeItem w).

(** What can happen to the page: the mount effect, the buttons and inputs
    of the view (lines 244, 279-364, 373-392), the autosave timer and a
    reload by the user. The inputs pass a string or a boolean to [onChange];
    the view has ten of them, each with its own path, and [Input] stands for
    a call with any path. Here every handler is run to its end before the
    next event; the page on which other things happen while a save waits
    for the remote call comes further down. Of the timers only the order in
    which they are set and fire is kept. *)
Inductive event :=
  | Mount
  | ClickStep (i : nat)
  | ClickPrev
  | Input (path : jsstring) (v : value)
  | ClickSave
  | ClickSaveAndContinue
  | TimerFires
  | ClickReset
  | Reload.

(** The handler of an event, when the event can happen and the handler does
    not throw. *)
Definition handle (e : env) (ev : event) (w : world) : option world :=
  match ev with
  | Mount => if w_loaded w then None else Some (loadDraft e w)
  | ClickStep i =>
    if bool_decide (i < length STEPS) then Some (dispatch e (GOTO (Z.of_nat i)) w) else None
  | ClickPrev =>
    if (currentIndex (w_state w) =? 0)%Z then None else Some (prev (w_state w) e w)
  | Input path v =>
    match v with
    | VStr _ | VBool _ => Some (onChange path v e w)
    | _ => None
    end
  | ClickSave =>
    if saving (w_state w) then None else Some (saveDraft (w_state w) (Some manual) e w)
  | ClickSaveAndContinue => handleSaveAndContinue (w_state w) e w
  | TimerFires =>
    match w_timer w with
    | Some state => Some (saveDraft state (Some autosave) e (set_timer None w))
    | None => None
    end
  | ClickReset => Some (resetAll w)
  | Reload => Some (reload w)
  end.

(** An event, followed by the render it causes and that render's effects. *)
Definition fire (e : env) (ev : event) (w : world) : option world :=
  w' ← handle e ev w;
  Some (autoSaveEffect w w').

(** The worlds of the runs in which every save has ended before the next
    event. *)
Inductive reachable : world -> Prop :=
  | reachable_initial : reachable initialWorld
  | reachable_fire e ev w w' : reachable w -> fire e ev w = Some w' -> reachable w'.

(** The state after a list of events, each with its environment. *)
Fixpoint fire_all (w : world) (evs : list (env * event)) : option world :=
  match evs with
  | [] => Some w
  | (e, ev) :: rest => w' ← fire e ev w; fire_all w' rest
  end.

(** ** The controls of the view, lines 272-367

    The ten inputs and toggles: the step whose block renders the control,
    the field of [state.data] it shows ([value={state.data.account.email}],
    [checked={state.data.docs.hankoReady}]) and the path its [onChange]
    passes. *)
Inductive control :=
  | account_email | account_password
  | company_nameJa | company_nameEn | company_address
  | members_ceo | members_directors
  | docs_hankoReady | docs_bankCert
  | review_agree.

Definition control_step (c : control) : jsstring :=
  match c with
  | account_email | account_password => js "account"
  | company_nameJa | company_nameEn | company_address => js "company"
  | members_ceo | members_directors => js "members"
  | docs_hankoReady | docs_bankCert => js "docs"
  | review_agree => js "review"
  end.

Definition control_shown (c : control) : list jsstring :=
  match c with
  | account_email => [js "account"; js "email"]
  | account_password => [js "account"; js "password"]
  | company_nameJa => [js "company"; js "nameJa"]
  | company_nameEn => [js "company"; js "nameEn"]
  | company_address => [js "company"; js "address"]
  | members_ceo => [js "members"; js "ceo"]
  | members_directors => [js "members"; js "directors"]
  | docs_hankoReady => [js "docs"; js "hankoReady"]
  | docs_bankCert => [js "docs"; js "bankCert"]
  | review_agree => [js "review"; js "agree"]
  end.

Definition control_path (c : control) : jsstring :=
  match c with
  | account_email => js "data.account.email"
  | account_password => js "data.account.password"
  | company_nameJa => js "data.company.nameJa"
  | company_nameEn => js "data.company.nameEn"
  | company_address => js "data.company.address"
  | members_ceo => js "data.members.ceo"
  | members_directors => js "data.members.directors"
  | docs_hankoReady => js "data.docs.hankoReady"
  | docs_bankCert => js "data.docs.bankCert"
  | review_agree => js "data.review.agree"
  end.

(** The [Toggle]s, lines 426-452; the others are text inputs. *)
Definition is_toggle (c : control) : bool :=
  match c with
  | docs_hankoReady | docs_bankCert | review_agree => true
  | _ => false
  end.

(** The event a control raises on the page [w]. A control is on the page
    only during its step. A text input passes [e.target.value], here
    [Some text]; a click on a toggle passes [!checked], where [checked] is
    the field the toggle shows. *)
Definition control_event (w : world) (c : control) (text : option jsstring) : option event :=
  step ← step_at (currentIndex (w_state w));
  if decide (key step = control_step c) then
    match text with
    | Some s => if is_toggle c then None else Some (Input (control_path c) (VStr s))
    | None =>
      if is_toggle c then
        checked ← get_path (w_heap w) (data (w_state w)) (control_shown c);
        Some (Input (control_path c) (VBool (negb (truthy checked))))
      else None
    end
  else None.

(** ** The page while a save waits for the remote call

    [saveDraft] and [handleSaveAndContinue] are async functions. A call of
    [saveDraft] runs up to the [await] of line 148 and gives the page back
    to the browser; the rest runs when the timer of the remote stub (line
    86) has fired. Meanwhile the page handles what else happens: of its
    controls only the save button is disabled while [state.saving] is set.
    [saveDraft] and [handle] above run a save to its end in one step, which
    is what happens when nothing else does during the remote call. Here the
    two halves of a save are steps of their own. *)

(** [saveDraft] up to the [await], lines 143-148, with the message of what
    the [try] block threw before the remote call was made, if anything. *)
Definition saveDraft_begin (state : WizardState) (e : env) (w : world)
  : world * option jsstring :=
  let w := dispatch e (SET_SAVING true) w in
  let w := dispatch e (SET_ERROR None) w in
  let payload_index := currentIndex state in
  let payload_data := data state in
  let merged :=
    {| currentIndex := payload_index; savedAt := savedAt state; dirty := dirty state;
       saving := saving state; error := error state; data := payload_data |} in
  match stringify_state (w_heap w) merged with
  | None => (w, Some (json_error e))
  | Some doc =>
    match quota_error e with
    | Some m => (w, Some m)
    | None => (log (RemoteSave payload_index payload_data) (setItem doc w), None)
    end
  end.

(** The [catch] block, when something was thrown, and the [finally] block,
    lines 150-155. *)
Definition saveDraft_end (opts : option reason) (thrown : option jsstring) (e : env)
    (w : world) : world :=
  let w :=
    match thrown with
    | Some m =>
      dispatch e (SET_ERROR (Some (if truthy (VStr m) then m else js "保存に失敗しました"))) w
    | None => w
    end in
  let w := dispatch e (SET_SAVING false) w in
  match opts with
  | Some manual => dispatch e (SET_DIRTY false) w
  | _ => w
  end.

(** [saveDraft] from the [await] on, lines 148-155: the remote stub throws
    or returns, and the rest of the function runs. *)
Definition saveDraft_resume (opts : option reason) (e : env) (w : world) : world :=
  match fakeSaveToServer (random_below e) with
  | inl m => saveDraft_end opts (Some m) e w
  | inr _ => saveDraft_end opts None e (dispatch e (SET_SAVED_AT None) w)
  end.

(** A call of [saveDraft] that waits for the remote call: its [opts], and
    the render whose [handleSaveAndContinue] awaits it (line 197) and goes
    on with [next] (line 198), if it was called from there. *)
Record pending := { s_opts : option reason; s_then : option WizardState }.

(** What runs after [await saveDraft(...)]. *)
Definition continue (k : option WizardState) (e : env) (w : world) : world :=
  match k with
  | Some state => next state e w
  | None => w
  end.

(** The page: the world of the current render and the saves in flight, the
    oldest first. The remote calls all take 600 ms, so they return in the
    order in which they were made. *)
Record page := { pg_world : world; pg_saves : list pending }.

Definition initialPage : page := {| pg_world := initialWorld; pg_saves := [] |}.

(** A call of [saveDraft] by a handler: when the [try] block throws before
    the remote call, the function ends, and so does the handler that awaits
    it; otherwise the save is in flight. *)
Definition start_save (state : WizardState) (opts : option reason) (k : option WizardState)
    (e : env) (w : world) (saves : list pending) : page :=
  match saveDraft_begin state e w with
  | (w1, Some m) =>
    {| pg_world := continue k e (saveDraft_end opts (Some m) e w1); pg_saves := saves |}
  | (w1, None) =>
    {| pg_world := w1; pg_saves := saves ++ [{| s_opts := opts; s_then := k |}] |}
  end.

(** What can happen to the page: one of the events above, whose handler
    runs up to its first [await], or the return of the oldest remote call,
    after which the save that waited for it runs to its end. *)
Inductive page_event :=
  | Page (ev : event)
  | RemoteReturns.

Definition page_handle (e : env) (pe : page_event) (p : page) : option page :=
  let w := pg_world p in
  match pe with
  | Page ClickSave =>
    if saving (w_state w) then None
    else Some (start_save (w_state w) (Some manual) None e w (pg_saves p))
  | Page ClickSaveAndContinue =>
    err ← validateCurrent (w_heap w) (w_state w);
    match err with
    | Some m =>
      if truthy (VStr m)
      then Some {| pg_world := dispatch e (SET_ERROR (Some m)) w; pg_saves := pg_saves p |}
      else Some (start_save (w_state w) (Some manual) (Some (w_state w)) e w (pg_saves p))
    | None => Some (start_save (w_state w) (Some manual) (Some (w_state w)) e w (pg_saves p))
    end
  | Page TimerFires =>
    match w_timer w with
    | Some state =>
      Some (start_save state (Some autosave) None e (set_timer None w) (pg_saves p))
    | None => None
    end
  | Page ClickReset => Some {| pg_world := resetAll w; pg_saves := [] |}
  | Page Reload => Some {| pg_world := reload w; pg_saves := [] |}
  | Page ev => w' ← handle e ev w; Some {| pg_world := w'; pg_saves := pg_saves p |}
  | RemoteReturns =>
    match pg_saves p with
    | s :: rest =>
      Some {| pg_world := continue (s_then s) e (saveDraft_resume (s_opts s) e w);
              pg_saves := rest |}
    | [] => None
    end
  end.

(** A step of the page, followed by the render it causes and that render's
    effects. *)
Definition page_fire (e : env) (pe : page_event) (p : page) : option page :=
  p' ← page_handle e pe p;
  Some {| pg_world := autoSaveEffect (pg_world p) (pg_world p'); pg_saves := pg_saves p' |}.

Inductive page_reachable : page -> Prop :=
  | page_initial : page_reachable initialPage
  | page_step e pe p p' : page_reachable p -> page_fire e pe p = Some p' -> page_reachable p'.

Fixpoint page_fire_all (p : page) (evs : list (env * page_event)) : option page :=
  match evs with
  | [] => Some p
  | (e, pe) :: rest => p' ← page_fire e pe p; page_fire_all p' rest
  end.

(** The pages that can be reached when the inputs are those of the view. *)
Inductive view_reachable : page -> Prop :=
  | view_initial : view_reachable initialPage
  | view_step e pe p p' :
      view_reachable p ->
      match pe with Page (Input _ _) => False | _ => True end ->
      page_fire e pe p = Some p' -> view_reachable p'
  | view_input e c text ev p p' :
      view_reachable p ->
      control_event (pg_world p) c text = Some ev ->
      page_fire e (Page ev) p = Some p' -> view_reachable p'.

(** ** The progress bar, lines 97-100 *)

(** [Math.round(x)]: the integer closest to [x], the larger one of two that
    are equally close. [None] is [NaN] or an infinity, which [Math.round]
    returns as they are; the sign of a zero is dropped. *)
Definition Math_round (x : spec_float) : option Z :=
  match x with
  | S754_zero _ => Some 0%Z
  | S754_finite s m e =>
    let n := if s then Z.neg m else Z.pos m in
    Some (if (0 <=? e)%Z then n * 2 ^ e else (2 * n + 2 ^ (- e)) / 2 ^ (1 - e))%Z
  | _ => None
  end.

(** [Math.round(((state.currentIndex + 1) / STEPS.length) * 100)] *)
Definition progress (state : WizardState) : option Z :=
  Math_round
    (SFmul prec emax
       (SFdiv prec emax
          (SFadd prec emax (number (currentIndex state)) (number 1))
          (number (Z.of_nat (length STEPS))))
       (number 100)).

(** ** Notions used to state the properties *)

(** A path that is valid for [set] in the container [x]: [x] is an object
    and every key but the last holds an object. *)
Fixpoint valid_path (h : heap) (x : value) (keys : list jsstring) : Prop :=
  match keys with
  | [] => False
  | [k] => exists l, x = VRef l
  | k :: ks => exists l, x = VRef l /\ valid_path h (get h l k) ks
  end.

(** A path with no segment [__proto__]. An assignment to that key of a
    plain object runs the setter of [Object.prototype], which replaces the
    prototype of the object or does nothing, and stores no property; what
    [set] stores is stated for the other paths. *)
Definition plain_path (keys : list jsstring) : Prop := js "__proto__" ∉ keys.

(** [q] leaves the path [keys] at some level: up to there the two agree, and
    there [q] takes a sibling of the key that [keys] takes. *)
Fixpoint diverges (q keys : list jsstring) : Prop :=
  match q, keys with
  | k' :: q', k :: ks => k' <> k \/ (k' = k /\ diverges q' ks)
  | _, _ => False
  end.

(** The unfolding, to depth [n], of what [set] returns for the container
    [src] of the heap [h], computed without running [set]. *)
Fixpoint tset (n : nat) (h : heap) (src : value) (keys : list jsstring) (v : value) : tree :=
  match n with
  | O => TCut
  | S m =>
    let base := reify m h <$> spread h src in
    match keys with
    | [] => TObj (<[js "undefined" := reify m h v]> base)
    | [k] => TObj (<[k := reify m h v]> base)
    | k :: ks => TObj (<[k := tset m h (default VUndef (spread h src !! k)) ks v]> base)
    end
  end.

(** What a program sees of a value it reads: a primitive, or that it is an
    object. Two values have the same fields when every chain of property
    reads sees the same on both. *)
Definition observe (x : option value) : option value :=
  (fun y => match y with VRef _ => VRef 0 | _ => y end) <$> x.

Definition same_fields (h1 : heap) (x1 : value) (h2 : heap) (x2 : value) : Prop :=
  forall q, observe (get_path h1 x1 q) = observe (get_path h2 x2 q).

#[global] Instance val_in_dec (b : nat) (x : value) : Decision (val_in b x).
Proof. destruct x; simpl; apply _. Defined.

(** The path-set utility on a missing segment as the specification words
    it: no intermediate object is created, so a segment before the last
    that the container does not have is still missing in the result. *)
Definition spec_no_intermediate_objects
  (h : heap) (o : value) (path : jsstring) (v : value) : Prop :=
  let '(h', r) := set h o path v in
  forall p rest : list jsstring,
    split DOT path = p ++ rest -> rest <> [] ->
    get_path h o p = Some VUndef -> get_path h' r p = Some VUndef.

(** The strings a regular expression stands for. *)
Inductive matches : regex -> jsstring -> Prop :=
  | matches_empty : matches Empty []
  | matches_class (p : N -> bool) (c : N) : p c = true -> matches (Class p) [c]
  | matches_seq (r1 r2 : regex) (s1 s2 : jsstring) :
      matches r1 s1 -> matches r2 s2 -> matches (Seq r1 r2) (s1 ++ s2)
  | matches_alt_l (r1 r2 : regex) (s : jsstring) : matches r1 s -> matches (Alt r1 r2) s
  | matches_alt_r (r1 r2 : regex) (s : jsstring) : matches r2 s -> matches (Alt r1 r2) s
  | matches_star_nil (r : regex) : matches (Star r) []
  | matches_star_cons (r : regex) (s1 s2 : jsstring) :
      matches r s1 -> matches (Star r) s2 -> matches (Star r) (s1 ++ s2).

(** One or more characters, none of them ["@"] or white space. *)
Definition word (s : jsstring) : Prop :=
  s <> [] /\ Forall (fun c => not_at_space c = true) s.

(** What [EMAIL] accepts: [local@x.y] with [local], [x] and [y] words. *)
Definition email_shape (email : jsstring) : Prop :=
  exists loc_part x y : jsstring,
    email = loc_part ++ AT :: x ++ DOT :: y /\ word loc_part /\ word x /\ word y.

(** The account section of [data] holds the strings [email] and [password],
    as the type of [WizardState] says. *)
Definition account_is (h : heap) (state : WizardState) (email password : jsstring) : Prop :=
  exists d a,
    data state = VRef d /\ get h d (js "account") = VRef a /\
    get h a (js "email") = VStr email /\ get h a (js "password") = VStr password.

(** The state reached from the initial one by typing an e-mail address and
    a password into the account section. *)
Definition filled (email password : jsstring) : heap * WizardState :=
  run initialHeap initialState
    [ ([], CHANGE (js "account.email") (VStr email));
      ([], CHANGE (js "account.password") (VStr password)) ].

(** A valid index into [STEPS]. *)
Definition valid_index (i : Z) : Prop := (0 <= i <= Z.of_nat (length STEPS) - 1)%Z.

(** The save of [state] goes through: nothing is thrown before or by the
    remote call. *)
Definition save_succeeds (h : heap) (state : WizardState) (e : env) : bool :=
  bool_decide (is_Some (stringify_state h state))
  && bool_decide (quota_error e = None) && negb (random_below e).

(** Two environments: one in which a save goes through, one in which the
    remote call fails. *)
Definition env_ok : env :=
  {| now := js "2025-01-01T00:00:00.000Z"; json_error := js "cyclic object value";
     quota_error := None; random_below := false |}.

Definition env_remote_fails : env :=
  {| now := js "2025-01-01T00:00:00.000Z"; json_error := js "cyclic object value";
     quota_error := None; random_below := true |}.

(** The page after it has loaded with an empty storage and the user has
    typed into the e-mail field, whose input passes the path
    ["data.account.email"] (line 279). *)
Definition typed_world : world :=
  default initialWorld
    (fire_all initialWorld
       [ (env_ok, Mount);
         (env_ok, Input (js "data.account.email") (VStr (js "a@b.com"))) ]).

(** What holds of every world the page can be in: the index, the index of
    the render an armed timer belongs to and the index in the stored draft
    are valid, and a timer is only armed by a dirty render. *)
Definition world_ok (w : world) : Prop :=
  valid_index (currentIndex (w_state w)) /\
  (forall c, w_timer w = Some c -> valid_index (currentIndex c) /\ dirty c = true) /\
  (forall doc, w_storage w = Some doc -> valid_index (d_currentIndex doc)).

(** The page of [typed_world] after a click on "save and continue" that
    validation refuses: the refusal is shown, and the autosave timer armed
    by the typing is still pending. *)
Definition refused_world : world :=
  default initialWorld (fire env_ok ClickSaveAndContinue typed_world).

(** What one member contributes to the text of an object, and the members
    left once the [undefined] ones are dropped: the two steps of
    [stringify] on an object. *)
Definition stringify_member (n : nat) (h : heap) (kx : jsstring * value)
  : option (jsstring * option json) :=
  j ← stringify n h kx.2; Some (kx.1, j).

Definition defined_member (kj : jsstring * option json) : option (jsstring * json) :=
  j ← kj.2; Some (kj.1, j).

(** [y], in the heap [h1] that parsing left of [h0], is a faithful copy of
    [x] of the heap [h]: the old heap is extended and nothing in it
    changed, and every chain of reads sees in [y] what it sees in [x]. A
    copied object has exactly the keys that [x] holds a value other than
    [undefined] for. *)
Definition parsed_copy (h : heap) (x : value) (h0 h1 : heap) (y : value) : Prop :=
  heap_closed h1 /\ length h0 <= length h1 /\
  (forall l, l < length h0 -> h1 !! l = h0 !! l) /\
  val_in (length h1) y /\
  same_fields h1 y h x /\
  (forall lx, x = VRef lx ->
     exists ly, y = VRef ly /\ length h0 <= ly /\
       forall k, fields h1 ly !! k = None <-> get h lx k = VUndef).

(** The page after the account section was filled in with an address and
    a password that pass validation. *)
Definition ready_world : world :=
  default initialWorld
    (fire_all initialWorld
       [ (env_ok, Mount);
         (env_ok, Input (js "account.email") (VStr (js "a@b.com")));
         (env_ok, Input (js "account.password") (VStr (js "12345678"))) ]).

(** ** Further notions *)

(** The properties [{ ...x }] copies, read off the unfolding of [x]. *)
Definition tspread (t : tree) : gmap jsstring tree :=
  match t with
  | TObj fs => fs
  | TPrim x => TPrim <$> spread [] x
  | TCut => ∅
  end.

(** [set] on unfoldings: [t] is the container unfolded to depth [n], and
    [vt m] the value unfolded to depth [m]. *)
Fixpoint tree_set (n : nat) (t : tree) (keys : list jsstring) (vt : nat -> tree) : tree :=
  match n with
  | O => TCut
  | S m =>
    let base := tspread t in
    match keys with
    | [] => TObj (<[js "undefined" := vt m]> base)
    | [k] => TObj (<[k := vt m]> base)
    | k :: ks => TObj (<[k := tree_set m (default (TPrim VUndef) (base !! k)) ks vt]> base)
    end
  end.

(** The number of ["."] in a path. *)
Definition dots (path : jsstring) : nat := length (filter (fun c => c = DOT) path).

(** The values an action carries live in a heap of size [b]. *)
Definition action_in (b : nat) (a : Action) : Prop :=
  match a with
  | CHANGE _ v => val_in b v
  | HYDRATE p => val_in b (default VUndef (p_data p))
  | _ => True
  end.

(** A world whose heap has no dangling reference and holds the data of the
    state and of the render that armed the timer. *)
Definition world_closed (w : world) : Prop :=
  heap_closed (w_heap w) /\
  val_in (length (w_heap w)) (data (w_state w)) /\
  (forall c, w_timer w = Some c -> val_in (length (w_heap w)) (data c)).

(** What the [try] block of [saveDraft] throws before the remote call, if
    anything: the conversion to JSON is tried first, then the write. *)
Definition local_failure (h : heap) (state : WizardState) (e : env) : option jsstring :=
  match stringify_state h state with
  | None => Some (json_error e)
  | Some _ => quota_error e
  end.

(** [e?.message || "保存に失敗しました"] *)
Definition shown_message (m : jsstring) : jsstring :=
  if truthy (VStr m) then m else js "保存に失敗しました".

(** The page of [typed_world] after a manual save that went through and a
    reload by the user, before the mount effect has run. *)
Definition reloaded_world : world :=
  default initialWorld
    (fire_all typed_world [ (env_ok, ClickSave); (env_ok, Reload) ]).

(** What each control shows in the initial state. *)
Definition control_default (c : control) : value :=
  if is_toggle c then VBool false else VStr [].

(** Every control shows its initial value. *)
Definition form_untouched (h : heap) (x : value) : Prop :=
  forall c : control, get_path h x (control_shown c) = Some (control_default c).

(** A draft written from a state whose form is untouched. *)
Definition draft_untouched (doc : document) : Prop :=
  exists (h : heap) (l : loc) (j : json),
    d_data doc = Some j /\ stringify (S (length h)) h (VRef l) = Some (Some j) /\
    form_untouched h (VRef l).

(** What holds of every world a page driven by the controls can be in:
    the form is untouched in the state, in the render that armed the timer
    and in the stored draft. *)
Definition view_ok (w : world) : Prop :=
  world_closed w /\
  form_untouched (w_heap w) (data (w_state w)) /\
  (forall c, w_timer w = Some c -> form_untouched (w_heap w) (data c)) /\
  (forall doc, w_storage w = Some doc -> draft_untouched doc).

(** The first rule of each step, which an untouched form fails. *)
Definition first_message (i : Z) : jsstring :=
  match i with
  | 0%Z => js "メールアドレスは必須です"
  | 1%Z => js "商号（日本語）は必須です"
  | 2%Z => js "代表者氏名は必須です"
  | 3%Z => js "印鑑の準備を完了してください"
  | _ => js "規約同意が必要です"
  end.



(** The initial state shown on the company step. *)
Definition company_step : WizardState :=
  {| currentIndex := 1; savedAt := None; dirty := false; saving := false;
     error := None; data := initialDataRef |}.

(** The state after the e-mail field was set to ["ab"]. *)
Definition email_ab : heap * WizardState :=
  run initialHeap initialState [ ([], CHANGE (js "account.email") (VStr (js "ab"))) ].

(** No timer is pending before the page has loaded, and a pending timer
    belongs to a render with the data of the current state. *)
Definition timer_current (w : world) : Prop :=
  (w_loaded w = false -> w_timer w = None) /\
  (forall c, w_timer w = Some c -> data c = data (w_state w)).

(** The page of [typed_world] after a click on the third step. *)
Definition moved_world : world :=
  default initialWorld (fire env_ok (ClickStep 2) typed_world).

(** What the parts of a save do to a world [w], whatever its outcome: the
    heap, the index, the data, [loaded] and the timer stay, and the storage
    stays or gets the draft of [c]. *)
Definition save_step (c : WizardState) (w w' : world) : Prop :=
  w_heap w' = w_heap w /\
  currentIndex (w_state w') = currentIndex (w_state w) /\
  data (w_state w') = data (w_state w) /\
  w_loaded w' = w_loaded w /\ w_timer w' = w_timer w /\
  (w_storage w' = w_storage w \/
   exists doc, stringify_state (w_heap w) c = Some doc /\ w_storage w' = Some doc).

(** What holds of every page: of its world what [world_ok] says, and every
    render that waits for a save to go on with [next] has a valid index. *)
Definition page_ok (p : page) : Prop :=
  world_ok (pg_world p) /\
  Forall (fun s => forall c, s_then s = Some c -> valid_index (currentIndex c)) (pg_saves p).

(** The page of [typed_world] after a click on the save button, while the
    remote call is under way, and after the user has typed once more. *)
Definition saving_page : page :=
  default initialPage
    (page_fire env_ok (Page ClickSave) {| pg_world := typed_world; pg_saves := [] |}).

Definition typing_while_saving_page : page :=
  default initialPage
    (page_fire env_ok (Page (Input (js "data.account.email") (VStr (js "c@d.com"))))
       saving_page).

(** The page of the view after the mount effect and some typing into the
    e-mail input, then after a click on the save button, and then after
    some typing into the password input while the remote call is under
    way. *)
Definition view_typed_page : page :=
  default initialPage
    (page_fire_all initialPage
       [ (env_ok, Page Mount);
         (env_ok, Page (Input (control_path account_email) (VStr (js "a@b.com")))) ]).

Definition view_saving_page : page :=
  default initialPage (page_fire env_ok (Page ClickSave) view_typed_page).

Definition view_typing_page : page :=
  default initialPage
    (page_fire env_ok (Page (Input (control_path account_password) (VStr (js "12345678"))))
       view_saving_page).

(** The page of [typing_while_saving_page] after the remote call has
    returned and the user has clicked on the third step. *)
Definition returned_page : page :=
  default initialPage
    (page_fire_all typing_while_saving_page
       [ (env_ok, RemoteReturns); (env_ok, Page (ClickStep 2)) ]).

(** The page of [ready_world] after a click on "save and continue", which
    validation lets through, and a click on the fourth step while the remote
    call is under way. *)
Definition continuing_page : page :=
  default initialPage
    (page_fire_all {| pg_world := ready_world; pg_saves := [] |}
       [ (env_ok, Page ClickSaveAndContinue); (env_ok, Page (ClickStep 3)) ]).

(** * Properties *)

(** ** The heap *)

Lemma val_in_mono (b b' : nat) (x : value) : b <= b' -> val_in b x -> val_in b' x.
Proof. destruct x; simpl; auto; lia. Qed.

Lemma obj_in_mono (b b' : nat) (o : obj) : b <= b' -> obj_in b o -> obj_in b' o.
Proof. intros Hb Ho k x Hk. eapply val_in_mono; eauto. Qed.

Lemma obj_in_empty (b : nat) : obj_in b ∅.
Proof. intros k x Hk. rewrite lookup_empty in Hk. discriminate. Qed.

Lemma obj_in_insert (b : nat) (o : obj) (k : jsstring) (x : value) : obj_in b o -> val_in b x -> obj_in b (<[k := x]> o).
Proof.
  intros Ho Hx k' x' Hk'. destruct (decide (k = k')) as [->|Hne].
  - rewrite lookup_insert_eq in Hk'. by inversion Hk'; subst.
  - rewrite lookup_insert_ne in Hk' by done. eauto.
Qed.

Lemma obj_in_union (b : nat) (o1 o2 : obj) : obj_in b o1 -> obj_in b o2 -> obj_in b (o1 ∪ o2).
Proof.
  intros H1 H2 k x Hk. apply lookup_union_Some_raw in Hk as [Hk|[_ Hk]]; eauto.
Qed.

Lemma fields_lookup (h : heap) l o : h !! l = Some o -> fields h l = o.
Proof. unfold fields. by intros ->. Qed.

Lemma fields_dangling (h : heap) l : length h <= l -> fields h l = ∅.
Proof. intros Hl. unfold fields. by rewrite lookup_ge_None_2. Qed.

Lemma fields_closed (h : heap) l : heap_closed h -> obj_in (length h) (fields h l).
Proof.
  intros Hh. unfold fields. destruct (h !! l) as [o|] eqn:Hl; simpl.
  - eapply Hh; eauto.
  - apply obj_in_empty.
Qed.

Lemma spread_string_prim h s k x :
  spread h (VStr s) !! k = Some x -> exists c, x = VStr [c].
Proof.
  simpl. intros Hk. apply elem_of_list_to_map_2 in Hk.
  apply elem_of_lookup_imap in Hk as (i & c & Heq & _).
  inversion Heq; subst. eauto.
Qed.

Lemma spread_closed (h : heap) x : heap_closed h -> obj_in (length h) (spread h x).
Proof.
  intros Hh. destruct x; simpl; try apply obj_in_empty.
  - intros k x Hk. apply (spread_string_prim h) in Hk as [c ->]. exact I.
  - by apply fields_closed.
Qed.

Lemma get_closed (h : heap) l k : heap_closed h -> val_in (length h) (get h l k).
Proof.
  intros Hh. unfold get. destruct (fields h l !! k) as [x|] eqn:Hk; simpl; [|exact I].
  eapply fields_closed; eauto.
Qed.

Lemma length_write (h : heap) l k x : length (write h l k x) = length h.
Proof. unfold write. apply length_alter. Qed.

Lemma lookup_write_ne (h : heap) l l' k x : l <> l' -> write h l k x !! l' = h !! l'.
Proof. intros Hne. unfold write. by apply list_lookup_alter_ne. Qed.

Lemma fields_write_ne (h : heap) l l' k x : l <> l' -> fields (write h l k x) l' = fields h l'.
Proof. intros Hne. unfold fields. by rewrite lookup_write_ne. Qed.

Lemma fields_write_eq (h : heap) l k x :
  l < length h -> fields (write h l k x) l = <[k := x]> (fields h l).
Proof.
  intros Hl. unfold fields, write. rewrite list_lookup_alter_eq.
  destruct (h !! l) as [o|] eqn:Ho; [reflexivity|]. apply lookup_ge_None in Ho. lia.
Qed.

Lemma length_alloc (h : heap) (o : obj) : length (h ++ [o]) = S (length h).
Proof. rewrite length_app. simpl. lia. Qed.

Lemma lookup_alloc_old (h : heap) (o : obj) l : l < length h -> (h ++ [o]) !! l = h !! l.
Proof. intros Hl. by apply lookup_app_l. Qed.

Lemma fields_alloc_old (h : heap) (o : obj) l : l < length h -> fields (h ++ [o]) l = fields h l.
Proof. intros Hl. unfold fields. by rewrite lookup_alloc_old. Qed.

Lemma fields_alloc_new (h : heap) (o : obj) : fields (h ++ [o]) (length h) = o.
Proof. unfold fields. by rewrite list_lookup_middle. Qed.

Lemma heap_closed_alloc (h : heap) (o : obj) :
  heap_closed h -> obj_in (length h) o -> heap_closed (h ++ [o]).
Proof.
  intros Hh Ho l o' Hl. rewrite length_app. simpl.
  apply lookup_app_Some in Hl as [Hl|[_ Hl]].
  - eapply obj_in_mono; [|eapply Hh; eauto]. lia.
  - apply list_lookup_singleton_Some in Hl as [_ <-].
    eapply obj_in_mono; [|eauto]. lia.
Qed.

Lemma heap_closed_write (h : heap) l k x :
  heap_closed h -> val_in (length h) x -> heap_closed (write h l k x).
Proof.
  intros Hh Hx l' o Hl. rewrite length_write.
  destruct (decide (l = l')) as [<-|Hne].
  - unfold write in Hl. rewrite list_lookup_alter_eq in Hl.
    destruct (h !! l) as [o0|] eqn:Hl0; simpl in Hl; [|discriminate].
    inversion Hl; subst. apply obj_in_insert; eauto.
  - rewrite lookup_write_ne in Hl by done. eauto.
Qed.

(** ** The path-set utility *)

Lemma set_loop_cons (h : heap) cur k k2 ks v :
  set_loop h cur (k :: k2 :: ks) v =
  set_loop (write (h ++ [spread h (get h cur k)]) cur k (VRef (length h)))
           (length h) (k2 :: ks) v.
Proof. reflexivity. Qed.

(** The loop only appends objects and assigns to [cur] and to the copies it
    makes: every other object stays as it is. *)
Lemma set_loop_frame (keys : list jsstring) : forall (h : heap) cur v,
  length h <= length (set_loop h cur keys v) /\
  forall l, l < length h -> l <> cur -> set_loop h cur keys v !! l = h !! l.
Proof.
  induction keys as [|k ks IH]; intros h cur v.
  - simpl. rewrite length_write. split; [lia|]. intros l _ Hne. by apply lookup_write_ne.
  - destruct ks as [|k2 ks].
    + simpl. rewrite length_write. split; [lia|]. intros l _ Hne. by apply lookup_write_ne.
    + rewrite set_loop_cons.
      destruct (IH (write (h ++ [spread h (get h cur k)]) cur k (VRef (length h)))
                   (length h) v) as [Hlen Hfr].
      rewrite length_write, length_alloc in Hlen.
      split; [lia|]. intros l Hl Hne.
      rewrite Hfr.
      * rewrite lookup_write_ne by done. by apply lookup_alloc_old.
      * rewrite length_write, length_alloc. lia.
      * lia.
Qed.

(** What the loop leaves in [cur]: one property assigned, the last key with
    the value or an earlier key with the copy of the child. *)
Lemma set_loop_cur (keys : list jsstring) (h : heap) cur v :
  cur < length h ->
  fields (set_loop h cur keys v) cur =
  match keys with
  | [] => <[js "undefined" := v]> (fields h cur)
  | [k] => <[k := v]> (fields h cur)
  | k :: _ => <[k := VRef (length h)]> (fields h cur)
  end.
Proof.
  intros Hcur. destruct keys as [|k [|k2 ks]].
  - simpl. by apply fields_write_eq.
  - simpl. by apply fields_write_eq.
  - rewrite set_loop_cons.
    set (h1 := write _ cur k _).
    assert (Hlen : length h1 = S (length h)).
    { unfold h1. rewrite length_write, length_alloc. lia. }
    unfold fields at 1.
    rewrite (proj2 (set_loop_frame (k2 :: ks) h1 (length h) v)) by lia.
    fold (fields h1 cur). unfold h1.
    rewrite fields_write_eq by (rewrite length_alloc; lia).
    by rewrite fields_alloc_old.
Qed.

Lemma set_loop_closed (keys : list jsstring) : forall (h : heap) cur v,
  heap_closed h -> val_in (length h) v -> heap_closed (set_loop h cur keys v).
Proof.
  induction keys as [|k ks IH]; intros h cur v Hh Hv.
  - simpl. by apply heap_closed_write.
  - destruct ks as [|k2 ks].
    + simpl. by apply heap_closed_write.
    + rewrite set_loop_cons. apply IH.
      * apply heap_closed_write.
        -- apply heap_closed_alloc; [done|]. by apply spread_closed.
        -- rewrite length_alloc. simpl. lia.
      * rewrite length_write, length_alloc. eapply val_in_mono; [|eauto]. lia.
Qed.

Lemma set_keys_frame (h : heap) o keys v h' r :
  set_keys h o keys v = (h', r) ->
  r = VRef (length h) /\ length h < length h' /\
  forall l, l < length h -> h' !! l = h !! l.
Proof.
  unfold set_keys, alloc. intros Heq. inversion Heq; subst. clear Heq.
  destruct (set_loop_frame keys (h ++ [spread h o]) (length h) v) as [Hlen Hfr].
  rewrite length_alloc in Hlen.
  split; [done|]. split; [lia|]. intros l Hl.
  rewrite Hfr.
  - by apply lookup_alloc_old.
  - rewrite length_alloc. lia.
  - lia.
Qed.

Lemma set_keys_closed (h : heap) o keys v h' r :
  heap_closed h -> val_in (length h) v ->
  set_keys h o keys v = (h', r) ->
  heap_closed h' /\ val_in (length h') r.
Proof.
  intros Hh Hv Heq. destruct (set_keys_frame _ _ _ _ _ _ Heq) as (-> & Hlen & _).
  split; [|simpl; lia].
  unfold set_keys, alloc in Heq. inversion Heq; subst.
  apply set_loop_closed.
  - apply heap_closed_alloc; [done|]. by apply spread_closed.
  - rewrite length_alloc. eapply val_in_mono; [|eauto]. lia.
Qed.

Lemma get_prop_closed (h : heap) x k y :
  heap_closed h -> get_prop h x k = Some y -> val_in (length h) y.
Proof.
  intros Hh. destruct x; simpl; try done.
  - intros [= <-]. exact I.
  - intros [= <-]. exact I.
  - case_decide; intros [= <-]; [exact I|].
    destruct (_ !! k) as [y|] eqn:Hk; simpl; [|exact I].
    apply (spread_string_prim h) in Hk as [c ->]. exact I.
  - intros [= <-]. by apply get_closed.
Qed.

(** Reading from a value of a closed heap is not affected by what happens
    beyond that heap: [h'] is any heap that agrees with [h0] on the objects
    of [h0]. *)
Section Stable.
Variables h0 h' : heap.
Hypothesis closed : heap_closed h0.
Hypothesis agree : forall l, l < length h0 -> h' !! l = h0 !! l.

Lemma get_prop_stable (x : value) (k : jsstring) :
  val_in (length h0) x -> get_prop h' x k = get_prop h0 x k.
Proof.
  intros Hx. destruct x; simpl in *; try done.
  unfold get, fields. by rewrite agree.
Qed.

Lemma spread_stable (x : value) :
  val_in (length h0) x -> spread h' x = spread h0 x.
Proof.
  intros Hx. destruct x; simpl in *; try done.
  unfold fields. by rewrite agree.
Qed.

Lemma get_path_stable (q : list jsstring) : forall x : value,
  val_in (length h0) x -> get_path h' x q = get_path h0 x q.
Proof.
  induction q as [|k q IH]; intros x Hx; [done|].
  simpl. rewrite get_prop_stable by done.
  destruct (get_prop h0 x k) as [y|] eqn:Hy; [|done].
  apply IH. eapply get_prop_closed; eauto.
Qed.

Lemma reify_stable (n : nat) : forall x : value,
  val_in (length h0) x -> reify n h' x = reify n h0 x.
Proof.
  induction n as [|n IH]; intros x Hx; destruct x; try done.
  simpl in *. f_equal. unfold fields at 1. rewrite agree by done. fold (fields h0 l).
  apply map_fmap_ext. intros k y Hk. apply IH.
  eapply fields_closed; eauto.
Qed.
End Stable.

Lemma valid_path_ref (h : heap) x (keys : list jsstring) :
  valid_path h x keys -> exists l, x = VRef l.
Proof. destruct keys as [|k [|k2 ks]]; simpl; [done| |]; intros [l H]; exists l; tauto. Qed.

Lemma get_copy (h : heap) cur (o : obj) k :
  fields h cur = o -> get h cur k = default VUndef (o !! k).
Proof. unfold get. by intros ->. Qed.

(** The loop run on a copy [cur] of the object [d] of the heap [h0] it
    started from: the old heap is left alone, and the child it moves to is
    again a copy of an old object. *)
Lemma set_loop_old (keys : list jsstring) (h0 h : heap) cur v :
  (forall l, l < length h0 -> h !! l = h0 !! l) ->
  length h0 <= cur -> cur < length h ->
  forall l, l < length h0 -> set_loop h cur keys v !! l = h0 !! l.
Proof.
  intros Hsame Hlo Hhi l Hl.
  rewrite (proj2 (set_loop_frame keys h cur v)) by lia. by apply Hsame.
Qed.

Lemma set_loop_step_old (h0 h : heap) cur k (o : obj) :
  (forall l, l < length h0 -> h !! l = h0 !! l) ->
  length h0 <= cur -> cur < length h ->
  forall l, l < length h0 -> write (h ++ [o]) cur k (VRef (length h)) !! l = h0 !! l.
Proof.
  intros Hsame Hlo Hhi l Hl.
  rewrite lookup_write_ne by lia. rewrite lookup_alloc_old by lia. by apply Hsame.
Qed.

Lemma set_loop_step_child (h : heap) cur k (o : obj) :
  cur < length h ->
  fields (write (h ++ [o]) cur k (VRef (length h))) (length h) = o.
Proof.
  intros Hhi. rewrite fields_write_ne by lia. apply fields_alloc_new.
Qed.

Lemma get_path_ref_cons (h : heap) l k (q : list jsstring) :
  get_path h (VRef l) (k :: q) = get_path h (get h l k) q.
Proof. reflexivity. Qed.

(** Reading the path back gives the value, whatever the container held. *)
Lemma set_loop_hit (keys : list jsstring) : forall (h : heap) cur v,
  keys <> [] -> cur < length h ->
  get_path (set_loop h cur keys v) (VRef cur) keys = Some v.
Proof.
  induction keys as [|k ks IH]; intros h cur v Hne Hcur; [done|].
  destruct ks as [|k2 ks].
  - cbn [get_path get_prop]. unfold get. rewrite set_loop_cur by done.
    by rewrite lookup_insert_eq.
  - cbn [get_path get_prop]. unfold get at 1. rewrite set_loop_cur by done.
    rewrite lookup_insert_eq. cbn [default].
    rewrite set_loop_cons. apply IH; [done|].
    rewrite length_write, length_alloc. lia.
Qed.

(** Every proper prefix of the path reads as an object made by the loop. *)
Lemma set_loop_prefix (p : list jsstring) : forall (rest : list jsstring) (h : heap) cur v,
  p <> [] -> rest <> [] -> cur < length h ->
  exists l, length h <= l /\
    get_path (set_loop h cur (p ++ rest) v) (VRef cur) p = Some (VRef l).
Proof.
  induction p as [|k p IH]; intros rest h cur v Hp Hrest Hcur; [done|].
  destruct p as [|k2 p].
  - destruct rest as [|k2 rest]; [done|].
    exists (length h). split; [lia|].
    cbn [get_path get_prop app]. unfold get. rewrite set_loop_cur by done.
    by rewrite lookup_insert_eq.
  - destruct (IH rest (write (h ++ [spread h (get h cur k)]) cur k (VRef (length h)))
                (length h) v) as (l & Hl & Hget); [done|done| |].
    { rewrite length_write, length_alloc. lia. }
    rewrite length_write, length_alloc in Hl.
    exists l. split; [lia|].
    cbn [app]. rewrite get_path_ref_cons. unfold get.
    rewrite set_loop_cur by done. rewrite lookup_insert_eq. cbn [default].
    rewrite set_loop_cons. exact Hget.
Qed.

(** Off the path, the copy reads exactly as the original did. *)
Lemma set_loop_miss (keys : list jsstring) : forall (h0 h : heap) cur d v q,
  heap_closed h0 ->
  (forall l, l < length h0 -> h !! l = h0 !! l) ->
  length h0 <= cur -> cur < length h ->
  fields h cur = fields h0 d ->
  valid_path h0 (VRef d) keys ->
  diverges q keys ->
  get_path (set_loop h cur keys v) (VRef cur) q = get_path h0 (VRef d) q.
Proof.
  induction keys as [|k ks IH]; intros h0 h cur d v q Hh Hsame Hlo Hhi Hcopy Hvalid Hdiv;
    [done|].
  destruct q as [|k' q]; [done|].
  cbn [get_path get_prop].
  assert (Hcur : fields (set_loop h cur (k :: ks) v) cur
                 = <[k := match ks with [] => v | _ => VRef (length h) end]> (fields h0 d)).
  { rewrite set_loop_cur by done. rewrite Hcopy. by destruct ks. }
  destruct Hdiv as [Hne|[-> Hdiv]].
  - unfold get at 1. rewrite Hcur. rewrite lookup_insert_ne by done.
    fold (get h0 d k').
    apply get_path_stable; [done| |by apply get_closed].
    by apply set_loop_old.
  - destruct ks as [|k2 ks]; [by destruct q|].
    unfold get at 1. rewrite Hcur. rewrite lookup_insert_eq. cbn [default].
    destruct Hvalid as (d0 & [= <-] & Hvalid).
    destruct (valid_path_ref _ _ _ Hvalid) as [d' Hd'].
    rewrite Hd' in Hvalid. rewrite Hd'.
    assert (Hd'lt : d' < length h0).
    { pose proof (get_closed h0 d k Hh) as Hc. rewrite Hd' in Hc. exact Hc. }
    rewrite set_loop_cons. apply IH; try done.
    + by apply set_loop_step_old.
    + lia.
    + rewrite length_write, length_alloc. lia.
    + rewrite set_loop_step_child by done.
      rewrite (get_copy h cur (fields h0 d)) by done. fold (get h0 d k). rewrite Hd'.
      simpl. unfold fields. by rewrite Hsame.
Qed.

(** The unfolding of what the loop builds is the one [tset] computes. *)
Lemma set_loop_reify (keys : list jsstring) : forall (n : nat) (h0 h : heap) cur src v,
  heap_closed h0 ->
  (forall l, l < length h0 -> h !! l = h0 !! l) ->
  length h0 <= cur -> cur < length h ->
  fields h cur = spread h0 src ->
  val_in (length h0) v ->
  reify n (set_loop h cur keys v) (VRef cur) = tset n h0 src keys v.
Proof.
  induction keys as [|k ks IH]; intros n h0 h cur src v Hh Hsame Hlo Hhi Hcopy Hv;
    (destruct n as [|m]; [done|]).
  - cbn [reify tset]. rewrite set_loop_cur by done. rewrite Hcopy, fmap_insert.
    f_equal. f_equal.
    + apply reify_stable; [done| |done]. by apply set_loop_old.
    + apply map_fmap_ext. intros k' y Hy. apply reify_stable; [done| |].
      * by apply set_loop_old.
      * eapply spread_closed; eauto.
  - assert (Hbase : reify m (set_loop h cur (k :: ks) v) <$> spread h0 src
                    = reify m h0 <$> spread h0 src).
    { apply map_fmap_ext. intros k' y Hy. apply reify_stable; [done| |].
      - by apply set_loop_old.
      - eapply spread_closed; eauto. }
    destruct ks as [|k2 ks].
    + cbn [reify tset]. rewrite set_loop_cur by done. rewrite Hcopy, fmap_insert, Hbase.
      f_equal. f_equal.
      apply reify_stable; [done| |done]. by apply set_loop_old.
    + cbn [reify]. rewrite set_loop_cur by done. rewrite Hcopy, fmap_insert, Hbase.
      change (tset (S m) h0 src (k :: k2 :: ks) v)
        with (TObj (<[k := tset m h0 (default VUndef (spread h0 src !! k)) (k2 :: ks) v]>
                      (reify m h0 <$> spread h0 src))).
      f_equal. f_equal.
      rewrite set_loop_cons. apply IH; try done.
      * by apply set_loop_step_old.
      * lia.
      * rewrite length_write, length_alloc. lia.
      * rewrite set_loop_step_child by done.
        rewrite (get_copy h cur (spread h0 src)) by done.
        apply spread_stable; [done|].
        destruct (spread h0 src !! k) as [y|] eqn:Hy; [|exact I].
        eapply spread_closed; eauto.
Qed.

Lemma set_keys_hit (h : heap) o (keys : list jsstring) v h' r :
  keys <> [] -> set_keys h o keys v = (h', r) -> get_path h' r keys = Some v.
Proof.
  unfold set_keys, alloc. intros Hne [= <- <-].
  apply set_loop_hit; [done|]. rewrite length_alloc. lia.
Qed.

Lemma set_keys_prefix (h : heap) o (p rest : list jsstring) v h' r :
  p <> [] -> rest <> [] -> set_keys h o (p ++ rest) v = (h', r) ->
  exists l, length h <= l /\ get_path h' r p = Some (VRef l).
Proof.
  unfold set_keys, alloc. intros Hp Hrest [= <- <-].
  destruct (set_loop_prefix p rest (h ++ [spread h o]) (length h) v) as (l & Hl & Hget);
    [done|done| |].
  { rewrite length_alloc. lia. }
  rewrite length_alloc in Hl. exists l. split; [lia|done].
Qed.

Lemma set_keys_miss (h : heap) o (keys q : list jsstring) v h' r :
  heap_closed h -> val_in (length h) o -> valid_path h o keys -> diverges q keys ->
  set_keys h o keys v = (h', r) ->
  get_path h' r q = get_path h o q.
Proof.
  intros Hh Ho Hvalid Hdiv. unfold set_keys, alloc. intros [= <- <-].
  destruct (valid_path_ref _ _ _ Hvalid) as [d ->]. simpl in Ho.
  apply set_loop_miss; try done.
  - intros l Hl. by apply lookup_alloc_old.
  - rewrite length_alloc. lia.
  - by rewrite fields_alloc_new.
Qed.

Lemma set_keys_reify (h : heap) o (keys : list jsstring) v h' r :
  heap_closed h -> val_in (length h) v ->
  set_keys h o keys v = (h', r) ->
  forall n, reify n h' r = tset n h o keys v.
Proof.
  intros Hh Hv. unfold set_keys, alloc. intros [= <- <-] n.
  apply set_loop_reify; try done.
  - intros l Hl. by apply lookup_alloc_old.
  - rewrite length_alloc. lia.
  - by rewrite fields_alloc_new.
Qed.

(** Setting the same path to the same value in what [set] returned gives
    the same unfolding again. *)
Lemma tset_idem (h h1 : heap) v (n : nat) : forall (keys : list jsstring) x src,
  (forall m, reify m h1 x = tset m h src keys v) ->
  (forall m, reify m h1 v = reify m h v) ->
  tset n h1 x keys v = tset n h src keys v.
Proof.
  induction n as [|m IH]; intros keys x src Hx Hv; [done|].
  pose proof (Hx (S m)) as Hsm.
  destruct x as [| | | | |l]; try (destruct keys as [|? [|? ?]]; discriminate Hsm).
  assert (Hbase : forall k (t : tree) (base : gmap jsstring tree),
             reify m h1 <$> fields h1 l = <[k := t]> base ->
             forall t', <[k := t']> (reify m h1 <$> spread h1 (VRef l)) = <[k := t']> base).
  { intros k t base Heq t'. simpl. rewrite Heq. apply insert_insert_eq. }
  destruct keys as [|k [|k2 ks]]; cbn [reify tset] in Hsm |- *; injection Hsm as Hsm.
  - rewrite (Hbase _ _ _ Hsm). by rewrite Hv.
  - rewrite (Hbase _ _ _ Hsm). by rewrite Hv.
  - rewrite (Hbase _ _ _ Hsm). f_equal. f_equal.
    apply IH; [|done].
    intros m'. pose proof (Hx (S m')) as Hm'.
    cbn [reify tset] in Hm'. injection Hm' as Hm'.
    apply (f_equal (fun o => o !! k)) in Hm'.
    rewrite lookup_fmap, lookup_insert_eq in Hm'. simpl.
    destruct (fields h1 l !! k) as [y|]; simpl in Hm'; [|discriminate].
    by injection Hm'.
Qed.

Lemma heap_closed_check (h : heap) :
  bool_decide (Forall (map_Forall (fun (_ : jsstring) x => val_in (length h) x)) h) = true ->
  heap_closed h.
Proof.
  intros H%bool_decide_eq_true l o Hl. rewrite Forall_lookup in H. exact (H l o Hl).
Qed.

Lemma initialHeap_closed : heap_closed initialHeap.
Proof. apply heap_closed_check. vm_compute. reflexivity. Qed.

Lemma split_nonempty (sep : N) (s : jsstring) : split sep s <> [].
Proof.
  destruct s as [|c s]; simpl; [done|].
  destruct (c =? sep)%N; [done|]. by destruct (split sep s).
Qed.

(** C3: a change at a valid path, none of whose segments is [__proto__],
    leaves the state as it was outside [data] and [dirty], puts the value at
    the path, mutates no object of the old state, and off the path every
    read gives the very value it gave before, the same reference for a
    sibling branch. *)
Theorem change_frame (now : jsstring) (h : heap) (s : WizardState)
    (path : jsstring) (v : value) :
  heap_closed h ->
  val_in (length h) (data s) ->
  valid_path h (data s) (split DOT path) ->
  plain_path (split DOT path) ->
  let '(h', s') := reducer now h s (CHANGE path v) in
  currentIndex s' = currentIndex s /\ savedAt s' = savedAt s /\
  saving s' = saving s /\ error s' = error s /\ dirty s' = true /\
  (forall l, l < length h -> h' !! l = h !! l) /\
  get_path h' (data s') (split DOT path) = Some v /\
  (forall q, diverges q (split DOT path) ->
     get_path h' (data s') q = get_path h (data s) q).
Proof.
  intros Hh Hd Hvalid _. cbn [reducer]. unfold set.
  destruct (set_keys h (data s) (split DOT path) v) as [h' r] eqn:Hset.
  cbn [data currentIndex savedAt dirty saving error].
  destruct (set_keys_frame _ _ _ _ _ _ Hset) as (_ & _ & Hframe).
  repeat split; try done.
  - eapply set_keys_hit; eauto. apply split_nonempty.
  - intros q Hq. eapply set_keys_miss; eauto.
Qed.

Lemma change_frame_witness :
  heap_closed initialHeap /\
  val_in (length initialHeap) (data initialState) /\
  valid_path initialHeap (data initialState) (split DOT (js "account.email")) /\
  plain_path (split DOT (js "account.email")) /\
  let '(h', s') :=
    reducer [] initialHeap initialState (CHANGE (js "account.email") (VStr (js "a@b.com"))) in
  currentIndex s' = 0%Z /\ dirty s' = true /\
  get_path h' (data s') [js "account"; js "email"] = Some (VStr (js "a@b.com")) /\
  get_path h' (data s') [js "account"; js "password"] = Some (VStr []) /\
  get_path h' (data s') [js "company"] = Some (VRef 1).
Proof.
  assert (Hvalid : valid_path initialHeap (data initialState)
                     (split DOT (js "account.email"))).
  { exists 5. split; [reflexivity|]. exists 0. vm_compute. reflexivity. }
  assert (Hin : val_in (length initialHeap) (data initialState)) by (vm_compute; lia).
  assert (Hplain : plain_path (split DOT (js "account.email"))).
  { apply (bool_decide_eq_true_1 (plain_path _)). vm_compute. reflexivity. }
  split; [exact initialHeap_closed|]. split; [exact Hin|]. split; [exact Hvalid|].
  split; [exact Hplain|].
  pose proof (change_frame [] initialHeap initialState (js "account.email")
                (VStr (js "a@b.com")) initialHeap_closed Hin Hvalid Hplain) as H.
  destruct (reducer [] initialHeap initialState
              (CHANGE (js "account.email") (VStr (js "a@b.com")))) as [h' s'].
  destruct H as (Hi & _ & _ & _ & Hdirty & _ & Hhit & Hmiss).
  split; [exact Hi|]. split; [exact Hdirty|]. split; [exact Hhit|].
  split.
  - rewrite (Hmiss [js "account"; js "password"]); [reflexivity|].
    right. split; [reflexivity|]. left. vm_compute. discriminate.
  - rewrite (Hmiss [js "company"]); [reflexivity|].
    left. vm_compute. discriminate.
Defined.

(** C4: the same change applied twice gives the state it gives applied
    once: the same fields outside [data], and the same structure under
    [data]. *)
Theorem change_idempotent (now1 now2 : jsstring) (h : heap) (s : WizardState)
    (path : jsstring) (v : value) :
  heap_closed h ->
  val_in (length h) v ->
  let '(h1, s1) := reducer now1 h s (CHANGE path v) in
  let '(h2, s2) := reducer now2 h1 s1 (CHANGE path v) in
  currentIndex s2 = currentIndex s1 /\ savedAt s2 = savedAt s1 /\
  dirty s2 = dirty s1 /\ saving s2 = saving s1 /\ error s2 = error s1 /\
  same_structure h2 (data s2) h1 (data s1).
Proof.
  intros Hh Hv. cbn [reducer]. unfold set.
  destruct (set_keys h (data s) (split DOT path) v) as [h1 r1] eqn:Hset1.
  cbn [data currentIndex savedAt dirty saving error].
  destruct (set_keys h1 r1 (split DOT path) v) as [h2 r2] eqn:Hset2.
  cbn [data currentIndex savedAt dirty saving error].
  repeat split; try done.
  destruct (set_keys_frame _ _ _ _ _ _ Hset1) as (_ & Hlen & Hframe).
  destruct (set_keys_closed _ _ _ _ _ _ Hh Hv Hset1) as [Hh1 _].
  assert (Hv1 : val_in (length h1) v) by (eapply val_in_mono; [|eauto]; lia).
  intros n.
  rewrite (set_keys_reify _ _ _ _ _ _ Hh1 Hv1 Hset2).
  rewrite (set_keys_reify _ _ _ _ _ _ Hh Hv Hset1).
  apply tset_idem.
  - intros m. apply (set_keys_reify _ _ _ _ _ _ Hh Hv Hset1).
  - intros m. by apply reify_stable.
Qed.

Lemma change_idempotent_witness :
  heap_closed initialHeap /\
  val_in (length initialHeap) (VStr (js "a@b.com")) /\
  let '(h1, s1) :=
    reducer [] initialHeap initialState (CHANGE (js "account.email") (VStr (js "a@b.com"))) in
  let '(h2, s2) := reducer [] h1 s1 (CHANGE (js "account.email") (VStr (js "a@b.com"))) in
  dirty s2 = dirty s1 /\ same_structure h2 (data s2) h1 (data s1).
Proof.
  split; [exact initialHeap_closed|]. split; [exact I|].
  pose proof (change_idempotent [] [] initialHeap initialState (js "account.email")
                (VStr (js "a@b.com")) initialHeap_closed I) as H.
  destruct (reducer [] initialHeap initialState
              (CHANGE (js "account.email") (VStr (js "a@b.com")))) as [h1 s1].
  destruct (reducer [] h1 s1 (CHANGE (js "account.email") (VStr (js "a@b.com"))))
    as [h2 s2].
  destruct H as (_ & _ & Hd & _ & _ & Hs). split; [exact Hd|exact Hs].
Defined.

(** C9, as amended: on any container and any path none of whose segments
    is [__proto__], [set] returns a new object and leaves the old heap
    alone; reading the path in the result gives the value; and every segment
    before the last holds an object made by this call, whether the container
    had that segment or not. *)
Theorem set_creates_intermediate_objects (h : heap) (o : value) (path : jsstring) (v : value) :
  plain_path (split DOT path) ->
  let '(h', r) := set h o path v in
  r = VRef (length h) /\
  (forall l, l < length h -> h' !! l = h !! l) /\
  get_path h' r (split DOT path) = Some v /\
  (forall p rest : list jsstring,
     split DOT path = p ++ rest -> p <> [] -> rest <> [] ->
     exists l, length h <= l /\ get_path h' r p = Some (VRef l)).
Proof.
  intros _. unfold set. destruct (set_keys h o (split DOT path) v) as [h' r] eqn:Hset.
  destruct (set_keys_frame _ _ _ _ _ _ Hset) as (Hr & _ & Hframe).
  split; [done|]. split; [done|]. split.
  - eapply set_keys_hit; eauto. apply split_nonempty.
  - intros p rest Hsplit Hp Hrest. rewrite Hsplit in Hset.
    eapply set_keys_prefix; eauto.
Qed.

Lemma set_creates_intermediate_objects_witness :
  plain_path (split DOT (js "data.account.email")) /\
  get_path initialHeap initialDataRef [js "data"] = Some VUndef /\
  let '(h', r) := set initialHeap initialDataRef (js "data.account.email") (VStr (js "x")) in
  r = VRef 6 /\
  get_path h' r [js "data"; js "account"; js "email"] = Some (VStr (js "x")) /\
  (exists l, 6 <= l /\ get_path h' r [js "data"] = Some (VRef l)) /\
  (exists l, 6 <= l /\ get_path h' r [js "data"; js "account"] = Some (VRef l)).
Proof.
  assert (Hplain : plain_path (split DOT (js "data.account.email"))).
  { apply (bool_decide_eq_true_1 (plain_path _)). vm_compute. reflexivity. }
  split; [exact Hplain|]. split; [vm_compute; reflexivity|].
  pose proof (set_creates_intermediate_objects initialHeap initialDataRef
                (js "data.account.email") (VStr (js "x")) Hplain) as H.
  destruct (set initialHeap initialDataRef (js "data.account.email") (VStr (js "x")))
    as [h' r].
  destruct H as (Hr & _ & Hhit & Hmade).
  split; [exact Hr|]. split; [exact Hhit|]. split.
  - apply (Hmade [js "data"] [js "account"; js "email"]);
      [vm_compute; reflexivity|discriminate|discriminate].
  - apply (Hmade [js "data"; js "account"] [js "email"]);
      [vm_compute; reflexivity|discriminate|discriminate].
Defined.

(** C9, the claim as stated fails: with the path the view passes for the
    e-mail field, the initial [data] has no key [data], and the result has an
    object there, holding another under [account]. *)
Lemma set_missing_segment_counterexample :
  get_path initialHeap initialDataRef [js "data"] = Some VUndef /\
  (let '(h', r) := set initialHeap initialDataRef (js "data.account.email") (VStr (js "x")) in
   get_path h' r [js "data"] = Some (VRef 7) /\
   get_path h' r [js "data"; js "account"] = Some (VRef 8) /\
   get_path h' r [js "account"; js "email"] = Some (VStr [])) /\
  ~ spec_no_intermediate_objects initialHeap initialDataRef (js "data.account.email")
      (VStr (js "x")).
Proof.
  assert (Hmissing : get_path initialHeap initialDataRef [js "data"] = Some VUndef)
    by (vm_compute; reflexivity).
  assert (Hmade :
    get_path (set initialHeap initialDataRef (js "data.account.email") (VStr (js "x"))).1
             (set initialHeap initialDataRef (js "data.account.email") (VStr (js "x"))).2
             [js "data"] = Some (VRef 7)) by (vm_compute; reflexivity).
  assert (Hsplit : split DOT (js "data.account.email")
                   = [js "data"] ++ [js "account"; js "email"]) by (vm_compute; reflexivity).
  split; [exact Hmissing|]. split; [vm_compute; auto|].
  unfold spec_no_intermediate_objects.
  destruct (set initialHeap initialDataRef (js "data.account.email") (VStr (js "x")))
    as [h' r].
  cbn [fst snd] in Hmade. intros H.
  specialize (H [js "data"] [js "account"; js "email"] Hsplit ltac:(discriminate) Hmissing).
  rewrite Hmade in H. discriminate H.
Qed.

(** ** The regular expression of the e-mail check *)

Lemma nullable_matches (r : regex) : nullable r = true <-> matches r [].
Proof.
  induction r as [| |p|r1 IH1 r2 IH2|r1 IH1 r2 IH2|r IH]; simpl.
  - split; [discriminate|]. intros H. inversion H.
  - split; [constructor|done].
  - split; [discriminate|]. intros H. inversion H.
  - rewrite andb_true_iff, IH1, IH2. split.
    + intros [H1 H2]. change (@nil N) with (@nil N ++ []). by constructor.
    + intros H. inversion H as [| |? ? s1 s2 H1 H2 Heq| | | |]; subst.
      destruct s1; [|discriminate]. destruct s2; [|discriminate]. done.
  - rewrite orb_true_iff, IH1, IH2. split.
    + intros [H|H]; [by apply matches_alt_l|by apply matches_alt_r].
    + intros H. inversion H; subst; auto.
  - split; [constructor|done].
Qed.

Lemma deriv_sound (r : regex) : forall c s, matches (deriv c r) s -> matches r (c :: s).
Proof.
  induction r as [| |p|r1 IH1 r2 IH2|r1 IH1 r2 IH2|r IH]; intros c s H; simpl in H.
  - inversion H.
  - inversion H.
  - destruct (p c) eqn:Hp; inversion H; subst. by constructor.
  - destruct (nullable r1) eqn:Hn.
    + inversion H as [| | |? ? ? H1|? ? ? H2| |]; subst.
      * inversion H1 as [| |? ? s1 s2 Ha Hb| | | |]; subst.
        change (c :: s1 ++ s2) with ((c :: s1) ++ s2). constructor; auto.
      * change (c :: s) with ([] ++ c :: s). constructor; auto.
        by apply nullable_matches.
    + inversion H as [| |? ? s1 s2 Ha Hb| | | |]; subst.
      change (c :: s1 ++ s2) with ((c :: s1) ++ s2). constructor; auto.
  - inversion H; subst; [apply matches_alt_l|apply matches_alt_r]; auto.
  - inversion H as [| |? ? s1 s2 Ha Hb| | | |]; subst.
    change (c :: s1 ++ s2) with ((c :: s1) ++ s2). constructor; auto.
Qed.

Lemma deriv_complete (r : regex) (s' : jsstring) :
  matches r s' -> forall c s, s' = c :: s -> matches (deriv c r) s.
Proof.
  induction 1 as [|p c' Hp|r1 r2 s1 s2 H1 IH1 H2 IH2|r1 r2 s0 H1 IH1|r1 r2 s0 H2 IH2
                  |r|r s1 s2 H1 IH1 H2 IH2]; intros c s Heq; simpl.
  - discriminate.
  - injection Heq as -> <-. rewrite Hp. constructor.
  - destruct s1 as [|c1 s1].
    + simpl in Heq. subst s2.
      rewrite (proj2 (nullable_matches r1) H1). apply matches_alt_r. by apply IH2.
    + simpl in Heq. injection Heq as -> <-.
      destruct (nullable r1).
      * apply matches_alt_l. constructor; auto.
      * constructor; auto.
  - apply matches_alt_l. by apply IH1.
  - apply matches_alt_r. by apply IH2.
  - discriminate.
  - destruct s1 as [|c1 s1].
    + simpl in Heq. by apply IH2.
    + simpl in Heq. injection Heq as -> <-. constructor; auto.
Qed.

Lemma test_matches (s : jsstring) : forall r, test r s = true <-> matches r s.
Proof.
  induction s as [|c s IH]; intros r; simpl.
  - apply nullable_matches.
  - rewrite IH. split.
    + apply deriv_sound.
    + intros H. eapply deriv_complete; eauto.
Qed.

Lemma matches_star_class (p : N -> bool) (s : jsstring) :
  matches (Star (Class p)) s <-> Forall (fun c => p c = true) s.
Proof.
  split.
  - intros H. remember (Star (Class p)) as r eqn:Hr.
    induction H as [| | | | | |r0 s1 s2 H1 _ H2 IH2]; try discriminate.
    + constructor.
    + injection Hr as ->. inversion H1; subst. constructor; auto.
  - induction 1 as [|c s Hc _ IH].
    + constructor.
    + change (c :: s) with ([c] ++ s). constructor; [by constructor|done].
Qed.

Lemma matches_plus_class (p : N -> bool) (s : jsstring) :
  matches (Plus (Class p)) s <-> s <> [] /\ Forall (fun c => p c = true) s.
Proof.
  unfold Plus. split.
  - intros H. inversion H as [| |? ? s1 s2 H1 H2| | | |]; subst.
    inversion H1; subst. apply matches_star_class in H2. split; [done|].
    constructor; auto.
  - intros [Hne H]. destruct s as [|c s]; [done|].
    inversion H; subst. change (c :: s) with ([c] ++ s).
    constructor; [by constructor|by apply matches_star_class].
Qed.

Lemma matches_char (a : N) (r : regex) (s : jsstring) :
  matches (Seq (Class (N.eqb a)) r) s <-> exists s', s = a :: s' /\ matches r s'.
Proof.
  split.
  - intros H. inversion H as [| |? ? s1 s2 H1 H2| | | |]; subst.
    inversion H1 as [|? ? Hc| | | | |]; subst. apply N.eqb_eq in Hc. subst. eauto.
  - intros (s' & -> & H). change (a :: s') with ([a] ++ s').
    constructor; [|done]. constructor. apply N.eqb_refl.
Qed.

Lemma matches_seq_iff (r1 r2 : regex) (s : jsstring) :
  matches (Seq r1 r2) s <-> exists s1 s2, s = s1 ++ s2 /\ matches r1 s1 /\ matches r2 s2.
Proof.
  split.
  - intros H. inversion H; subst. eauto.
  - intros (s1 & s2 & -> & H1 & H2). by constructor.
Qed.

(** [EMAIL] accepts exactly the strings of the shape [local@x.y]. *)
Lemma test_EMAIL (email : jsstring) : test EMAIL email = true <-> email_shape email.
Proof.
  rewrite test_matches. unfold EMAIL, email_shape, word. split.
  - intros H.
    apply matches_seq_iff in H as (a & rest & -> & Ha & H).
    apply matches_char in H as (rest' & -> & H).
    apply matches_seq_iff in H as (x & rest & -> & Hx & H).
    apply matches_char in H as (y & -> & Hy).
    apply matches_plus_class in Ha, Hx, Hy. exists a, x, y. done.
  - intros (a & x & y & -> & Ha & Hx & Hy).
    apply matches_seq_iff. exists a, (AT :: x ++ DOT :: y).
    split; [done|]. split; [by apply matches_plus_class|].
    apply matches_char. eexists. split; [done|].
    apply matches_seq_iff. exists x, (DOT :: y).
    split; [done|]. split; [by apply matches_plus_class|].
    apply matches_char. eexists. split; [done|]. by apply matches_plus_class.
Qed.

(** ** Validation *)

Lemma ltb_nat_Z (n m : nat) : (Z.of_nat n <? Z.of_nat m)%Z = (n <? m)%nat.
Proof.
  destruct (Z.ltb_spec (Z.of_nat n) (Z.of_nat m)), (Nat.ltb_spec n m); try reflexivity; lia.
Qed.

Lemma validate_account_typed (h : heap) (state : WizardState) (email password : jsstring) :
  currentIndex state = 0%Z ->
  account_is h state email password ->
  validateCurrent h state =
    Some (if bool_decide (email = []) then Some (js "メールアドレスは必須です")
          else if negb (test EMAIL email) then Some (js "メール形式が不正です")
          else if (length password <? 8)%nat then Some (js "パスワードは8文字以上")
          else None).
Proof.
  intros Hi (d & a & Hd & Ha & He & Hp).
  unfold validateCurrent. rewrite Hi, Hd.
  change (step_at 0) with (Some {| key := js "account"; label := js "アカウント" |}).
  cbn [mbind option_bind key].
  rewrite decide_True by reflexivity.
  cbn [get_prop mbind option_bind]. rewrite Ha.
  cbn [get_prop mbind option_bind]. rewrite He, Hp.
  unfold test_value. cbn [truthy negb ToString mbind option_bind].
  destruct (bool_decide (email = [])); [reflexivity|]. cbn [negb].
  destruct (test EMAIL email); [|reflexivity]. cbn [negb].
  assert (Hlen : get_prop h (if negb (bool_decide (password = []))
                             then VStr password else VStr []) (js "length")
                 = Some (VNum (Z.of_nat (length password)))).
  { destruct (bool_decide_reflect (password = [])) as [->|_]; cbn [negb get_prop];
      by rewrite decide_True by reflexivity. }
  rewrite Hlen. cbn [mbind option_bind less_than].
  change 8%Z with (Z.of_nat 8). rewrite ltb_nat_Z.
  by destruct (length password <? 8)%nat.
Qed.

Lemma filled_account (email password : jsstring) :
  currentIndex (filled email password).2 = 0%Z /\
  account_is (filled email password).1 (filled email password).2 email password.
Proof.
  split; [reflexivity|]. exists 8, 9. repeat split; vm_compute; reflexivity.
Qed.

(** C6, as amended: on the account step the rules are checked in the order
    e-mail required, e-mail format, password length, and the first that
    fails gives the message; the format is [local@x.y] with [local], [x] and
    [y] non-empty and free of ["@"] and white space. The two inputs of the
    specification get the format message and the password message. *)
Theorem validate_account_order :
  (forall (h : heap) (state : WizardState) (email password : jsstring),
     currentIndex state = 0%Z ->
     account_is h state email password ->
     validateCurrent h state =
       Some (if bool_decide (email = []) then Some (js "メールアドレスは必須です")
             else if negb (test EMAIL email) then Some (js "メール形式が不正です")
             else if (length password <? 8)%nat then Some (js "パスワードは8文字以上")
             else None)) /\
  (forall email : jsstring, test EMAIL email = true <-> email_shape email) /\
  (forall (h : heap) (state : WizardState),
     currentIndex state = 0%Z ->
     account_is h state (js "not-an-email") (js "longenough1") ->
     validateCurrent h state = Some (Some (js "メール形式が不正です"))) /\
  (forall (h : heap) (state : WizardState),
     currentIndex state = 0%Z ->
     account_is h state (js "a@b.com") (js "1234567") ->
     validateCurrent h state = Some (Some (js "パスワードは8文字以上"))).
Proof.
  split; [exact validate_account_typed|]. split; [exact test_EMAIL|].
  split; intros h state Hi Hacc; rewrite (validate_account_typed _ _ _ _ Hi Hacc);
    vm_compute; reflexivity.
Qed.

Lemma validate_account_order_witness :
  (currentIndex (filled (js "a@b.com") (js "12345678")).2 = 0%Z /\
   account_is (filled (js "a@b.com") (js "12345678")).1
              (filled (js "a@b.com") (js "12345678")).2 (js "a@b.com") (js "12345678") /\
   validateCurrent (filled (js "a@b.com") (js "12345678")).1
                   (filled (js "a@b.com") (js "12345678")).2 = Some None) /\
  (account_is (filled (js "a@b.com") (js "1234567")).1
              (filled (js "a@b.com") (js "1234567")).2 (js "a@b.com") (js "1234567") /\
   validateCurrent (filled (js "a@b.com") (js "1234567")).1
                   (filled (js "a@b.com") (js "1234567")).2
   = Some (Some (js "パスワードは8文字以上"))).
Proof.
  destruct validate_account_order as (Hgen & _ & _ & Hshort).
  split.
  - destruct (filled_account (js "a@b.com") (js "12345678")) as [Hi Hacc].
    split; [exact Hi|]. split; [exact Hacc|].
    rewrite (Hgen _ _ _ _ Hi Hacc). vm_compute. reflexivity.
  - destruct (filled_account (js "a@b.com") (js "1234567")) as [Hi Hacc].
    split; [exact Hacc|]. exact (Hshort _ _ Hi Hacc).
Defined.

(** C6, the claim as stated fails: ["a@.com"] has one ["@"] with
    non-whitespace on both sides and a ["."] in the domain part, and with a
    long enough password validation still answers with the format message. *)
Lemma validate_account_counterexample :
  spec_email_format (js "a@.com") /\
  validateCurrent (filled (js "a@.com") (js "longenough1")).1
                  (filled (js "a@.com") (js "longenough1")).2
  = Some (Some (js "メール形式が不正です")).
Proof.
  split; [|vm_compute; reflexivity].
  exists (js "a"), (js ".com").
  split; [vm_compute; reflexivity|]. split; [vm_compute; discriminate|].
  split; [vm_compute; discriminate|].
  split; [|split].
  - vm_compute. repeat constructor.
  - vm_compute. repeat constructor.
  - vm_compute. apply list_elem_of_here.
Qed.

(** ** The reducer and the save routine *)

Lemma stringify_state_eta (h : heap) (state : WizardState) :
  stringify_state h
    {| currentIndex := currentIndex state; savedAt := savedAt state; dirty := dirty state;
       saving := saving state; error := error state; data := data state |}
  = stringify_state h state.
Proof. reflexivity. Qed.

Lemma stringify_state_fields (h : heap) (state : WizardState) (doc : document) :
  stringify_state h state = Some doc ->
  d_currentIndex doc = currentIndex state /\ d_savedAt doc = savedAt state /\
  d_dirty doc = dirty state /\ d_saving doc = saving state /\ d_error doc = error state.
Proof.
  unfold stringify_state. destruct (stringify _ h (data state)) as [d|]; [|discriminate].
  cbn. intros [= <-]. done.
Qed.

(** Unfolding the save routine: records are projected as soon as they are
    built, so that the state after each [dispatch] stays small. *)
Ltac simpl_save :=
  cbn [reducer w_heap w_state w_loaded w_timer w_storage w_effects
       currentIndex savedAt dirty saving error data fakeSaveToServer
       default fst snd].

Ltac unfold_save :=
  unfold saveDraft, dispatch, setItem, log; simpl_save;
  rewrite ?stringify_state_eta.

Ltac save_cases state e w opts :=
  unfold_save;
  destruct (stringify_state (w_heap w) state), (quota_error e), (random_below e),
    opts as [[|]|];
  simpl_save.

(** The [dispatch]es of the save routine leave the heap, the index and the
    data alone. *)
Lemma saveDraft_frame (state : WizardState) (opts : option reason) (e : env) (w : world) :
  w_heap (saveDraft state opts e w) = w_heap w /\
  currentIndex (w_state (saveDraft state opts e w)) = currentIndex (w_state w) /\
  data (w_state (saveDraft state opts e w)) = data (w_state w) /\
  w_loaded (saveDraft state opts e w) = w_loaded w /\
  w_timer (saveDraft state opts e w) = w_timer w /\
  saving (w_state (saveDraft state opts e w)) = false.
Proof. save_cases state e w opts; repeat split; reflexivity. Qed.

(** What the save routine does to the storage: it writes the draft of the
    render it belongs to, unless the conversion or the write throws. *)
Lemma saveDraft_storage (state : WizardState) (opts : option reason) (e : env) (w : world) :
  w_storage (saveDraft state opts e w) =
    match stringify_state (w_heap w) state, quota_error e with
    | Some doc, None => Some doc
    | _, _ => w_storage w
    end /\
  w_effects (saveDraft state opts e w) =
    match stringify_state (w_heap w) state, quota_error e with
    | Some doc, None =>
      w_effects w ++ [SetItem doc; RemoteSave (currentIndex state) (data state)]
    | _, _ => w_effects w
    end.
Proof.
  save_cases state e w opts; rewrite <- ?app_assoc; split; reflexivity.
Qed.

(** What the save routine does to [dirty]: a manual save and a save that
    goes through clear it, a failed autosave leaves it. *)
Lemma saveDraft_dirty (state : WizardState) (opts : option reason) (e : env) (w : world) :
  dirty (w_state (saveDraft state opts e w)) =
    if bool_decide (opts = Some manual) || save_succeeds (w_heap w) state e
    then false else dirty (w_state w).
Proof.
  unfold save_succeeds. save_cases state e w opts; reflexivity.
Qed.

Lemma network_error_truthy : truthy (VStr (js "ネットワークエラー")) = true.
Proof. vm_compute. reflexivity. Qed.

Lemma saveDraft_remote_failure (state : WizardState) (opts : option reason) (e : env)
    (w : world) (doc : document) :
  stringify_state (w_heap w) state = Some doc ->
  quota_error e = None ->
  random_below e = true ->
  error (w_state (saveDraft state opts e w)) = Some (js "ネットワークエラー").
Proof.
  intros Hdoc Hq Hr. unfold_save. rewrite Hdoc, Hq, Hr. simpl_save.
  rewrite network_error_truthy. destruct opts as [[|]|]; reflexivity.
Qed.

Lemma saveDraft_error (state : WizardState) (opts : option reason) (e : env) (w : world) :
  error (w_state (saveDraft state opts e w)) =
    match local_failure (w_heap w) state e with
    | Some m => Some (shown_message m)
    | None => if random_below e then Some (js "ネットワークエラー") else None
    end.
Proof.
  unfold local_failure, shown_message. save_cases state e w opts;
    rewrite ?network_error_truthy; reflexivity.
Qed.

Lemma saveDraft_savedAt (state : WizardState) (opts : option reason) (e : env) (w : world) :
  savedAt (w_state (saveDraft state opts e w)) =
    if save_succeeds (w_heap w) state e then Some (now e) else savedAt (w_state w).
Proof. unfold save_succeeds. save_cases state e w opts; reflexivity. Qed.

(** C2: a manual save whose remote call fails ends with [dirty] and
    [saving] false, the failure message in [error], and the draft of the
    state it started from in the storage. *)
Theorem manual_save_remote_failure (e : env) (w : world) (doc : document) :
  dirty (w_state w) = true ->
  stringify_state (w_heap w) (w_state w) = Some doc ->
  quota_error e = None ->
  random_below e = true ->
  fakeSaveToServer (random_below e) = inl (js "ネットワークエラー") /\
  dirty (w_state (saveDraft (w_state w) (Some manual) e w)) = false /\
  error (w_state (saveDraft (w_state w) (Some manual) e w)) = Some (js "ネットワークエラー") /\
  saving (w_state (saveDraft (w_state w) (Some manual) e w)) = false /\
  w_storage (saveDraft (w_state w) (Some manual) e w) = Some doc /\
  w_effects (saveDraft (w_state w) (Some manual) e w) =
    w_effects w ++ [SetItem doc; RemoteSave (currentIndex (w_state w)) (data (w_state w))].
Proof.
  intros Hdirty Hdoc Hq Hr.
  split; [by rewrite Hr|].
  split; [by rewrite saveDraft_dirty|].
  split; [by eapply saveDraft_remote_failure|].
  split; [apply saveDraft_frame|].
  destruct (saveDraft_storage (w_state w) (Some manual) e w) as [Hs He].
  rewrite Hdoc, Hq in Hs, He. done.
Qed.

Lemma manual_save_remote_failure_witness :
  exists doc : document,
    dirty (w_state typed_world) = true /\
    stringify_state (w_heap typed_world) (w_state typed_world) = Some doc /\
    dirty (w_state (saveDraft (w_state typed_world) (Some manual) env_remote_fails
                      typed_world)) = false /\
    error (w_state (saveDraft (w_state typed_world) (Some manual) env_remote_fails
                      typed_world)) = Some (js "ネットワークエラー") /\
    w_storage (saveDraft (w_state typed_world) (Some manual) env_remote_fails typed_world)
    = Some doc.
Proof.
  eexists.
  assert (Hdirty : dirty (w_state typed_world) = true) by (vm_compute; reflexivity).
  split; [exact Hdirty|].
  split; [vm_compute; reflexivity|].
  pose proof (manual_save_remote_failure env_remote_fails typed_world _ Hdirty
                ltac:(vm_compute; reflexivity) eq_refl eq_refl)
    as (_ & Hd & He & _ & Hs & _).
  split; [exact Hd|]. split; [exact He|exact Hs].
Defined.

(** C1, as amended: a change always sets [dirty]; [dirty] goes from true to
    false only by [SET_SAVED_AT], by [SET_DIRTY false] or by a [HYDRATE]
    whose draft says so; and the save routine clears it when the save is
    manual or goes through, and leaves it after a failed autosave. *)
Theorem dirty_transitions :
  (forall now h s path v, dirty (reducer now h s (CHANGE path v)).2 = true) /\
  (forall now h s a,
     dirty s = true -> dirty (reducer now h s a).2 = false ->
     (exists t, a = SET_SAVED_AT t) \/ a = SET_DIRTY false \/
     (exists p, a = HYDRATE p /\ p_dirty p = Some false)) /\
  (forall state opts e w,
     dirty (w_state (saveDraft state opts e w)) =
       if bool_decide (opts = Some manual) || save_succeeds (w_heap w) state e
       then false else dirty (w_state w)).
Proof.
  split; [|split].
  - intros now h s path v. cbn [reducer]. by destruct (set h (data s) path v).
  - intros now h s a Hs Hs'. destruct a as [i|path v|b|t|b|m|p]; cbn [reducer] in Hs'.
    + cbn in Hs'. congruence.
    + destruct (set h (data s) path v). cbn in Hs'. discriminate.
    + cbn in Hs'. congruence.
    + left. by exists t.
    + right. left. cbn in Hs'. by subst.
    + cbn in Hs'. congruence.
    + right. right. exists p. split; [done|].
      destruct (or_empty_object h (default VUndef (p_data p))) as [h1 d].
      cbn [alloc snd dirty] in Hs'.
      destruct (p_dirty p) as [b|]; cbn in Hs'; congruence.
  - apply saveDraft_dirty.
Qed.

(** C1, the claim as stated fails: from the dirty state reached by typing
    into a field, an autosave that goes through clears [dirty], and so does
    a manual save whose remote call fails. *)
Lemma dirty_transitions_counterexample :
  dirty (w_state typed_world) = true /\
  (dirty ∘ w_state) <$> fire env_ok TimerFires typed_world = Some false /\
  (dirty ∘ w_state) <$> fire env_remote_fails ClickSave typed_world = Some false /\
  (error ∘ w_state) <$> fire env_remote_fails ClickSave typed_world
  = Some (Some (js "ネットワークエラー")).
Proof. split; [|split; [|split]]; vm_compute; reflexivity. Qed.

(** ** The component *)

Lemma default_Some {A : Type} (d : A) (o : option A) :
  match o with Some _ => true | None => false end = true -> o = Some (default d o).
Proof. by destruct o. Qed.

Lemma dispatch_heap (e : env) (a : Action) (w : world) :
  w_heap (dispatch e a w) = (reducer (now e) (w_heap w) (w_state w) a).1.
Proof. unfold dispatch. by destruct (reducer _ _ _ a). Qed.

Lemma dispatch_state (e : env) (a : Action) (w : world) :
  w_state (dispatch e a w) = (reducer (now e) (w_heap w) (w_state w) a).2.
Proof. unfold dispatch. by destruct (reducer _ _ _ a). Qed.

Lemma dispatch_outside (e : env) (a : Action) (w : world) :
  w_loaded (dispatch e a w) = w_loaded w /\ w_timer (dispatch e a w) = w_timer w /\
  w_storage (dispatch e a w) = w_storage w /\ w_effects (dispatch e a w) = w_effects w.
Proof. unfold dispatch. by destruct (reducer _ _ _ a). Qed.

Lemma reducer_index (now : jsstring) (h : heap) (s : WizardState) (a : Action) :
  currentIndex (reducer now h s a).2 =
    match a with
    | GOTO i => i
    | HYDRATE p => default (currentIndex s) (p_currentIndex p)
    | _ => currentIndex s
    end.
Proof.
  destruct a as [i|path v|b|t|b|m|p]; cbn [reducer]; try reflexivity.
  by destruct (or_empty_object h (default VUndef (p_data p))).
Qed.

Lemma step_at_valid (i : Z) (st : StepDefinition) : step_at i = Some st -> valid_index i.
Proof.
  unfold step_at, valid_index. destruct (Z.leb_spec 0 i) as [Hi|]; [|discriminate].
  intros Hst. apply lookup_lt_Some in Hst. lia.
Qed.

Lemma validateCurrent_valid_index (h : heap) (s : WizardState) (r : option jsstring) :
  validateCurrent h s = Some r -> valid_index (currentIndex s).
Proof.
  unfold validateCurrent. destruct (step_at (currentIndex s)) as [st|] eqn:Hst; [|discriminate].
  intros _. by eapply step_at_valid.
Qed.

(** Every message of [validateCurrent] is a non-empty string, so [if (err)]
    takes the error branch exactly when there is a message. *)
Lemma validateCurrent_truthy (h : heap) (s : WizardState) (m : jsstring) :
  validateCurrent h s = Some (Some m) -> truthy (VStr m) = true.
Proof.
  unfold validateCurrent. intros H.
  repeat match type of H with
         | mbind _ ?x = _ => destruct x; cbn [mbind option_bind] in H; [|discriminate H]
         | (if ?b then _ else _) = _ => destruct b
         | Some (Some _) = Some (Some _) => injection H as <-
         | Some None = Some (Some _) => discriminate H
         end;
    vm_compute; reflexivity.
Qed.

Lemma next_world (s : WizardState) (e : env) (w : world) :
  w_heap (next s e w) = w_heap w /\ w_storage (next s e w) = w_storage w /\
  w_effects (next s e w) = w_effects w /\ w_timer (next s e w) = w_timer w /\
  w_loaded (next s e w) = w_loaded w /\
  dirty (w_state (next s e w)) = dirty (w_state w) /\
  data (w_state (next s e w)) = data (w_state w) /\
  currentIndex (w_state (next s e w)) =
    if (currentIndex s <? Z.of_nat (length STEPS) - 1)%Z then (currentIndex s + 1)%Z
    else currentIndex (w_state w).
Proof.
  unfold next. destruct (currentIndex s <? Z.of_nat (length STEPS) - 1)%Z; [|done].
  rewrite dispatch_heap, dispatch_state.
  destruct (dispatch_outside e (GOTO (currentIndex s + 1)) w) as (-> & -> & -> & ->).
  done.
Qed.

Lemma prev_world (s : WizardState) (e : env) (w : world) :
  w_heap (prev s e w) = w_heap w /\ w_storage (prev s e w) = w_storage w /\
  w_effects (prev s e w) = w_effects w /\ w_timer (prev s e w) = w_timer w /\
  w_loaded (prev s e w) = w_loaded w /\
  dirty (w_state (prev s e w)) = dirty (w_state w) /\
  data (w_state (prev s e w)) = data (w_state w) /\
  currentIndex (w_state (prev s e w)) =
    if (currentIndex s >? 0)%Z then (currentIndex s - 1)%Z else currentIndex (w_state w).
Proof.
  unfold prev. destruct (currentIndex s >? 0)%Z; [|done].
  rewrite dispatch_heap, dispatch_state.
  destruct (dispatch_outside e (GOTO (currentIndex s - 1)) w) as (-> & -> & -> & ->).
  done.
Qed.

(** C7: save-and-continue validates first, in every state. When
    validation answers with a message, the handler only sets [error]:
    nothing is stored or sent and the rest of the state stays. When it
    answers [null], the handler runs a manual save: unless the conversion or
    the write throws, the draft of the state is written to the storage and
    handed to the remote stub, [savedAt] is set when the remote call goes
    through, and [dirty] and [saving] end false; then it moves one step
    forward, or stays on the last step, within the bounds of the step list.
    When validation throws, so does the handler, before it dispatches
    anything. *)
Theorem save_and_continue (e : env) (w : world) :
  match validateCurrent (w_heap w) (w_state w) with
  | None => handleSaveAndContinue (w_state w) e w = None
  | Some (Some m) =>
    exists w', handleSaveAndContinue (w_state w) e w = Some w' /\
      error (w_state w') = Some m /\
      currentIndex (w_state w') = currentIndex (w_state w) /\
      data (w_state w') = data (w_state w) /\
      dirty (w_state w') = dirty (w_state w) /\
      saving (w_state w') = saving (w_state w) /\
      savedAt (w_state w') = savedAt (w_state w) /\
      w_heap w' = w_heap w /\ w_storage w' = w_storage w /\ w_effects w' = w_effects w
  | Some None =>
    exists w', handleSaveAndContinue (w_state w) e w = Some w' /\
      match stringify_state (w_heap w) (w_state w), quota_error e with
      | Some doc, None =>
        w_storage w' = Some doc /\
        w_effects w' =
          w_effects w ++ [SetItem doc; RemoteSave (currentIndex (w_state w)) (data (w_state w))] /\
        d_currentIndex doc = currentIndex (w_state w) /\
        savedAt (w_state w') = (if random_below e then savedAt (w_state w) else Some (now e))
      | _, _ =>
        w_storage w' = w_storage w /\ w_effects w' = w_effects w /\
        savedAt (w_state w') = savedAt (w_state w)
      end /\
      dirty (w_state w') = false /\ saving (w_state w') = false /\
      data (w_state w') = data (w_state w) /\ w_heap w' = w_heap w /\
      currentIndex (w_state w') =
        (if (currentIndex (w_state w) <? Z.of_nat (length STEPS) - 1)%Z
         then (currentIndex (w_state w) + 1)%Z else currentIndex (w_state w)) /\
      (0 <= currentIndex (w_state w') <= Z.of_nat (length STEPS) - 1)%Z
  end.
Proof.
  unfold handleSaveAndContinue.
  destruct (validateCurrent (w_heap w) (w_state w)) as [[m|]|] eqn:Hv;
    cbn [mbind option_bind]; [| |done].
  - rewrite (validateCurrent_truthy _ _ _ Hv).
    eexists. split; [reflexivity|].
    rewrite dispatch_state, dispatch_heap.
    destruct (dispatch_outside e (SET_ERROR (Some m)) w) as (_ & _ & -> & ->).
    done.
  - eexists. split; [reflexivity|].
    set (w1 := saveDraft (w_state w) (Some manual) e w).
    destruct (next_world (w_state w) e w1) as (-> & -> & -> & _ & _ & -> & -> & ->).
    assert (Hsaved : savedAt (w_state (next (w_state w) e w1)) = savedAt (w_state w1)).
    { unfold next. destruct (_ <? _)%Z; [|done]. by rewrite dispatch_state. }
    assert (Hsaving : saving (w_state (next (w_state w) e w1)) = saving (w_state w1)).
    { unfold next. destruct (_ <? _)%Z; [|done]. by rewrite dispatch_state. }
    rewrite Hsaved, Hsaving. subst w1.
    destruct (saveDraft_frame (w_state w) (Some manual) e w) as (-> & -> & -> & _ & _ & ->).
    destruct (saveDraft_storage (w_state w) (Some manual) e w) as [-> ->].
    rewrite saveDraft_savedAt, saveDraft_dirty.
    pose proof (validateCurrent_valid_index _ _ _ Hv) as Hi. unfold valid_index in Hi.
    split.
    { unfold save_succeeds.
      destruct (stringify_state (w_heap w) (w_state w)) as [doc|] eqn:Hdoc; [|done].
      destruct (quota_error e); [done|].
      apply stringify_state_fields in Hdoc as (Hidx & _).
      cbn [andb bool_decide]. rewrite bool_decide_eq_true_2 by by eexists.
      cbn [andb]. by destruct (random_below e). }
    rewrite bool_decide_eq_true_2 by done. cbn [orb].
    do 5 (split; [done|]).
    destruct (Z.ltb_spec (currentIndex (w_state w)) (Z.of_nat (length STEPS) - 1)); lia.
Qed.

Lemma save_and_continue_witness :
  (validateCurrent (w_heap ready_world) (w_state ready_world) = Some None /\
   currentIndex (w_state ready_world) = 0%Z /\ dirty (w_state ready_world) = true /\
   exists w' doc,
     handleSaveAndContinue (w_state ready_world) env_ok ready_world = Some w' /\
     stringify_state (w_heap ready_world) (w_state ready_world) = Some doc /\
     w_storage w' = Some doc /\
     w_effects w' = [SetItem doc; RemoteSave 0 (data (w_state ready_world))] /\
     savedAt (w_state w') = Some (now env_ok) /\
     dirty (w_state w') = false /\ currentIndex (w_state w') = 1%Z) /\
  (validateCurrent (w_heap typed_world) (w_state typed_world)
   = Some (Some (js "メールアドレスは必須です")) /\
   exists w', handleSaveAndContinue (w_state typed_world) env_ok typed_world = Some w' /\
     error (w_state w') = Some (js "メールアドレスは必須です") /\
     currentIndex (w_state w') = currentIndex (w_state typed_world) /\
     w_storage w' = w_storage typed_world /\ w_effects w' = w_effects typed_world).
Proof.
  split.
  - assert (Hok : validateCurrent (w_heap ready_world) (w_state ready_world) = Some None)
      by (vm_compute; reflexivity).
    assert (Hdoc : stringify_state (w_heap ready_world) (w_state ready_world)
                   = Some (default {| d_currentIndex := 0; d_savedAt := None; d_dirty := false;
                                      d_saving := false; d_error := None; d_data := None |}
                             (stringify_state (w_heap ready_world) (w_state ready_world))))
      by (apply default_Some; vm_compute; reflexivity).
    assert (Hi : currentIndex (w_state ready_world) = 0%Z) by (vm_compute; reflexivity).
    assert (He : w_effects ready_world = []) by (vm_compute; reflexivity).
    split; [exact Hok|]. split; [exact Hi|]. split; [vm_compute; reflexivity|].
    pose proof (save_and_continue env_ok ready_world) as H.
    rewrite Hok, Hdoc in H. cbn [quota_error env_ok random_below] in H.
    destruct H as (w' & Hw' & (Hs & Hf & _ & Ht) & Hd & _ & _ & _ & Hn & _).
    exists w'. eexists. split; [exact Hw'|]. split; [exact Hdoc|]. split; [exact Hs|].
    split; [by rewrite Hf, He, Hi|]. split; [exact Ht|]. split; [exact Hd|].
    by rewrite Hn, Hi.
  - assert (Hm : validateCurrent (w_heap typed_world) (w_state typed_world)
                 = Some (Some (js "メールアドレスは必須です"))) by (vm_compute; reflexivity).
    split; [exact Hm|].
    pose proof (save_and_continue env_ok typed_world) as H. rewrite Hm in H.
    destruct H as (w' & Hw' & He & Hi & _ & _ & _ & _ & _ & Hs & Hf).
    exists w'. repeat (split; [assumption|]). assumption.
Defined.

(** ** The index stays within the step list *)

Lemma dispatch_ok (e : env) (a : Action) (w : world) :
  world_ok w ->
  valid_index (currentIndex (reducer (now e) (w_heap w) (w_state w) a).2) ->
  world_ok (dispatch e a w).
Proof.
  intros (_ & Ht & Hs) Hi. unfold world_ok. rewrite dispatch_state.
  destruct (dispatch_outside e a w) as (_ & -> & -> & _). done.
Qed.

Lemma saveDraft_ok (c : WizardState) (opts : option reason) (e : env) (w : world) :
  world_ok w -> valid_index (currentIndex c) -> world_ok (saveDraft c opts e w).
Proof.
  intros (Hi & Ht & Hs) Hc. unfold world_ok.
  destruct (saveDraft_frame c opts e w) as (_ & -> & _ & _ & -> & _).
  destruct (saveDraft_storage c opts e w) as [-> _].
  split; [done|]. split; [done|].
  destruct (stringify_state (w_heap w) c) as [doc|] eqn:Hdoc; [|done].
  destruct (quota_error e); [done|].
  intros doc' [= <-]. apply stringify_state_fields in Hdoc as (-> & _). done.
Qed.

Lemma next_ok (s : WizardState) (e : env) (w : world) :
  world_ok w -> valid_index (currentIndex s) -> world_ok (next s e w).
Proof.
  intros (Hi & Ht & Hs) Hv. unfold world_ok.
  destruct (next_world s e w) as (_ & -> & _ & -> & _ & _ & _ & ->).
  split; [|done]. unfold valid_index in *.
  destruct (Z.ltb_spec (currentIndex s) (Z.of_nat (length STEPS) - 1)); lia.
Qed.

Lemma prev_ok (s : WizardState) (e : env) (w : world) :
  world_ok w -> valid_index (currentIndex s) -> world_ok (prev s e w).
Proof.
  intros (Hi & Ht & Hs) Hv. unfold world_ok.
  destruct (prev_world s e w) as (_ & -> & _ & -> & _ & _ & _ & ->).
  split; [|done]. unfold valid_index in *.
  destruct (Z.gtb_spec (currentIndex s) 0); lia.
Qed.

Lemma parse_document_index (doc : document) (h : heap) :
  p_currentIndex (parse_document doc h).2 = Some (d_currentIndex doc) /\
  p_dirty (parse_document doc h).2 = Some (d_dirty doc) /\
  p_saving (parse_document doc h).2 = Some (d_saving doc) /\
  p_error (parse_document doc h).2 = Some (d_error doc).
Proof.
  unfold parse_document. destruct (d_data doc) as [j|]; [destruct (parse j h)|]; done.
Qed.

Lemma world_ok_ext (w w' : world) :
  w_state w' = w_state w -> w_timer w' = w_timer w -> w_storage w' = w_storage w ->
  world_ok w -> world_ok w'.
Proof. unfold world_ok. by intros -> -> ->. Qed.

Lemma loadDraft_ok (e : env) (w : world) : world_ok w -> world_ok (loadDraft e w).
Proof.
  intros Hw. unfold loadDraft.
  destruct (w_storage w) as [raw|] eqn:Hraw.
  - destruct (parse_document raw (w_heap w)) as [h parsed] eqn:Hparse.
    eapply world_ok_ext; [reflexivity..|].
    apply dispatch_ok.
    + eapply world_ok_ext; [| | |exact Hw]; done.
    + rewrite reducer_index.
      pose proof (parse_document_index raw (w_heap w)) as (Hp & _).
      rewrite Hparse in Hp. cbn [snd] in Hp. rewrite Hp. cbn [default].
      destruct Hw as (_ & _ & Hs). by apply Hs.
  - eapply world_ok_ext; [| | |exact Hw]; done.
Qed.

Lemma reload_ok (w : world) : world_ok w -> world_ok (reload w).
Proof.
  intros (_ & _ & Hs). unfold world_ok, reload. cbn.
  split; [unfold valid_index; cbn; lia|]. split; [done|done].
Qed.

Lemma handle_ok (e : env) (ev : event) (w w' : world) :
  world_ok w -> handle e ev w = Some w' -> world_ok w'.
Proof.
  intros Hw. pose proof Hw as (Hi & Ht & Hs).
  destruct ev as [|i| |path v| | | | |]; cbn [handle].
  - destruct (w_loaded w); [discriminate|]. intros [= <-]. by apply loadDraft_ok.
  - case_bool_decide as Hlt; [|discriminate]. intros [= <-].
    apply dispatch_ok; [done|]. rewrite reducer_index. unfold valid_index. lia.
  - destruct (_ =? 0)%Z; [discriminate|]. intros [= <-]. by apply prev_ok.
  - destruct v; try discriminate; intros [= <-]; unfold onChange;
      (apply dispatch_ok; [done|]); by rewrite reducer_index.
  - destruct (saving _); [discriminate|]. intros [= <-]. by apply saveDraft_ok.
  - unfold handleSaveAndContinue.
    destruct (validateCurrent _ _) as [[m|]|]; cbn [mbind option_bind]; [| |discriminate].
    + destruct (truthy (VStr m)); intros [= <-].
      * apply dispatch_ok; [done|]. by rewrite reducer_index.
      * apply next_ok; [|done]. by apply saveDraft_ok.
    + intros [= <-]. apply next_ok; [|done]. by apply saveDraft_ok.
  - destruct (w_timer w) as [c|] eqn:Hc; [|discriminate]. intros [= <-].
    destruct (Ht c eq_refl) as [Hvc _]. apply saveDraft_ok; [|done].
    split; [done|]. split; [done|done].
  - intros [= <-]. unfold resetAll. apply reload_ok.
    split; [done|]. split; [done|]. done.
  - intros [= <-]. by apply reload_ok.
Qed.

Lemma autoSaveEffect_ok (before after : world) :
  world_ok after -> world_ok (autoSaveEffect before after).
Proof.
  intros Hw. pose proof Hw as (Hi & Ht & Hs). unfold autoSaveEffect.
  case_bool_decide; [done|].
  destruct (w_loaded after); [|done]. cbn [negb].
  destruct (dirty (w_state after)) eqn:Hd; [|done]. cbn [negb].
  split; [done|]. split; [|done].
  intros c [= <-]. done.
Qed.

(** ** What is stored, and what loading it gives *)

Lemma hydrate_dirty (now : jsstring) (doc : document) (h : heap) (s : WizardState) :
  dirty (reducer now (parse_document doc h).1 s (HYDRATE (parse_document doc h).2)).2
  = d_dirty doc.
Proof.
  pose proof (parse_document_index doc h) as (_ & Hd & _).
  destruct (parse_document doc h) as [h1 p]. cbn [fst snd] in *. cbn [reducer].
  destruct (or_empty_object h1 (default VUndef (p_data p))) as [h2 d].
  cbn [alloc snd dirty]. by rewrite Hd.
Qed.

(** C10: an autosave does not store the state as it is when the save
    begins. The user types into the e-mail input, which arms the timer, and
    then clicks on the third step, or on "save and continue", which is
    refused: the autosave that fires next stores the index and the [error]
    of the render that armed the timer, not those of the state it starts
    from. A manual save from the same page stores the state it starts
    from. And a timer armed by typing while a manual save was under way
    stores [saving] and [dirty] as true after that save has ended and
    cleared both. *)
Lemma autosave_stores_stale_state :
  (currentIndex (w_state moved_world) = 2%Z /\
   w_timer moved_world = Some (w_state typed_world) /\
   (w' ← fire env_ok TimerFires moved_world; doc ← w_storage w'; Some (d_currentIndex doc))
   = Some 0%Z /\
   (w' ← fire env_ok TimerFires moved_world; list.last (w_effects w'))
   = Some (RemoteSave 0 (data (w_state typed_world))) /\
   (w' ← fire env_ok ClickSave moved_world; doc ← w_storage w'; Some (d_currentIndex doc))
   = Some 2%Z) /\
  (error (w_state refused_world) = Some (js "メールアドレスは必須です") /\
   dirty (w_state refused_world) = true /\
   (w' ← fire env_ok TimerFires refused_world; doc ← w_storage w'; Some (d_error doc))
   = Some None /\
   (w' ← fire env_ok TimerFires refused_world; doc ← w_storage w'; Some (d_dirty doc))
   = Some true /\
   (w' ← fire env_ok ClickSave refused_world; doc ← w_storage w'; Some (d_error doc))
   = Some (Some (js "メールアドレスは必須です"))) /\
  (saving (w_state (pg_world returned_page)) = false /\
   dirty (w_state (pg_world returned_page)) = false /\
   pg_saves returned_page = [] /\
   (p' ← page_fire env_ok (Page TimerFires) returned_page; doc ← w_storage (pg_world p');
    Some (d_saving doc, d_dirty doc, d_currentIndex doc)) = Some (true, true, 0%Z)).
Proof.
  split; [|split].
  - split; [|split; [|split; [|split]]]; vm_compute; reflexivity.
  - split; [|split; [|split; [|split]]]; vm_compute; reflexivity.
  - split; [|split; [|split]]; vm_compute; reflexivity.
Qed.

(** ** The stored draft read back *)

Lemma stringify_ref (n : nat) (h : heap) (l : loc) :
  stringify (S n) h (VRef l) =
    ms ← mapM (stringify_member n h) (map_to_list (fields h l));
    Some (Some (JObj (omap defined_member ms))).
Proof. reflexivity. Qed.

Lemma stringify_undefined (n : nat) (h : heap) (x : value) :
  stringify n h x = Some None -> x = VUndef.
Proof.
  intros H. destruct n, x; try discriminate H; try done.
  rewrite stringify_ref in H. destruct (mapM _ _); discriminate H.
Qed.

Lemma parse_object (members : list (jsstring * json)) (h : heap) :
  parse (JObj members) h =
    ((parse_members parse members h ∅).1 ++ [(parse_members parse members h ∅).2],
     VRef (length (parse_members parse members h ∅).1)).
Proof. cbn [parse]. by destruct (parse_members parse members h ∅). Qed.

Lemma parse_members_cons (k : jsstring) (j : json) (ms : list (jsstring * json))
    (h : heap) (o : obj) :
  parse_members parse ((k, j) :: ms) h o =
    parse_members parse ms (parse j h).1 (<[k := (parse j h).2]> o).
Proof. cbn [parse_members]. by destruct (parse j h). Qed.

Lemma get_path_undefined (h1 h : heap) (q : list jsstring) :
  get_path h1 VUndef q = get_path h VUndef q.
Proof. by destruct q. Qed.

Lemma get_path_prim (q : list jsstring) : forall (h1 h : heap) (x : value),
  match x with VRef _ => False | _ => True end ->
  get_path h1 x q = get_path h x q.
Proof.
  induction q as [|k q IH]; intros h1 h x Hx; [done|].
  destruct x; try done; cbn [get_path get_prop].
  - by apply IH.
  - by apply IH.
  - case_decide; [by apply IH|].
    cbn [spread]. destruct (_ !! k) as [y|] eqn:Hy; cbn [default]; [|by apply IH].
    apply (spread_string_prim h) in Hy as [c ->]. by apply IH.
Qed.

(** The members of an object parsed one after the other. *)
Lemma parse_members_copy (h : heap) (n : nat)
    (IH : forall x j h0, stringify n h x = Some (Some j) -> heap_closed h0 ->
            parsed_copy h x h0 (parse j h0).1 (parse j h0).2) :
  forall (kvs : list (jsstring * value)) (ms : list (jsstring * option json)),
  Forall2 (fun kv kj => stringify_member n h kv = Some kj) kvs ms ->
  NoDup kvs.*1 ->
  forall (h0 : heap) (o0 : obj),
  heap_closed h0 -> obj_in (length h0) o0 ->
  heap_closed (parse_members parse (omap defined_member ms) h0 o0).1 /\
  length h0 <= length (parse_members parse (omap defined_member ms) h0 o0).1 /\
  (forall l, l < length h0 ->
     (parse_members parse (omap defined_member ms) h0 o0).1 !! l = h0 !! l) /\
  obj_in (length (parse_members parse (omap defined_member ms) h0 o0).1)
         (parse_members parse (omap defined_member ms) h0 o0).2 /\
  (forall k, k ∉ kvs.*1 ->
     (parse_members parse (omap defined_member ms) h0 o0).2 !! k = o0 !! k) /\
  (forall k v, (k, v) ∈ kvs ->
     if decide (v = VUndef)
     then (parse_members parse (omap defined_member ms) h0 o0).2 !! k = o0 !! k
     else exists y,
       (parse_members parse (omap defined_member ms) h0 o0).2 !! k = Some y /\
       same_fields (parse_members parse (omap defined_member ms) h0 o0).1 y h v).
Proof.
  induction 1 as [|[k v] [k' jo] kvs ms Hhead _ IHl]; intros Hnd h0 o0 Hh0 Ho0.
  - cbn. repeat split; try done.
    + intros k v Hin. by apply elem_of_nil in Hin.
  - unfold stringify_member in Hhead. cbn [fst snd] in Hhead.
    destruct (stringify n h v) as [jo'|] eqn:Hv; [|discriminate].
    cbn in Hhead. injection Hhead as <- <-.
    cbn [fmap list_fmap fst] in Hnd. apply list.NoDup_cons in Hnd as [Hk Hnd].
    destruct jo' as [j|].
    + (* a member that is written and parsed back *)
      cbn [omap list_omap defined_member mbind option_bind fst snd].
      rewrite parse_members_cons.
      destruct (IH v j h0 Hv Hh0) as (Hh1 & Hlen1 & Hext1 & Hy & Hsame & _).
      set (h1 := (parse j h0).1) in *. set (y := (parse j h0).2) in *.
      assert (Ho1 : obj_in (length h1) (<[k := y]> o0)).
      { apply obj_in_insert; [|done]. eapply obj_in_mono; eauto. }
      destruct (IHl Hnd h1 (<[k := y]> o0) Hh1 Ho1)
        as (Hh' & Hlen' & Hext' & Ho' & Hout & Hin).
      set (r := parse_members parse (omap defined_member ms) h1 (<[k := y]> o0)) in *.
      split; [done|]. split; [lia|].
      split; [intros l Hl; rewrite Hext' by lia; by apply Hext1|].
      split; [done|]. split.
      * intros k0 Hk0. apply not_elem_of_cons in Hk0 as [Hne Hk0].
        rewrite Hout by done. by rewrite lookup_insert_ne.
      * intros k0 v0 Hin0. apply elem_of_cons in Hin0 as [[= -> ->]|Hin0].
        -- rewrite decide_False by (intros ->; destruct n; discriminate).
           exists y. split; [rewrite Hout by done; by rewrite lookup_insert_eq|].
           intros q. rewrite <- Hsame. f_equal.
           by apply get_path_stable.
        -- specialize (Hin k0 v0 Hin0).
           assert (Hne : k <> k0).
           { intros ->. apply Hk. apply list_elem_of_fmap. by exists (k0, v0). }
           destruct (decide (v0 = VUndef)); [|done].
           by rewrite Hin, lookup_insert_ne.
    + (* a member that is [undefined] and left out *)
      apply stringify_undefined in Hv as ->.
      cbn [omap list_omap defined_member mbind option_bind fst snd].
      destruct (IHl Hnd h0 o0 Hh0 Ho0) as (Hh' & Hlen' & Hext' & Ho' & Hout & Hin).
      repeat (split; [done|]). split.
      * intros k0 Hk0. apply not_elem_of_cons in Hk0 as [_ Hk0]. by apply Hout.
      * intros k0 v0 Hin0. apply elem_of_cons in Hin0 as [[= -> ->]|Hin0].
        -- rewrite decide_True by done. by apply Hout.
        -- by apply Hin.
Qed.

Lemma parsed_copy_prim (h : heap) (x : value) (h0 : heap) :
  heap_closed h0 -> match x with VRef _ => False | _ => True end ->
  parsed_copy h x h0 h0 x.
Proof.
  intros Hh0 Hx. split; [done|]. split; [done|]. split; [done|].
  split; [by destruct x|]. split.
  - intros q. f_equal. by apply get_path_prim.
  - intros lx ->. done.
Qed.

(** What [JSON.parse] builds from the text of a value is a faithful copy of
    that value. *)
Lemma parse_stringify (n : nat) : forall (h : heap) (x : value) (j : json) (h0 : heap),
  stringify n h x = Some (Some j) -> heap_closed h0 ->
  parsed_copy h x h0 (parse j h0).1 (parse j h0).2.
Proof.
  induction n as [|n IH]; intros h x j h0 Hj Hh0.
  - destruct x; try discriminate Hj; injection Hj as <-; by apply parsed_copy_prim.
  - destruct x as [| | | | |l]; try discriminate Hj;
      try (injection Hj as <-; by apply parsed_copy_prim).
    rewrite stringify_ref in Hj.
    destruct (mapM _ _) as [ms|] eqn:Hms; [|discriminate Hj].
    cbn in Hj. injection Hj as <-.
    apply mapM_Some_1 in Hms.
    pose proof (NoDup_fst_map_to_list (fields h l)) as Hnd.
    destruct (parse_members_copy h n (IH h) _ _ Hms Hnd h0 ∅ Hh0 (obj_in_empty _))
      as (Hh1 & Hlen & Hext & Ho & Hout & Hin).
    rewrite parse_object. cbn [fst snd].
    set (h1 := (parse_members parse (omap defined_member ms) h0 ∅).1) in *.
    set (o := (parse_members parse (omap defined_member ms) h0 ∅).2) in *.
    assert (Hkey : forall k,
      match fields h l !! k with
      | Some v =>
        if decide (v = VUndef) then o !! k = None
        else exists y, o !! k = Some y /\ same_fields h1 y h v
      | None => o !! k = None
      end).
    { intros k. destruct (fields h l !! k) as [v|] eqn:Hk.
      - apply elem_of_map_to_list in Hk. specialize (Hin k v Hk).
        destruct (decide (v = VUndef)); [|done]. by rewrite Hin.
      - rewrite Hout; [done|]. intros Hk'.
        apply list_elem_of_fmap in Hk' as ([k' v] & -> & Hk').
        apply elem_of_map_to_list in Hk'. cbn in Hk. congruence. }
    split; [by apply heap_closed_alloc|].
    split; [rewrite length_alloc; lia|].
    split; [intros l0 Hl0; rewrite lookup_alloc_old by lia; by apply Hext|].
    split; [rewrite length_alloc; simpl; lia|].
    split.
    + intros [|k q]; [done|].
      rewrite !get_path_ref_cons. unfold get. rewrite fields_alloc_new.
      specialize (Hkey k). destruct (fields h l !! k) as [v|]; cbn [default].
      * destruct (decide (v = VUndef)) as [->|Hv].
        -- rewrite Hkey. cbn [default]. f_equal. apply get_path_undefined.
        -- destruct Hkey as (y & Hy & Hsame). rewrite Hy. cbn [default].
           rewrite <- Hsame. f_equal.
           apply get_path_stable; [done| |].
           ++ intros l0 Hl0. by apply lookup_alloc_old.
           ++ eapply Ho. exact Hy.
      * rewrite Hkey. cbn [default]. f_equal. apply get_path_undefined.
    + intros lx [= <-]. exists (length h1). split; [done|]. split; [done|].
      intros k. rewrite fields_alloc_new. unfold get.
      specialize (Hkey k). destruct (fields h l !! k) as [v|]; cbn [default].
      * destruct (decide (v = VUndef)) as [->|Hv]; [done|].
        destruct Hkey as (y & -> & _). split; [discriminate|done].
      * done.
Qed.

Lemma stringify_state_data (h : heap) (s : WizardState) (d : loc) (doc : document) :
  data s = VRef d -> stringify_state h s = Some doc ->
  exists j, d_data doc = Some j /\ stringify (S (length h)) h (VRef d) = Some (Some j).
Proof.
  intros Hd. unfold stringify_state. rewrite Hd.
  destruct (stringify _ h (VRef d)) as [dj|] eqn:Hj; [|discriminate].
  cbn. intros [= <-]. cbn [d_data].
  rewrite stringify_ref in Hj. destruct (mapM _ _) as [ms|]; [|discriminate Hj].
  cbn in Hj. injection Hj as <-. by eexists.
Qed.

Lemma reducer_hydrate_ref (now : jsstring) (h : heap) (t : WizardState)
    (p : PartialState) (l : loc) :
  p_data p = Some (VRef l) ->
  reducer now h t (HYDRATE p) =
    (h ++ [fields h l ∪ spread h (data t)],
     {| currentIndex := default (currentIndex t) (p_currentIndex p);
        savedAt := from_option Some (savedAt t) (p_savedAt p);
        dirty := default (dirty t) (p_dirty p);
        saving := default (saving t) (p_saving p);
        error := default (error t) (p_error p);
        data := VRef (length h) |}).
Proof. intros Hp. cbn [reducer]. rewrite Hp. reflexivity. Qed.

(** C5: a draft stored from [s] and loaded into any state [t] gives back
    every field of the data of [s], read for read; what the data of [s]
    does not hold keeps the value it had in [t], the same reference; and
    when [t] holds nothing that [s] lacks, as the defaults do, the data
    after loading reads exactly as the data of [s]. Nothing of the old
    heap is modified. *)
Theorem hydrate_round_trip (now : jsstring) (h : heap) (s : WizardState) (d : loc)
    (doc : document) (h0 : heap) (t : WizardState) (dt : loc) :
  data s = VRef d ->
  stringify_state h s = Some doc ->
  heap_closed h0 ->
  data t = VRef dt ->
  dt < length h0 ->
  let '(h1, p) := parse_document doc h0 in
  let '(h2, t') := reducer now h1 t (HYDRATE p) in
  (forall k q, get h d k <> VUndef ->
     observe (get_path h2 (data t') (k :: q)) = observe (get_path h (data s) (k :: q))) /\
  (forall k q, get h d k = VUndef ->
     get_path h2 (data t') (k :: q) = get_path h0 (data t) (k :: q)) /\
  ((forall k, get h0 dt k <> VUndef -> get h d k <> VUndef) ->
   same_fields h2 (data t') h (data s)) /\
  (forall l, l < length h0 -> h2 !! l = h0 !! l).
Proof.
  intros Hd Hdoc Hh0 Hdt Hlt.
  destruct (stringify_state_data h s d doc Hd Hdoc) as (j & Hj & Hstr).
  unfold parse_document. rewrite Hj.
  pose proof (parse_stringify _ h (VRef d) j h0 Hstr Hh0)
    as (Hh1 & Hlen & Hext & Hy & Hsame & Hkeys).
  destruct (Hkeys d eq_refl) as (ly & Hly & Hnew & Hkey). clear Hkeys.
  destruct (parse j h0) as [h1 y]. cbn [fst snd] in *. subst y.
  erewrite reducer_hydrate_ref by reflexivity. cbn [data].
  rewrite Hdt. cbn [spread].
  assert (Hot : fields h1 dt = fields h0 dt) by (unfold fields; by rewrite Hext).
  rewrite Hot.
  set (m := fields h1 ly ∪ fields h0 dt).
  assert (Hext2 : forall l, l < length h1 -> (h1 ++ [m]) !! l = h1 !! l)
    by (intros l Hl; by apply lookup_alloc_old).
  assert (Hhit : forall k q, get h d k <> VUndef ->
            observe (get_path (h1 ++ [m]) (VRef (length h1)) (k :: q))
            = observe (get_path h (VRef d) (k :: q))).
  { intros k q Hk. rewrite <- Hsame.
    rewrite !get_path_ref_cons. unfold get at 1. rewrite fields_alloc_new.
    destruct (fields h1 ly !! k) as [v|] eqn:Hv; [|by apply Hkey in Hv].
    unfold m. rewrite (lookup_union_Some_l _ _ _ _ Hv). unfold get. rewrite Hv.
    cbn [default]. f_equal. apply get_path_stable; [done|done|].
    eapply fields_closed; eauto. }
  assert (Hmiss : forall k q, get h d k = VUndef ->
            get_path (h1 ++ [m]) (VRef (length h1)) (k :: q)
            = get_path h0 (VRef dt) (k :: q)).
  { intros k q Hk. apply Hkey in Hk.
    rewrite !get_path_ref_cons. unfold get at 1. rewrite fields_alloc_new.
    unfold m. rewrite lookup_union_r by done. fold (get h0 dt k).
    apply get_path_stable; [done| |by apply get_closed].
    intros l Hl. rewrite Hext2 by lia. by apply Hext. }
  rewrite Hd. split; [exact Hhit|]. split; [exact Hmiss|]. split.
  - intros Hsub [|k q]; [done|].
    destruct (decide (get h d k = VUndef)) as [Hk|Hk]; [|by apply Hhit].
    rewrite (Hmiss k q Hk). rewrite !get_path_ref_cons. rewrite Hk.
    destruct (decide (get h0 dt k = VUndef)) as [->|Hk0]; [|by apply Hsub in Hk0].
    f_equal. apply get_path_undefined.
  - intros l Hl. rewrite Hext2 by lia. by apply Hext.
Qed.

Lemma hydrate_round_trip_witness :
  exists doc : document,
    data (w_state typed_world) = VRef 6 /\
    stringify_state (w_heap typed_world) (w_state typed_world) = Some doc /\
    heap_closed initialHeap /\
    data initialState = VRef 5 /\
    5 < length initialHeap /\
    let '(h1, p) := parse_document doc initialHeap in
    let '(h2, t') := reducer [] h1 initialState (HYDRATE p) in
    observe (get_path h2 (data t') [js "data"; js "account"; js "email"])
    = Some (VStr (js "a@b.com")) /\
    get_path h2 (data t') [js "unknown"] = Some VUndef.
Proof.
  eexists.
  assert (Hd : data (w_state typed_world) = VRef 6) by (vm_compute; reflexivity).
  assert (H5 : 5 < length initialHeap) by (vm_compute; lia).
  split; [exact Hd|]. split; [vm_compute; reflexivity|].
  split; [exact initialHeap_closed|]. split; [reflexivity|]. split; [exact H5|].
  pose proof (hydrate_round_trip [] (w_heap typed_world) (w_state typed_world) 6 _
                initialHeap initialState 5 Hd ltac:(vm_compute; reflexivity)
                initialHeap_closed eq_refl H5) as H.
  destruct (parse_document _ initialHeap) as [h1 p].
  destruct (reducer [] h1 initialState (HYDRATE p)) as [h2 t'].
  destruct H as (Hhit & Hmiss & _). split.
  - rewrite Hhit; [vm_compute; reflexivity|]. vm_compute. discriminate.
  - rewrite Hmiss; vm_compute; reflexivity.
Defined.

(** ** Two consequences for the view *)

(** A key of the container other than the first key of the path reads in
    the result as it did before, whether the path is valid or not. *)
Lemma set_keys_sibling (h : heap) (d : loc) (k : jsstring) (ks : list jsstring)
    (k' : jsstring) (q : list jsstring) (v : value) :
  heap_closed h -> k' <> k ->
  get_path (set_keys h (VRef d) (k :: ks) v).1 (set_keys h (VRef d) (k :: ks) v).2 (k' :: q)
  = get_path h (VRef d) (k' :: q).
Proof.
  intros Hh Hne. unfold set_keys, alloc. cbn [fst snd spread].
  rewrite !get_path_ref_cons. unfold get at 1.
  rewrite set_loop_cur by (rewrite length_alloc; lia).
  rewrite fields_alloc_new.
  assert (Hread : forall x : value, <[k := x]> (fields h d) !! k' = fields h d !! k')
    by (intros x; by rewrite lookup_insert_ne).
  assert (Hsame : match ks with
                  | [] => <[k := v]> (fields h d)
                  | _ :: _ => <[k := VRef (length (h ++ [fields h d]))]> (fields h d)
                  end !! k' = fields h d !! k') by (destruct ks; apply Hread).
  rewrite Hsame. fold (get h d k').
  apply get_path_stable; [done| |by apply get_closed].
  apply set_loop_old; [|rewrite ?length_alloc; lia..].
  intros l Hl. by apply lookup_alloc_old.
Qed.

Lemma split_data_prefix (rest : jsstring) :
  split DOT (js "data." ++ rest) = js "data" :: split DOT rest.
Proof.
  change (js "data.") with [100; 97; 116; 97; 46]%N.
  change (js "data") with [100; 97; 116; 97]%N.
  cbn [app split N.eqb Pos.eqb DOT]. by destruct (split DOT rest).
Qed.

(** X1: every input of the view passes a path that starts with ["data."] to a
    reducer that already works inside [state.data] (lines 279-364 and 66):
    the value lands under a key [data] of the data, and every other key of
    the data, the five sections among them, reads as before. The field the
    input shows and validation checks is never changed. This holds for
    every rest of the path with no segment [__proto__], those of the ten
    controls among them. *)
Theorem view_paths_miss_the_sections (now : jsstring) (h : heap) (s : WizardState)
    (d : loc) (rest : jsstring) (v : value) :
  heap_closed h ->
  data s = VRef d ->
  plain_path (split DOT rest) ->
  let '(h', s') := reducer now h s (CHANGE (js "data." ++ rest) v) in
  get_path h' (data s') (js "data" :: split DOT rest) = Some v /\
  forall k q, k <> js "data" ->
    get_path h' (data s') (k :: q) = get_path h (data s) (k :: q).
Proof.
  intros Hh Hd _. cbn [reducer]. unfold set. rewrite split_data_prefix, Hd.
  assert (Hsib : forall k q, k <> js "data" ->
            get_path (set_keys h (VRef d) (js "data" :: split DOT rest) v).1
                     (set_keys h (VRef d) (js "data" :: split DOT rest) v).2 (k :: q)
            = get_path h (VRef d) (k :: q))
    by (intros k q Hk; by apply set_keys_sibling).
  destruct (set_keys h (VRef d) (js "data" :: split DOT rest) v) as [h' r] eqn:Hset.
  cbn [data fst snd] in *. split.
  - eapply set_keys_hit; [discriminate|eauto].
  - exact Hsib.
Qed.

Lemma view_paths_miss_the_sections_witness :
  heap_closed initialHeap /\ data initialState = VRef 5 /\
  (forall c : control, exists rest,
     control_path c = js "data." ++ rest /\ plain_path (split DOT rest)) /\
  let '(h', s') :=
    reducer [] initialHeap initialState
      (CHANGE (js "data." ++ js "account.email") (VStr (js "a@b.com"))) in
  get_path h' (data s') [js "data"; js "account"; js "email"] = Some (VStr (js "a@b.com")) /\
  get_path h' (data s') [js "account"; js "email"] = Some (VStr []).
Proof.
  assert (Hplain : forall rest,
            bool_decide (plain_path (split DOT rest)) = true -> plain_path (split DOT rest))
    by (intros rest; apply bool_decide_eq_true_1).
  split; [exact initialHeap_closed|]. split; [reflexivity|].
  split.
  { intros c.
    destruct c;
      [exists (js "account.email")|exists (js "account.password")|exists (js "company.nameJa")
      |exists (js "company.nameEn")|exists (js "company.address")|exists (js "members.ceo")
      |exists (js "members.directors")|exists (js "docs.hankoReady")|exists (js "docs.bankCert")
      |exists (js "review.agree")];
      (split; [vm_compute; reflexivity|]); apply Hplain; vm_compute; reflexivity. }
  pose proof (view_paths_miss_the_sections [] initialHeap initialState 5
                (js "account.email") (VStr (js "a@b.com")) initialHeap_closed eq_refl
                (Hplain (js "account.email") ltac:(vm_compute; reflexivity))) as H.
  destruct (reducer [] initialHeap initialState
              (CHANGE (js "data." ++ js "account.email") (VStr (js "a@b.com"))))
    as [h' s'].
  destruct H as [Hhit Hmiss]. split.
  - exact Hhit.
  - rewrite Hmiss; [vm_compute; reflexivity|]. vm_compute. discriminate.
Defined.

(** X2: save-and-continue on a step before the last ends with [error] cleared,
    also when the remote call of its save failed: [next] dispatches [GOTO],
    which resets [error], right after the save has set it. *)
Theorem save_and_continue_hides_failure (e : env) (w : world) :
  validateCurrent (w_heap w) (w_state w) = Some None ->
  (currentIndex (w_state w) < 4)%Z ->
  exists w', handleSaveAndContinue (w_state w) e w = Some w' /\
    error (w_state w') = None /\ dirty (w_state w') = false /\
    currentIndex (w_state w') = (currentIndex (w_state w) + 1)%Z.
Proof.
  intros Hok Hlt. unfold handleSaveAndContinue. rewrite Hok. cbn [mbind option_bind].
  eexists. split; [reflexivity|].
  assert (Hnext : (currentIndex (w_state w) <? Z.of_nat (length STEPS) - 1)%Z = true)
    by (apply Z.ltb_lt; exact Hlt).
  unfold next. rewrite Hnext. rewrite dispatch_state. cbn [reducer snd error dirty currentIndex].
  split; [reflexivity|]. split; [|reflexivity].
  by rewrite saveDraft_dirty.
Qed.

Lemma save_and_continue_hides_failure_witness :
  validateCurrent (w_heap ready_world) (w_state ready_world) = Some None /\
  (currentIndex (w_state ready_world) < 4)%Z /\
  random_below env_remote_fails = true /\
  exists w', handleSaveAndContinue (w_state ready_world) env_remote_fails ready_world
             = Some w' /\
    error (w_state w') = None /\ dirty (w_state w') = false.
Proof.
  assert (Hok : validateCurrent (w_heap ready_world) (w_state ready_world) = Some None)
    by (vm_compute; reflexivity).
  assert (Hlt : (currentIndex (w_state ready_world) < 4)%Z) by (vm_compute; reflexivity).
  split; [exact Hok|]. split; [exact Hlt|]. split; [reflexivity|].
  destruct (save_and_continue_hides_failure env_remote_fails ready_world Hok Hlt)
    as (w' & Hw' & He & Hd & _).
  exists w'. split; [exact Hw'|]. split; [exact He|exact Hd].
Defined.

(** * Further properties *)

(** ** How changes compose *)

Lemma reify_spread_prim (m : nat) (h : heap) (s : jsstring) :
  reify m h <$> spread h (VStr s) = TPrim <$> spread [] (VStr s).
Proof.
  apply map_eq. intros k. rewrite !lookup_fmap.
  change (spread [] (VStr s)) with (spread h (VStr s)).
  destruct (spread h (VStr s) !! k) as [y|] eqn:Hy; [|done].
  apply spread_string_prim in Hy as [c ->]. by destruct m.
Qed.

Lemma tspread_reify (m : nat) (h : heap) (x : value) :
  tspread (reify (S m) h x) = reify m h <$> spread h x.
Proof.
  destruct x; cbn [reify tspread spread]; rewrite ?fmap_empty; try done.
  symmetry. apply reify_spread_prim.
Qed.

Lemma reify_default (m : nat) (h : heap) (o : obj) (k : jsstring) :
  reify m h (default VUndef (o !! k)) = default (TPrim VUndef) ((reify m h <$> o) !! k).
Proof. rewrite lookup_fmap. destruct (o !! k); [done|]. by destruct m. Qed.

(** [tset] is [tree_set] on the unfolding of the container. *)
Lemma tset_tree (n : nat) : forall (h : heap) (src : value) (keys : list jsstring) (v : value),
  tset n h src keys v = tree_set n (reify n h src) keys (fun m => reify m h v).
Proof.
  induction n as [|m IH]; intros h src keys v; [done|].
  cbn [tset tree_set]. rewrite tspread_reify.
  destruct keys as [|k [|k2 ks]]; [done|done|].
  rewrite IH. by rewrite reify_default.
Qed.

Lemma tree_set_cons (m : nat) (t : tree) (k : jsstring) (ks : list jsstring)
    (vt : nat -> tree) :
  tree_set (S m) t (k :: ks) vt =
    TObj (<[k := match ks with
                 | [] => vt m
                 | _ => tree_set m (default (TPrim VUndef) (tspread t !! k)) ks vt
                 end]> (tspread t)).
Proof. by destruct ks. Qed.

Lemma tree_set_ext (n : nat) : forall (t : tree) (keys : list jsstring) (vt vt' : nat -> tree),
  (forall m, vt m = vt' m) -> tree_set n t keys vt = tree_set n t keys vt'.
Proof.
  induction n as [|m IH]; intros t keys vt vt' Hvt; [done|].
  destruct keys as [|k ks]; [cbn [tree_set]; by rewrite Hvt|].
  rewrite !tree_set_cons. destruct ks; [by rewrite Hvt|]. by rewrite (IH _ _ vt vt').
Qed.

(** Of two assignments to one path the later one wins. *)
Lemma tree_set_overwrite (n : nat) : forall (t : tree) (keys : list jsstring)
    (vt1 vt2 : nat -> tree),
  tree_set n (tree_set n t keys vt1) keys vt2 = tree_set n t keys vt2.
Proof.
  induction n as [|m IH]; intros t keys vt1 vt2; [done|].
  destruct keys as [|k ks].
  - cbn [tree_set tspread]. by rewrite insert_insert_eq.
  - rewrite !tree_set_cons. cbn [tspread].
    rewrite lookup_insert_eq, insert_insert_eq.
    destruct ks; cbn [default from_option id]; [done|]. by rewrite IH.
Qed.


Lemma split_length (sep : N) (s : jsstring) :
  length (split sep s) = S (length (filter (fun c => c = sep) s)).
Proof.
  induction s as [|c s IH]; [done|].
  cbn [split]. destruct (N.eqb_spec c sep) as [->|Hne].
  - rewrite filter_cons_True by done. cbn [length]. by rewrite IH.
  - rewrite filter_cons_False by done. rewrite <- IH.
    destruct (split sep s) eqn:Hs; [by apply split_nonempty in Hs|done].
Qed.

Lemma set_loop_length (keys : list jsstring) : forall (h : heap) cur v,
  length (set_loop h cur keys v) = length h + (length keys - 1).
Proof.
  induction keys as [|k ks IH]; intros h cur v.
  - cbn. rewrite length_write. lia.
  - destruct ks as [|k2 ks].
    + cbn. rewrite length_write. lia.
    + rewrite set_loop_cons, IH, length_write, length_alloc. cbn [length]. lia.
Qed.

Lemma data_of_change (now : jsstring) (h : heap) (s : WizardState) (path : jsstring) (v : value) :
  reducer now h s (CHANGE path v) =
    ((set_keys h (data s) (split DOT path) v).1,
     {| currentIndex := currentIndex s; savedAt := savedAt s; dirty := true;
        saving := saving s; error := error s;
        data := (set_keys h (data s) (split DOT path) v).2 |}).
Proof. cbn [reducer]. unfold set. by destruct (set_keys _ _ _ _). Qed.

Lemma set_keys_tree (h : heap) (o : value) (keys : list jsstring) (v : value) (n : nat) :
  heap_closed h -> val_in (length h) v ->
  reify n (set_keys h o keys v).1 (set_keys h o keys v).2
  = tree_set n (reify n h o) keys (fun m => reify m h v).
Proof.
  intros Hh Hv. rewrite <- tset_tree.
  apply set_keys_reify; [done|done|]. by destruct (set_keys h o keys v).
Qed.

Lemma set_keys_extends (h : heap) (o : value) (keys : list jsstring) (v : value) :
  heap_closed h -> val_in (length h) v ->
  heap_closed (set_keys h o keys v).1 /\
  length h < length (set_keys h o keys v).1 /\
  (forall l, l < length h -> (set_keys h o keys v).1 !! l = h !! l).
Proof.
  intros Hh Hv. destruct (set_keys h o keys v) as [h' r] eqn:Hset. cbn [fst].
  destruct (set_keys_frame _ _ _ _ _ _ Hset) as (_ & Hlen & Hfr).
  destruct (set_keys_closed _ _ _ _ _ _ Hh Hv Hset) as [Hh' _]. done.
Qed.

(** X3: of two changes of one path the later wins: the state after both is
    the state after the second alone, with the same structure under
    [data], on any container and any path. *)
Theorem change_last_write_wins (now1 now2 now3 : jsstring) (h : heap) (s : WizardState)
    (path : jsstring) (v1 v2 : value) :
  heap_closed h -> val_in (length h) v1 -> val_in (length h) v2 ->
  let '(h1, s1) := reducer now1 h s (CHANGE path v1) in
  let '(h2, s2) := reducer now2 h1 s1 (CHANGE path v2) in
  let '(h3, s3) := reducer now3 h s (CHANGE path v2) in
  currentIndex s2 = currentIndex s3 /\ savedAt s2 = savedAt s3 /\
  dirty s2 = dirty s3 /\ saving s2 = saving s3 /\ error s2 = error s3 /\
  same_structure h2 (data s2) h3 (data s3).
Proof.
  intros Hh Hv1 Hv2.
  do 3 (rewrite data_of_change; cbn [data currentIndex savedAt dirty saving error]).
  repeat (split; [reflexivity|]).
  destruct (set_keys_extends h (data s) (split DOT path) v1 Hh Hv1) as (Hh1 & Hlen & Hext).
  intros n.
  rewrite set_keys_tree; [|done|eapply val_in_mono; [|exact Hv2]; lia].
  rewrite !set_keys_tree by done.
  rewrite <- (tree_set_overwrite n (reify n h (data s)) (split DOT path)
                (fun m => reify m h v1) (fun m => reify m h v2)).
  apply tree_set_ext. intros m. apply reify_stable; [done|done|done].
Qed.

Lemma change_last_write_wins_witness :
  heap_closed initialHeap /\
  let '(h1, s1) := reducer [] initialHeap initialState (CHANGE (js "company.nameJa") (VStr (js "A"))) in
  let '(h2, s2) := reducer [] h1 s1 (CHANGE (js "company.nameJa") (VStr (js "B"))) in
  let '(h3, s3) := reducer [] initialHeap initialState (CHANGE (js "company.nameJa") (VStr (js "B"))) in
  same_structure h2 (data s2) h3 (data s3).
Proof.
  split; [exact initialHeap_closed|].
  pose proof (change_last_write_wins [] [] [] initialHeap initialState (js "company.nameJa")
                (VStr (js "A")) (VStr (js "B")) initialHeap_closed I I) as H.
  destruct (reducer [] initialHeap initialState (CHANGE (js "company.nameJa") (VStr (js "A"))))
    as [h1 s1].
  destruct (reducer [] h1 s1 (CHANGE (js "company.nameJa") (VStr (js "B")))) as [h2 s2].
  destruct (reducer [] initialHeap initialState (CHANGE (js "company.nameJa") (VStr (js "B"))))
    as [h3 s3].
  destruct H as (_ & _ & _ & _ & _ & Hs). exact Hs.
Defined.



(** X5: [set] makes one new object for each segment of the path, that is
    one more than the path has dots, whatever the size of the container. *)
Theorem set_allocates_one_object_per_segment (h : heap) (o : value) (path : jsstring) (v : value) :
  length (split DOT path) = S (dots path) /\
  length (set h o path v).1 = length h + S (dots path).
Proof.
  assert (Hlen : length (split DOT path) = S (dots path)) by apply split_length.
  split; [exact Hlen|].
  unfold set, set_keys, alloc. cbn [fst].
  rewrite set_loop_length, length_alloc, Hlen. lia.
Qed.

(** ** A primitive in the way of a path *)

(** The object that [set] puts under the first key of a longer path: a
    copy of what the container held there, with the second key assigned. *)
Lemma set_keys_child (h : heap) (o : value) (k k2 : jsstring) (ks : list jsstring) (v : value) :
  heap_closed h ->
  get (set_keys h o (k :: k2 :: ks) v).1 (length h) k = VRef (S (length h)) /\
  fields (set_keys h o (k :: k2 :: ks) v).1 (S (length h))
  = <[k2 := match ks with [] => v | _ => VRef (S (S (length h))) end]>
      (spread h (default VUndef (spread h o !! k))).
Proof.
  intros Hh. unfold set_keys, alloc. cbn [fst].
  set (h1 := h ++ [spread h o]).
  assert (Hlen1 : length h1 = S (length h)) by (unfold h1; apply length_alloc).
  split.
  - unfold get. rewrite set_loop_cur by lia. rewrite lookup_insert_eq. by rewrite Hlen1.
  - rewrite set_loop_cons.
    set (o1 := spread h1 (get h1 (length h) k)).
    assert (Ho1 : o1 = spread h (default VUndef (spread h o !! k))).
    { unfold o1, get, h1. rewrite fields_alloc_new.
      apply spread_stable; [intros l Hl; by apply lookup_alloc_old|].
      destruct (spread h o !! k) as [y|] eqn:Hy; cbn [default from_option id]; [|done].
      eapply spread_closed; eauto. }
    assert (Hchild : fields (write (h1 ++ [o1]) (length h) k (VRef (length h1))) (length h1)
                     = o1) by (apply set_loop_step_child; lia).
    set (h2 := write (h1 ++ [o1]) (length h) k (VRef (length h1))) in *.
    assert (Hlen2 : length h2 = S (length h1)).
    { unfold h2. by rewrite length_write, length_alloc. }
    replace (S (length h)) with (length h1) by lia.
    rewrite set_loop_cur by lia. rewrite Hchild, Ho1, Hlen2. by destruct ks.
Qed.

(** X6: where a path of two or more segments runs through a field that
    holds a primitive, [set] replaces the primitive by a new object: next to
    the segment the path goes on with it holds the characters of a string,
    one under each index, and nothing of a number, a boolean, [null] or
    [undefined]. *)
Theorem set_replaces_primitive_on_path (h : heap) (d : loc) (path : jsstring) (v : value)
    (k k2 : jsstring) (ks : list jsstring) :
  heap_closed h ->
  split DOT path = k :: k2 :: ks ->
  match get h d k with VRef _ => False | _ => True end ->
  let '(h', r) := set h (VRef d) path v in
  exists l : loc, length h <= l /\
    get_path h' r [k] = Some (VRef l) /\
    forall k', k' <> k2 ->
      get h' l k' =
        match get h d k with
        | VStr s => default VUndef (spread h (VStr s) !! k')
        | _ => VUndef
        end.
Proof.
  intros Hh Hsplit Hprim. unfold set. rewrite Hsplit.
  destruct (set_keys_child h (VRef d) k k2 ks v Hh) as [Hget Hfields].
  destruct (set_keys h (VRef d) (k :: k2 :: ks) v) as [h' r] eqn:Hset. cbn [fst] in *.
  destruct (set_keys_frame _ _ _ _ _ _ Hset) as (-> & _).
  exists (S (length h)). split; [lia|]. split.
  - cbn [get_path get_prop]. by rewrite Hget.
  - intros k' Hk'. unfold get at 1. rewrite Hfields, lookup_insert_ne by done.
    cbn [spread]. fold (get h d k). destruct (get h d k); try done.
    all: cbn [spread]; by rewrite lookup_empty.
Qed.

Lemma set_replaces_primitive_on_path_witness :
  get email_ab.1 6 (js "account") = VRef 7 /\ get email_ab.1 7 (js "email") = VStr (js "ab") /\
  heap_closed email_ab.1 /\
  let '(h', r) := set email_ab.1 (VRef 7) (js "email.x") (VBool true) in
  exists l,
    get_path h' r [js "email"] = Some (VRef l) /\
    get h' l (js "0") = VStr (js "a") /\ get h' l (js "1") = VStr (js "b") /\
    get h' l (js "length") = VUndef.
Proof.
  assert (Hh : heap_closed email_ab.1) by (apply heap_closed_check; vm_compute; reflexivity).
  assert (He : get email_ab.1 7 (js "email") = VStr (js "ab")) by (vm_compute; reflexivity).
  split; [vm_compute; reflexivity|]. split; [exact He|]. split; [exact Hh|].
  pose proof (set_replaces_primitive_on_path email_ab.1 7 (js "email.x") (VBool true)
                (js "email") (js "x") [] Hh ltac:(vm_compute; reflexivity)) as H.
  rewrite He in H. specialize (H I).
  destruct (set email_ab.1 (VRef 7) (js "email.x") (VBool true)) as [h' r].
  destruct H as (l & _ & Hl & Hrest). exists l. split; [exact Hl|].
  split; [|split]; (rewrite Hrest; [vm_compute; reflexivity|vm_compute; discriminate]).
Defined.

(** ** The reducer is pure *)

Lemma or_empty_object_extends (h : heap) (x : value) :
  heap_closed h -> val_in (length h) x ->
  heap_closed (or_empty_object h x).1 /\
  length h <= length (or_empty_object h x).1 /\
  (forall l, l < length h -> (or_empty_object h x).1 !! l = h !! l) /\
  val_in (length (or_empty_object h x).1) (or_empty_object h x).2.
Proof.
  intros Hh Hx. unfold or_empty_object. destruct (truthy x); cbn [alloc fst snd].
  - done.
  - split; [apply heap_closed_alloc; [done|apply obj_in_empty]|].
    rewrite length_alloc. split; [lia|].
    split; [intros l Hl; by apply lookup_alloc_old|]. simpl. lia.
Qed.

Lemma reducer_hydrate (now : jsstring) (h : heap) (s : WizardState) (p : PartialState) :
  reducer now h s (HYDRATE p) =
    let hd := or_empty_object h (default VUndef (p_data p)) in
    (hd.1 ++ [spread hd.1 hd.2 ∪ spread hd.1 (data s)],
     {| currentIndex := default (currentIndex s) (p_currentIndex p);
        savedAt := from_option Some (savedAt s) (p_savedAt p);
        dirty := default (dirty s) (p_dirty p);
        saving := default (saving s) (p_saving p);
        error := default (error s) (p_error p);
        data := VRef (length hd.1) |}).
Proof. cbn [reducer]. by destruct (or_empty_object h (default VUndef (p_data p))). Qed.

(** The reducer on a closed heap: the heap it returns is closed, extends
    the old one, and holds the new [data]. *)
Lemma reducer_extends (now : jsstring) (h : heap) (s : WizardState) (a : Action) :
  heap_closed h -> val_in (length h) (data s) -> action_in (length h) a ->
  heap_closed (reducer now h s a).1 /\
  length h <= length (reducer now h s a).1 /\
  (forall l, l < length h -> (reducer now h s a).1 !! l = h !! l) /\
  val_in (length (reducer now h s a).1) (data (reducer now h s a).2).
Proof.
  intros Hh Hd Ha. destruct a as [i|path v|b|t|b|m|p]; try (cbn [reducer fst snd data]; done).
  - rewrite data_of_change. cbn [fst snd data]. cbn [action_in] in Ha.
    destruct (set_keys_extends h (data s) (split DOT path) v Hh Ha) as (Hh1 & Hlen & Hext).
    split; [done|]. split; [lia|]. split; [done|].
    destruct (set_keys h (data s) (split DOT path) v) as [h' r] eqn:Hset.
    by destruct (set_keys_closed _ _ _ _ _ _ Hh Ha Hset).
  - rewrite reducer_hydrate. cbn [action_in] in Ha.
    destruct (or_empty_object_extends h _ Hh Ha) as (Hh1 & Hlen & Hext & Hx).
    destruct (or_empty_object h (default VUndef (p_data p))) as [h1 x].
    cbn [fst snd data] in *.
    split.
    { apply heap_closed_alloc; [done|]. apply obj_in_union; apply spread_closed; done. }
    rewrite length_alloc. split; [lia|].
    split; [intros l Hl; rewrite lookup_alloc_old by lia; by apply Hext|].
    simpl. lia.
Qed.

(** X7: the reducer never mutates its input: for every action, every
    object that existed before the call is the same after it, so the old
    state and every value read from it unfold and read exactly as before;
    and the new heap has no dangling reference. *)
Theorem reducer_never_mutates (now : jsstring) (h : heap) (s : WizardState) (a : Action) :
  heap_closed h -> val_in (length h) (data s) -> action_in (length h) a ->
  let '(h', s') := reducer now h s a in
  (forall l, l < length h -> h' !! l = h !! l) /\
  (forall x, val_in (length h) x ->
     same_structure h' x h x /\ forall q, get_path h' x q = get_path h x q) /\
  heap_closed h' /\ val_in (length h') (data s').
Proof.
  intros Hh Hd Ha.
  destruct (reducer_extends now h s a Hh Hd Ha) as (Hh' & Hlen & Hext & Hd').
  destruct (reducer now h s a) as [h' s']. cbn [fst snd] in *.
  split; [done|]. split; [|done].
  intros x Hx. split.
  - intros n. by apply reify_stable.
  - intros q. by apply get_path_stable.
Qed.

Lemma reducer_never_mutates_witness :
  heap_closed initialHeap /\ val_in (length initialHeap) (data initialState) /\
  action_in (length initialHeap) (CHANGE (js "account.email") (VStr (js "a@b.com"))) /\
  let '(h', s') :=
    reducer [] initialHeap initialState (CHANGE (js "account.email") (VStr (js "a@b.com"))) in
  get_path h' (data initialState) [js "account"; js "email"] = Some (VStr []) /\
  get_path h' (data s') [js "account"; js "email"] = Some (VStr (js "a@b.com")).
Proof.
  assert (Hin : val_in (length initialHeap) (data initialState)) by (vm_compute; lia).
  split; [exact initialHeap_closed|]. split; [exact Hin|]. split; [exact I|].
  pose proof (reducer_never_mutates [] initialHeap initialState
                (CHANGE (js "account.email") (VStr (js "a@b.com")))
                initialHeap_closed Hin I) as H.
  assert (Hnew : get_path
            (reducer [] initialHeap initialState
               (CHANGE (js "account.email") (VStr (js "a@b.com")))).1
            (data (reducer [] initialHeap initialState
               (CHANGE (js "account.email") (VStr (js "a@b.com")))).2)
            [js "account"; js "email"] = Some (VStr (js "a@b.com")))
    by (vm_compute; reflexivity).
  destruct (reducer [] initialHeap initialState
              (CHANGE (js "account.email") (VStr (js "a@b.com")))) as [h' s'].
  cbn [fst snd] in Hnew.
  destruct H as (_ & Hold & _). split; [|exact Hnew].
  rewrite (proj2 (Hold _ Hin)). vm_compute. reflexivity.
Defined.

(** ** What validation reads *)








(** ** Parsing only adds to the heap *)

Lemma json_members_ind (P : json -> Prop) :
  P JNull -> (forall b, P (JBool b)) -> (forall n, P (JNum n)) -> (forall s, P (JStr s)) ->
  (forall ms, Forall (fun kj : jsstring * json => P kj.2) ms -> P (JObj ms)) ->
  forall j, P j.
Proof.
  intros Hn Hb Hz Hs Ho. fix IH 1. intros [|b|n|s|ms]; [done..|].
  apply Ho. induction ms as [|[k j] ms IHms]; constructor; [apply IH|exact IHms].
Qed.

Lemma parse_members_extends (ms : list (jsstring * json)) :
  Forall (fun kj : jsstring * json => forall h0, heap_closed h0 ->
            heap_closed (parse kj.2 h0).1 /\ length h0 <= length (parse kj.2 h0).1 /\
            (forall l, l < length h0 -> (parse kj.2 h0).1 !! l = h0 !! l) /\
            val_in (length (parse kj.2 h0).1) (parse kj.2 h0).2) ms ->
  forall (h0 : heap) (o : obj), heap_closed h0 -> obj_in (length h0) o ->
  heap_closed (parse_members parse ms h0 o).1 /\
  length h0 <= length (parse_members parse ms h0 o).1 /\
  (forall l, l < length h0 -> (parse_members parse ms h0 o).1 !! l = h0 !! l) /\
  obj_in (length (parse_members parse ms h0 o).1) (parse_members parse ms h0 o).2.
Proof.
  induction 1 as [|[k j] ms Hj _ IH]; intros h0 o Hh0 Ho; [done|].
  rewrite parse_members_cons. cbn [snd] in Hj.
  destruct (Hj h0 Hh0) as (Hh1 & Hlen1 & Hext1 & Hx).
  destruct (IH (parse j h0).1 (<[k := (parse j h0).2]> o) Hh1) as (Hh2 & Hlen2 & Hext2 & Ho2).
  { apply obj_in_insert; [|done]. eapply obj_in_mono; eauto. }
  split; [done|]. split; [lia|]. split; [|done].
  intros l Hl. rewrite Hext2 by lia. by apply Hext1.
Qed.

(** [JSON.parse] only adds objects to the heap. *)
Lemma parse_extends (j : json) : forall h0 : heap, heap_closed h0 ->
  heap_closed (parse j h0).1 /\ length h0 <= length (parse j h0).1 /\
  (forall l, l < length h0 -> (parse j h0).1 !! l = h0 !! l) /\
  val_in (length (parse j h0).1) (parse j h0).2.
Proof.
  induction j as [|b|n|s|ms IH] using json_members_ind; intros h0 Hh0; try done.
  rewrite parse_object. cbn [fst snd].
  destruct (parse_members_extends ms IH h0 ∅ Hh0 (obj_in_empty _)) as (Hh1 & Hlen & Hext & Ho).
  split; [by apply heap_closed_alloc|]. rewrite length_alloc.
  split; [lia|]. split; [|simpl; lia].
  intros l Hl. rewrite lookup_alloc_old by lia. by apply Hext.
Qed.

Lemma parse_document_extends (doc : document) (h0 : heap) :
  heap_closed h0 ->
  heap_closed (parse_document doc h0).1 /\ length h0 <= length (parse_document doc h0).1 /\
  (forall l, l < length h0 -> (parse_document doc h0).1 !! l = h0 !! l) /\
  val_in (length (parse_document doc h0).1) (default VUndef (p_data (parse_document doc h0).2)).
Proof.
  intros Hh0. unfold parse_document. destruct (d_data doc) as [j|]; [|done].
  pose proof (parse_extends j h0 Hh0) as H. by destruct (parse j h0).
Qed.

(** ** Worlds without dangling references *)

Lemma world_closed_grow (w : world) (h' : heap) (s' : WizardState) (w' : world) :
  world_closed w ->
  heap_closed h' -> length (w_heap w) <= length h' -> val_in (length h') (data s') ->
  w_heap w' = h' -> w_state w' = s' -> w_timer w' = w_timer w ->
  world_closed w'.
Proof.
  intros (Hh & Hd & Ht) Hh' Hlen Hd' <- <- Htimer. split; [done|]. split; [done|].
  intros c Hc. rewrite Htimer in Hc. eapply val_in_mono; [|by apply Ht]. done.
Qed.

Lemma dispatch_closed (e : env) (a : Action) (w : world) :
  world_closed w -> action_in (length (w_heap w)) a -> world_closed (dispatch e a w).
Proof.
  intros Hw Ha. pose proof Hw as (Hh & Hd & Ht).
  destruct (reducer_extends (now e) (w_heap w) (w_state w) a Hh Hd Ha) as (Hh' & Hlen & _ & Hd').
  eapply world_closed_grow; [exact Hw|exact Hh'|exact Hlen|exact Hd'| | |].
  - apply dispatch_heap.
  - apply dispatch_state.
  - apply dispatch_outside.
Qed.

Lemma world_closed_same (w w' : world) :
  world_closed w ->
  w_heap w' = w_heap w -> data (w_state w') = data (w_state w) -> w_timer w' = w_timer w ->
  world_closed w'.
Proof. unfold world_closed. by intros H -> -> ->. Qed.

Lemma saveDraft_closed (c : WizardState) (opts : option reason) (e : env) (w : world) :
  world_closed w -> world_closed (saveDraft c opts e w).
Proof.
  intros Hw. destruct (saveDraft_frame c opts e w) as (Hh & _ & Hd & _ & Ht & _).
  by eapply world_closed_same.
Qed.

Lemma next_closed (s : WizardState) (e : env) (w : world) :
  world_closed w -> world_closed (next s e w).
Proof.
  intros Hw. destruct (next_world s e w) as (Hh & _ & _ & Ht & _ & _ & Hd & _).
  by eapply world_closed_same.
Qed.

Lemma prev_closed (s : WizardState) (e : env) (w : world) :
  world_closed w -> world_closed (prev s e w).
Proof.
  intros Hw. destruct (prev_world s e w) as (Hh & _ & _ & Ht & _ & _ & Hd & _).
  by eapply world_closed_same.
Qed.

Lemma loadDraft_closed (e : env) (w : world) : world_closed w -> world_closed (loadDraft e w).
Proof.
  intros Hw. pose proof Hw as (Hh & Hd & Ht). unfold loadDraft.
  destruct (w_storage w) as [raw|]; [|by eapply world_closed_same].
  destruct (parse_document_extends raw (w_heap w) Hh) as (Hh1 & Hlen & _ & Hp).
  destruct (parse_document raw (w_heap w)) as [h1 parsed]. cbn [fst snd] in *.
  eapply world_closed_same; [|reflexivity..].
  apply dispatch_closed; [|exact Hp].
  eapply world_closed_grow; [exact Hw|exact Hh1|exact Hlen| |reflexivity..].
  eapply val_in_mono; eauto.
Qed.

Lemma reload_closed (w : world) : world_closed (reload w).
Proof.
  split; [exact initialHeap_closed|]. split; [vm_compute; lia|]. intros c Hc. discriminate Hc.
Qed.

Lemma handle_closed (e : env) (ev : event) (w w' : world) :
  world_closed w -> handle e ev w = Some w' -> world_closed w'.
Proof.
  intros Hw. destruct ev as [|i| |path v| | | | |]; cbn [handle].
  - destruct (w_loaded w); [discriminate|]. intros [= <-]. by apply loadDraft_closed.
  - case_bool_decide; [|discriminate]. intros [= <-]. by apply dispatch_closed.
  - destruct (_ =? 0)%Z; [discriminate|]. intros [= <-]. by apply prev_closed.
  - destruct v; try discriminate; intros [= <-]; by apply dispatch_closed.
  - destruct (saving _); [discriminate|]. intros [= <-]. by apply saveDraft_closed.
  - unfold handleSaveAndContinue.
    destruct (validateCurrent _ _) as [[m|]|]; cbn [mbind option_bind]; [| |discriminate].
    + destruct (truthy (VStr m)); intros [= <-].
      * by apply dispatch_closed.
      * by apply next_closed, saveDraft_closed.
    + intros [= <-]. by apply next_closed, saveDraft_closed.
  - destruct (w_timer w) as [c|]; [|discriminate]. intros [= <-].
    apply saveDraft_closed. destruct Hw as (Hh & Hd & _).
    split; [done|]. split; [done|]. intros c' Hc'. discriminate Hc'.
  - intros [= <-]. apply reload_closed.
  - intros [= <-]. apply reload_closed.
Qed.

Lemma autoSaveEffect_closed (before after : world) :
  world_closed after -> world_closed (autoSaveEffect before after).
Proof.
  intros Hw. pose proof Hw as (Hh & Hd & Ht). unfold autoSaveEffect.
  case_bool_decide; [done|].
  destruct (w_loaded after); [|done]. destruct (dirty (w_state after)); [|done].
  cbn [negb]. split; [done|]. split; [done|]. by intros c [= <-].
Qed.

Lemma fire_closed (e : env) (ev : event) (w w' : world) :
  world_closed w -> fire e ev w = Some w' -> world_closed w'.
Proof.
  intros Hw. unfold fire. destruct (handle e ev w) as [w1|] eqn:Hh; [|discriminate].
  cbn. intros [= <-]. apply autoSaveEffect_closed. by eapply handle_closed.
Qed.

Lemma initialWorld_closed : world_closed initialWorld.
Proof. exact (reload_closed initialWorld). Qed.

Lemma reachable_closed (w : world) : reachable w -> world_closed w.
Proof.
  induction 1 as [|e ev w w' _ IH Hfire]; [exact initialWorld_closed|].
  by eapply fire_closed.
Qed.

(** ** Worlds reached by a list of events *)

Lemma fire_all_reachable (evs : list (env * event)) : forall w w' : world,
  reachable w -> fire_all w evs = Some w' -> reachable w'.
Proof.
  induction evs as [|[e ev] evs IH]; intros w w' Hw; cbn [fire_all].
  - by intros [= <-].
  - destruct (fire e ev w) as [w1|] eqn:Hf; [|discriminate]. cbn.
    apply IH. by eapply reachable_fire.
Qed.

Lemma typed_world_reachable : reachable typed_world.
Proof.
  eapply fire_all_reachable; [apply reachable_initial|].
  apply default_Some. vm_compute. reflexivity.
Qed.

(** ** The autosave timer *)

Lemma autoSaveEffect_quiet (before after : world) :
  data (w_state after) = data (w_state before) ->
  w_loaded after = w_loaded before ->
  dirty (w_state after) = dirty (w_state before) \/ dirty (w_state after) = false ->
  autoSaveEffect before after = after.
Proof.
  intros Hd Hl Hdirty. unfold autoSaveEffect.
  case_bool_decide as Hdeps; [done|].
  destruct (w_loaded after); [|done].
  destruct (dirty (w_state after)) eqn:Hd'; [|done].
  destruct Hdirty as [Hsame|Hf]; [|discriminate].
  exfalso. apply Hdeps. done.
Qed.

Lemma autoSaveEffect_arms (before after : world) :
  data (w_state after) <> data (w_state before) \/ w_loaded after <> w_loaded before ->
  w_loaded after = true -> dirty (w_state after) = true ->
  autoSaveEffect before after = set_timer (Some (w_state after)) after.
Proof.
  intros Hdeps Hl Hd. unfold autoSaveEffect.
  rewrite bool_decide_eq_false_2; [by rewrite Hl, Hd|].
  intros (Hdata & _ & Hloaded). destruct Hdeps as [H|H]; by apply H.
Qed.

Lemma onChange_state (path : jsstring) (v : value) (e : env) (w : world) :
  w_heap (onChange path v e w) = (set_keys (w_heap w) (data (w_state w)) (split DOT path) v).1 /\
  data (w_state (onChange path v e w)) = VRef (length (w_heap w)) /\
  dirty (w_state (onChange path v e w)) = true /\
  currentIndex (w_state (onChange path v e w)) = currentIndex (w_state w) /\
  error (w_state (onChange path v e w)) = error (w_state w) /\
  w_loaded (onChange path v e w) = w_loaded w /\
  w_timer (onChange path v e w) = w_timer w /\
  w_storage (onChange path v e w) = w_storage w /\
  w_effects (onChange path v e w) = w_effects w.
Proof.
  unfold onChange. rewrite dispatch_heap, dispatch_state, data_of_change.
  cbn [fst snd data dirty currentIndex error].
  destruct (dispatch_outside e (CHANGE path v) w) as (-> & -> & -> & ->).
  repeat split; reflexivity.
Qed.

Lemma fresh_data (h : heap) (x : value) : val_in (length h) x -> VRef (length h) <> x.
Proof. intros Hx <-. simpl in Hx. lia. Qed.

(** A change on a loaded page arms the timer for the render it causes. *)
Lemma fire_input (e : env) (path : jsstring) (v : value) (w w1 : world) :
  world_closed w -> w_loaded w = true ->
  fire e (Input path v) w = Some w1 ->
  w1 = set_timer (Some (w_state (onChange path v e w))) (onChange path v e w).
Proof.
  intros (Hh & Hd & _) Hl. unfold fire. cbn [handle].
  assert (Harm : autoSaveEffect w (onChange path v e w)
                 = set_timer (Some (w_state (onChange path v e w))) (onChange path v e w)).
  { destruct (onChange_state path v e w) as (_ & Hdata & Hdirty & _ & _ & Hloaded & _).
    apply autoSaveEffect_arms; [|by rewrite Hloaded|done].
    left. rewrite Hdata. by apply fresh_data. }
  destruct v; try discriminate; cbn; intros [= <-]; exact Harm.
Qed.

(** The timer fires: the [saveDraft] of the render that armed it runs, and
    no timer is pending afterwards. *)
Lemma fire_timer (e : env) (w w' : world) :
  fire e TimerFires w = Some w' ->
  exists c, w_timer w = Some c /\ w' = saveDraft c (Some autosave) e (set_timer None w).
Proof.
  unfold fire. cbn [handle]. destruct (w_timer w) as [c|]; [|discriminate].
  cbn. intros [= <-]. exists c. split; [done|].
  destruct (saveDraft_frame c (Some autosave) e (set_timer None w))
    as (_ & _ & Hd & Hl & _ & _).
  apply autoSaveEffect_quiet; [done|done|].
  rewrite saveDraft_dirty. cbn [set_timer w_state w_heap].
  destruct (_ || _); [by right|by left].
Qed.

Lemma fire_timer_pending (e : env) (w : world) (c : WizardState) :
  w_timer w = Some c ->
  fire e TimerFires w = Some (saveDraft c (Some autosave) e (set_timer None w)).
Proof.
  intros Hc. destruct (fire e TimerFires w) as [w'|] eqn:Hf.
  - apply fire_timer in Hf as (c' & Hc' & ->). rewrite Hc in Hc'. by injection Hc' as <-.
  - unfold fire in Hf. cbn [handle] in Hf. rewrite Hc in Hf. discriminate Hf.
Qed.

Lemma shown_message_nonempty (m : jsstring) : shown_message m <> [].
Proof.
  unfold shown_message. destruct (truthy (VStr m)) eqn:Hm.
  - intros ->. discriminate Hm.
  - vm_compute. discriminate.
Qed.

(** X9: debounce. Of two changes made one after the other on a loaded page
    only the second leaves a timer, that of the render after it; nothing is
    saved before the timer fires; when it fires there is one save, of the
    data after the second change (one write and one remote call, or none if
    the local write throws); and no timer is left. *)
Theorem autosave_debounce (e1 e2 e3 : env) (p1 p2 : jsstring) (v1 v2 : value)
    (w w1 w2 w3 : world) :
  reachable w -> w_loaded w = true ->
  fire e1 (Input p1 v1) w = Some w1 ->
  fire e2 (Input p2 v2) w1 = Some w2 ->
  fire e3 TimerFires w2 = Some w3 ->
  w_timer w1 = Some (w_state w1) /\ w_timer w2 = Some (w_state w2) /\
  w_effects w2 = w_effects w /\
  w_effects w3 =
    w_effects w ++
    match local_failure (w_heap w2) (w_state w2) e3, stringify_state (w_heap w2) (w_state w2) with
    | None, Some doc =>
      [SetItem doc; RemoteSave (currentIndex (w_state w2)) (data (w_state w2))]
    | _, _ => []
    end /\
  w_timer w3 = None /\
  forall e, fire e TimerFires w3 = None.
Proof.
  intros Hw%reachable_closed Hl H1 H2 H3.
  pose proof (fire_closed _ _ _ _ Hw H1) as Hw1.
  pose proof (fire_input _ _ _ _ _ Hw Hl H1) as E1.
  assert (Hl1 : w_loaded w1 = true).
  { rewrite E1. cbn [set_timer w_loaded].
    destruct (onChange_state p1 v1 e1 w) as (_ & _ & _ & _ & _ & -> & _). done. }
  pose proof (fire_input _ _ _ _ _ Hw1 Hl1 H2) as E2.
  assert (He1 : w_effects w1 = w_effects w).
  { rewrite E1. cbn [set_timer w_effects]. apply onChange_state. }
  assert (He2 : w_effects w2 = w_effects w).
  { rewrite E2. cbn [set_timer w_effects]. rewrite <- He1. apply onChange_state. }
  assert (Ht2 : w_timer w2 = Some (w_state w2)) by (rewrite E2; reflexivity).
  destruct (fire_timer _ _ _ H3) as (c & Hc & E3).
  rewrite Ht2 in Hc. injection Hc as <-.
  assert (Ht3 : w_timer w3 = None).
  { rewrite E3. by destruct (saveDraft_frame (w_state w2) (Some autosave) e3 (set_timer None w2))
      as (_ & _ & _ & _ & -> & _). }
  split; [rewrite E1; reflexivity|]. split; [done|]. split; [done|].
  split; [|split; [done|]].
  - rewrite E3.
    destruct (saveDraft_storage (w_state w2) (Some autosave) e3 (set_timer None w2)) as [_ ->].
    cbn [set_timer w_heap w_effects]. unfold local_failure. rewrite He2.
    destruct (stringify_state (w_heap w2) (w_state w2)), (quota_error e3);
      by rewrite ?app_nil_r.
  - intros e. unfold fire. cbn [handle]. by rewrite Ht3.
Qed.

Lemma autosave_debounce_witness :
  exists w1 w2 w3 : world,
    reachable typed_world /\ w_loaded typed_world = true /\
    fire env_ok (Input (js "data.account.password") (VStr (js "1234"))) typed_world = Some w1 /\
    fire env_ok (Input (js "data.account.password") (VStr (js "12345678"))) w1 = Some w2 /\
    fire env_ok TimerFires w2 = Some w3 /\
    w_timer w2 = Some (w_state w2) /\ w_timer w3 = None /\
    length (w_effects w3) = length (w_effects typed_world) + 2.
Proof.
  set (w1 := default initialWorld
               (fire env_ok (Input (js "data.account.password") (VStr (js "1234"))) typed_world)).
  set (w2 := default initialWorld
               (fire env_ok (Input (js "data.account.password") (VStr (js "12345678"))) w1)).
  set (w3 := default initialWorld (fire env_ok TimerFires w2)).
  assert (Hl : w_loaded typed_world = true) by (vm_compute; reflexivity).
  assert (H1 : fire env_ok (Input (js "data.account.password") (VStr (js "1234"))) typed_world
               = Some w1) by (apply default_Some; vm_compute; reflexivity).
  assert (H2 : fire env_ok (Input (js "data.account.password") (VStr (js "12345678"))) w1
               = Some w2) by (apply default_Some; vm_compute; reflexivity).
  assert (H3 : fire env_ok TimerFires w2 = Some w3)
    by (apply default_Some; vm_compute; reflexivity).
  exists w1, w2, w3.
  destruct (autosave_debounce env_ok env_ok env_ok _ _ _ _ typed_world w1 w2 w3
              typed_world_reachable Hl H1 H2 H3) as (_ & Ht2 & _ & He3 & Ht3 & _).
  split; [exact typed_world_reachable|]. split; [exact Hl|]. split; [exact H1|].
  split; [exact H2|]. split; [exact H3|]. split; [exact Ht2|]. split; [exact Ht3|].
  rewrite He3, length_app.
  apply (f_equal (Nat.add (length (w_effects typed_world)))). vm_compute. reflexivity.
Defined.

Lemma dispatch_goto (e : env) (i : Z) (w : world) :
  w_heap (dispatch e (GOTO i) w) = w_heap w /\
  data (w_state (dispatch e (GOTO i) w)) = data (w_state w) /\
  dirty (w_state (dispatch e (GOTO i) w)) = dirty (w_state w) /\
  w_loaded (dispatch e (GOTO i) w) = w_loaded w /\
  w_timer (dispatch e (GOTO i) w) = w_timer w.
Proof. done. Qed.

Lemma dispatch_error (e : env) (m : option jsstring) (w : world) :
  w_heap (dispatch e (SET_ERROR m) w) = w_heap w /\
  data (w_state (dispatch e (SET_ERROR m) w)) = data (w_state w) /\
  dirty (w_state (dispatch e (SET_ERROR m) w)) = dirty (w_state w) /\
  w_loaded (dispatch e (SET_ERROR m) w) = w_loaded w /\
  w_timer (dispatch e (SET_ERROR m) w) = w_timer w.
Proof. done. Qed.

(** The handlers of the step buttons, of "back", of "save" and of "save and
    continue" leave [data], [loaded] and the timer as they are, and [dirty]
    as it is or false. *)
Lemma handle_click (e : env) (ev : event) (w w1 : world) :
  match ev with
  | ClickStep _ | ClickPrev | ClickSave | ClickSaveAndContinue => True
  | _ => False
  end ->
  handle e ev w = Some w1 ->
  w_heap w1 = w_heap w /\
  data (w_state w1) = data (w_state w) /\ w_loaded w1 = w_loaded w /\
  w_timer w1 = w_timer w /\
  (dirty (w_state w1) = dirty (w_state w) \/ dirty (w_state w1) = false).
Proof.
  intros Hev. destruct ev as [|i| |path v| | | | |]; try done; cbn [handle].
  - case_bool_decide; [|discriminate]. intros [= <-].
    destruct (dispatch_goto e (Z.of_nat i) w) as (? & ? & ? & ? & ?). tauto.
  - destruct (_ =? 0)%Z; [discriminate|]. intros [= <-].
    destruct (prev_world (w_state w) e w) as (? & _ & _ & ? & ? & ? & ? & _). tauto.
  - destruct (saving _); [discriminate|]. intros [= <-].
    destruct (saveDraft_frame (w_state w) (Some manual) e w) as (? & _ & ? & ? & ? & _).
    rewrite saveDraft_dirty. tauto.
  - unfold handleSaveAndContinue.
    assert (Hsave : forall w1, w1 = next (w_state w) e (saveDraft (w_state w) (Some manual) e w) ->
              w_heap w1 = w_heap w /\
              data (w_state w1) = data (w_state w) /\ w_loaded w1 = w_loaded w /\
              w_timer w1 = w_timer w /\
              (dirty (w_state w1) = dirty (w_state w) \/ dirty (w_state w1) = false)).
    { intros ? ->.
      destruct (next_world (w_state w) e (saveDraft (w_state w) (Some manual) e w))
        as (-> & _ & _ & -> & -> & -> & -> & _).
      destruct (saveDraft_frame (w_state w) (Some manual) e w) as (? & _ & ? & ? & ? & _).
      rewrite saveDraft_dirty. tauto. }
    destruct (validateCurrent _ _) as [[m|]|]; cbn [mbind option_bind]; [| |discriminate].
    + destruct (truthy (VStr m)); intros [= <-]; [|by apply Hsave].
      destruct (dispatch_error e (Some m) w) as (? & ? & ? & ? & ?). tauto.
    + intros [= <-]. by apply Hsave.
Qed.

(** X10: the step buttons, "back", "save" and "save and continue" neither
    arm nor cancel the autosave timer: a timer that is pending before the
    click is pending after it, and fires with the [saveDraft] of the render
    that armed it, also after a manual save that went through. *)
Theorem pending_autosave_survives (e : env) (ev : event) (w w' : world) :
  match ev with
  | ClickStep _ | ClickPrev | ClickSave | ClickSaveAndContinue => True
  | _ => False
  end ->
  fire e ev w = Some w' ->
  w_timer w' = w_timer w /\
  forall c e', w_timer w = Some c ->
    fire e' TimerFires w' = Some (saveDraft c (Some autosave) e' (set_timer None w')).
Proof.
  intros Hev Hf.
  assert (Ht : w_timer w' = w_timer w).
  { unfold fire in Hf. destruct (handle e ev w) as [w1|] eqn:Hh; [|discriminate].
    cbn in Hf. injection Hf as <-.
    destruct (handle_click e ev w w1 Hev Hh) as (_ & Hd & Hl & Ht & Hdirty).
    by rewrite autoSaveEffect_quiet. }
  split; [done|]. intros c e' Hc. apply fire_timer_pending. by rewrite Ht.
Qed.

Lemma pending_autosave_survives_witness :
  exists w' : world,
    fire env_ok ClickSave typed_world = Some w' /\
    w_timer typed_world = Some (w_state typed_world) /\
    dirty (w_state w') = false /\
    w_timer w' = Some (w_state typed_world) /\
    fire env_ok TimerFires w'
    = Some (saveDraft (w_state typed_world) (Some autosave) env_ok (set_timer None w')).
Proof.
  set (w' := default initialWorld (fire env_ok ClickSave typed_world)).
  assert (Hf : fire env_ok ClickSave typed_world = Some w')
    by (apply default_Some; vm_compute; reflexivity).
  assert (Ht : w_timer typed_world = Some (w_state typed_world)) by (vm_compute; reflexivity).
  exists w'. split; [exact Hf|]. split; [exact Ht|].
  split; [vm_compute; reflexivity|].
  destruct (pending_autosave_survives env_ok ClickSave typed_world w' I Hf) as [Hsame Hfire].
  split; [by rewrite Hsame|]. by apply Hfire.
Defined.

Lemma loadDraft_world (e : env) (w : world) (doc : document) :
  w_storage w = Some doc ->
  w_loaded (loadDraft e w) = true /\ w_timer (loadDraft e w) = w_timer w /\
  w_storage (loadDraft e w) = Some doc /\ w_effects (loadDraft e w) = w_effects w /\
  w_state (loadDraft e w)
  = (reducer (now e) (parse_document doc (w_heap w)).1 (w_state w)
       (HYDRATE (parse_document doc (w_heap w)).2)).2.
Proof.
  intros Hs. unfold loadDraft, dispatch. rewrite Hs.
  destruct (parse_document doc (w_heap w)) as [h parsed]. cbn [fst snd w_heap w_state].
  by destruct (reducer (now e) h (w_state w) (HYDRATE parsed)).
Qed.

(** X11: when the draft found at page load was stored with [dirty] true,
    the mount effect leaves a dirty state and an armed autosave timer: the
    page saves again without any input. *)
Theorem load_arms_autosave (e : env) (w w' : world) (doc : document) :
  w_loaded w = false -> w_storage w = Some doc -> d_dirty doc = true ->
  fire e Mount w = Some w' ->
  w_loaded w' = true /\ dirty (w_state w') = true /\
  w_timer w' = Some (w_state w') /\
  w_storage w' = Some doc /\ w_effects w' = w_effects w /\
  forall e', fire e' TimerFires w'
             = Some (saveDraft (w_state w') (Some autosave) e' (set_timer None w')).
Proof.
  intros Hl Hs Hd Hf.
  destruct (loadDraft_world e w doc Hs) as (Hl' & Ht' & Hs' & He' & Hstate).
  assert (Hdirty : dirty (w_state (loadDraft e w)) = true).
  { rewrite Hstate, hydrate_dirty. exact Hd. }
  assert (Hw' : w' = set_timer (Some (w_state (loadDraft e w))) (loadDraft e w)).
  { unfold fire in Hf. cbn [handle] in Hf. rewrite Hl in Hf. cbn in Hf. injection Hf as <-.
    apply autoSaveEffect_arms; [right; rewrite Hl', Hl; discriminate|done|done]. }
  assert (Ht : w_timer w' = Some (w_state w')) by (by rewrite Hw').
  split; [by rewrite Hw'|]. split; [by rewrite Hw'|]. split; [done|].
  split; [by rewrite Hw'|]. split; [by rewrite Hw'|].
  intros e'. by apply fire_timer_pending.
Qed.

Lemma load_arms_autosave_witness :
  exists (doc : document) (w' : world),
    w_loaded reloaded_world = false /\ w_storage reloaded_world = Some doc /\
    d_dirty doc = true /\ w_timer reloaded_world = None /\
    fire env_ok Mount reloaded_world = Some w' /\
    w_timer w' = Some (w_state w') /\ dirty (w_state w') = true.
Proof.
  set (doc := default {| d_currentIndex := 0; d_savedAt := None; d_dirty := false;
                         d_saving := false; d_error := None; d_data := None |}
                (w_storage reloaded_world)).
  set (w' := default initialWorld (fire env_ok Mount reloaded_world)).
  assert (Hl : w_loaded reloaded_world = false) by (vm_compute; reflexivity).
  assert (Hs : w_storage reloaded_world = Some doc)
    by (apply default_Some; vm_compute; reflexivity).
  assert (Hd : d_dirty doc = true) by (vm_compute; reflexivity).
  assert (Hf : fire env_ok Mount reloaded_world = Some w')
    by (apply default_Some; vm_compute; reflexivity).
  exists doc, w'.
  destruct (load_arms_autosave env_ok reloaded_world w' doc Hl Hs Hd Hf)
    as (_ & Hdirty & Ht & _).
  split; [exact Hl|]. split; [exact Hs|]. split; [exact Hd|].
  split; [vm_compute; reflexivity|]. split; [exact Hf|]. split; [exact Ht|exact Hdirty].
Defined.

(** ** The outcomes of a save *)

Lemma save_succeeds_local (h : heap) (c : WizardState) (e : env) :
  save_succeeds h c e =
    match local_failure h c e with
    | Some _ => false
    | None => negb (random_below e)
    end.
Proof.
  unfold save_succeeds, local_failure.
  destruct (stringify_state h c) as [doc|]; [|done].
  rewrite bool_decide_eq_true_2 by eauto. by destruct (quota_error e).
Qed.

(** X12: an autosave that fails leaves [dirty] and [savedAt] as they were,
    shows a non-empty message, and arms no new timer: nothing is saved
    until the next change or click. *)
Theorem failed_autosave_not_retried (e : env) (w w' : world) (c : WizardState) :
  w_timer w = Some c ->
  save_succeeds (w_heap w) c e = false ->
  fire e TimerFires w = Some w' ->
  dirty (w_state w') = dirty (w_state w) /\ saving (w_state w') = false /\
  savedAt (w_state w') = savedAt (w_state w) /\
  (exists m, error (w_state w') = Some m /\ m <> []) /\
  w_timer w' = None /\
  forall e', fire e' TimerFires w' = None.
Proof.
  intros Hc Hfail Hf. apply fire_timer in Hf as (c' & Hc' & ->).
  assert (c' = c) as -> by congruence.
  destruct (saveDraft_frame c (Some autosave) e (set_timer None w)) as (_ & _ & _ & _ & Ht & Hs).
  assert (Hnone : w_timer (saveDraft c (Some autosave) e (set_timer None w)) = None)
    by (by rewrite Ht).
  rewrite saveDraft_dirty, saveDraft_savedAt, saveDraft_error.
  cbn [set_timer w_heap w_state]. rewrite Hfail.
  rewrite save_succeeds_local in Hfail.
  split; [done|]. split; [done|]. split; [done|]. split; [|split; [done|]].
  - destruct (local_failure (w_heap w) c e) as [m|].
    + exists (shown_message m). split; [done|]. apply shown_message_nonempty.
    + destruct (random_below e); [|discriminate].
      eexists. split; [reflexivity|]. vm_compute. discriminate.
  - intros e'. unfold fire. cbn [handle]. by rewrite Hnone.
Qed.

Lemma failed_autosave_not_retried_witness :
  exists w' : world,
    w_timer typed_world = Some (w_state typed_world) /\
    save_succeeds (w_heap typed_world) (w_state typed_world) env_remote_fails = false /\
    fire env_remote_fails TimerFires typed_world = Some w' /\
    dirty (w_state w') = true /\ w_timer w' = None /\
    fire env_ok TimerFires w' = None.
Proof.
  set (w' := default initialWorld (fire env_remote_fails TimerFires typed_world)).
  assert (Ht : w_timer typed_world = Some (w_state typed_world)) by (vm_compute; reflexivity).
  assert (Hfail : save_succeeds (w_heap typed_world) (w_state typed_world) env_remote_fails
                  = false) by (vm_compute; reflexivity).
  assert (Hf : fire env_remote_fails TimerFires typed_world = Some w')
    by (apply default_Some; vm_compute; reflexivity).
  exists w'.
  destruct (failed_autosave_not_retried env_remote_fails typed_world w' _ Ht Hfail Hf)
    as (Hd & _ & _ & _ & Hnone & Hno).
  split; [exact Ht|]. split; [exact Hfail|]. split; [exact Hf|].
  split; [rewrite Hd; vm_compute; reflexivity|]. split; [exact Hnone|]. apply Hno.
Defined.

(** X13: when the conversion to JSON or the write to the storage throws,
    nothing is stored and no remote call is made, the message shown is the
    one thrown, or the fallback if that is empty, and a manual save still
    clears [dirty]. *)
Theorem save_local_failure (c : WizardState) (opts : option reason) (e : env) (w : world)
    (m : jsstring) :
  local_failure (w_heap w) c e = Some m ->
  w_storage (saveDraft c opts e w) = w_storage w /\
  w_effects (saveDraft c opts e w) = w_effects w /\
  savedAt (w_state (saveDraft c opts e w)) = savedAt (w_state w) /\
  error (w_state (saveDraft c opts e w)) = Some (shown_message m) /\
  shown_message m <> [] /\
  saving (w_state (saveDraft c opts e w)) = false /\
  dirty (w_state (saveDraft c opts e w)) =
    if bool_decide (opts = Some manual) then false else dirty (w_state w).
Proof.
  intros Hm.
  destruct (saveDraft_storage c opts e w) as [Hs He].
  rewrite saveDraft_savedAt, saveDraft_error, saveDraft_dirty, save_succeeds_local, Hm.
  rewrite orb_false_r.
  assert (Hcase : match stringify_state (w_heap w) c, quota_error e with
                  | Some doc, None => False
                  | _, _ => True
                  end).
  { unfold local_failure in Hm. destruct (stringify_state (w_heap w) c); [|done].
    by destruct (quota_error e). }
  split; [rewrite Hs; by destruct (stringify_state _ c), (quota_error e)|].
  split; [rewrite He; by destruct (stringify_state _ c), (quota_error e)|].
  split; [done|]. split; [done|]. split; [apply shown_message_nonempty|].
  split; [apply saveDraft_frame|done].
Qed.

Lemma save_local_failure_witness :
  local_failure (w_heap typed_world) (w_state typed_world)
    {| now := []; json_error := []; quota_error := Some (js "QuotaExceededError");
       random_below := false |} = Some (js "QuotaExceededError") /\
  dirty (w_state typed_world) = true /\
  dirty (w_state (saveDraft (w_state typed_world) (Some manual)
                    {| now := []; json_error := []; quota_error := Some (js "QuotaExceededError");
                       random_below := false |} typed_world)) = false /\
  w_storage (saveDraft (w_state typed_world) (Some manual)
               {| now := []; json_error := []; quota_error := Some (js "QuotaExceededError");
                  random_below := false |} typed_world) = None.
Proof.
  set (e := {| now := []; json_error := []; quota_error := Some (js "QuotaExceededError");
               random_below := false |}).
  assert (Hm : local_failure (w_heap typed_world) (w_state typed_world) e
               = Some (js "QuotaExceededError")) by (vm_compute; reflexivity).
  destruct (save_local_failure (w_state typed_world) (Some manual) e typed_world _ Hm)
    as (Hs & _ & _ & _ & _ & _ & Hd).
  split; [exact Hm|]. split; [vm_compute; reflexivity|].
  split; [exact Hd|]. rewrite Hs. vm_compute. reflexivity.
Defined.

(** X14: a save that goes through stores the draft of its render, makes
    one remote call with that render's index and data, sets [savedAt] to the
    time of the reducer call, and leaves [error] null, [dirty] and [saving]
    false, and the index, the data and the heap as they were. *)
Theorem save_goes_through (c : WizardState) (opts : option reason) (e : env) (w : world) :
  save_succeeds (w_heap w) c e = true ->
  exists doc,
    stringify_state (w_heap w) c = Some doc /\
    w_storage (saveDraft c opts e w) = Some doc /\
    w_effects (saveDraft c opts e w)
    = w_effects w ++ [SetItem doc; RemoteSave (currentIndex c) (data c)] /\
    savedAt (w_state (saveDraft c opts e w)) = Some (now e) /\
    error (w_state (saveDraft c opts e w)) = None /\
    dirty (w_state (saveDraft c opts e w)) = false /\
    saving (w_state (saveDraft c opts e w)) = false /\
    currentIndex (w_state (saveDraft c opts e w)) = currentIndex (w_state w) /\
    data (w_state (saveDraft c opts e w)) = data (w_state w) /\
    w_heap (saveDraft c opts e w) = w_heap w.
Proof.
  intros Hok.
  destruct (saveDraft_storage c opts e w) as [Hs He].
  destruct (saveDraft_frame c opts e w) as (Hh & Hi & Hd & _ & _ & Hsaving).
  rewrite saveDraft_savedAt, saveDraft_error, saveDraft_dirty, Hok, orb_true_r.
  rewrite save_succeeds_local in Hok. unfold local_failure in *.
  destruct (stringify_state (w_heap w) c) as [doc|]; [|discriminate].
  destruct (quota_error e); [discriminate|].
  destruct (random_below e); [discriminate|].
  exists doc. done.
Qed.

Lemma save_goes_through_witness :
  save_succeeds (w_heap typed_world) (w_state typed_world) env_ok = true /\
  exists doc,
    w_storage (saveDraft (w_state typed_world) (Some manual) env_ok typed_world) = Some doc /\
    savedAt (w_state (saveDraft (w_state typed_world) (Some manual) env_ok typed_world))
    = Some (now env_ok).
Proof.
  assert (Hok : save_succeeds (w_heap typed_world) (w_state typed_world) env_ok = true)
    by (vm_compute; reflexivity).
  split; [exact Hok|].
  destruct (save_goes_through (w_state typed_world) (Some manual) env_ok typed_world Hok)
    as (doc & _ & Hs & _ & Ht & _).
  exists doc. split; [exact Hs|exact Ht].
Defined.

(** ** Save, reload, load *)

Lemma autoSaveEffect_state (before after : world) :
  w_heap (autoSaveEffect before after) = w_heap after /\
  w_state (autoSaveEffect before after) = w_state after /\
  w_loaded (autoSaveEffect before after) = w_loaded after /\
  w_storage (autoSaveEffect before after) = w_storage after /\
  w_effects (autoSaveEffect before after) = w_effects after.
Proof.
  unfold autoSaveEffect. destruct (bool_decide _); [done|].
  destruct (w_loaded after) eqn:Hl, (dirty (w_state after)) eqn:Hd; cbn [negb]; done.
Qed.















(** ** The page driven by the controls of the view *)

Lemma control_path_data (c : control) :
  exists rest, control_path c = js "data." ++ rest /\ split DOT (control_path c) = js "data" :: split DOT rest.
Proof.
  destruct c;
    [exists (js "account.email")|exists (js "account.password")|exists (js "company.nameJa")
    |exists (js "company.nameEn")|exists (js "company.address")|exists (js "members.ceo")
    |exists (js "members.directors")|exists (js "docs.hankoReady")|exists (js "docs.bankCert")
    |exists (js "review.agree")];
    (split; [vm_compute; reflexivity|]); vm_compute; reflexivity.
Qed.

Lemma control_shown_section (c : control) :
  exists sec f, control_shown c = [sec; f] /\ sec <> js "data".
Proof.
  destruct c; eexists _, _; (split; [reflexivity|]); vm_compute; discriminate.
Qed.

Lemma get_prop_string (h : heap) (s k : jsstring) (y : value) :
  get_prop h (VStr s) k = Some y ->
  (exists n, y = VNum n) \/ y = VUndef \/ exists c, y = VStr [c].
Proof.
  cbn [get_prop]. case_decide; intros [= <-]; [left; eexists; reflexivity|].
  destruct (_ !! k) as [y|] eqn:Hy; simpl.
  - apply (spread_string_prim h) in Hy as [c ->]. right. right. eexists. reflexivity.
  - right. left. reflexivity.
Qed.

Lemma get_path_two (h : heap) (x : value) (a b : jsstring) (v : value) :
  get_path h x [a; b] = Some v ->
  exists y, get_prop h x a = Some y /\ get_prop h y b = Some v.
Proof.
  cbn [get_path]. destruct (get_prop h x a) as [y|]; [|discriminate].
  destruct (get_prop h y b) as [z|] eqn:Hz; [|discriminate].
  intros [= <-]. by exists y.
Qed.

Lemma form_untouched_ref (h : heap) (x : value) :
  form_untouched h x -> exists l, x = VRef l.
Proof.
  intros H. specialize (H account_email).
  apply get_path_two in H as (y & Hy & Hv).
  destruct x; try discriminate Hy; [| | |by eexists].
  - injection Hy as <-. discriminate Hv.
  - injection Hy as <-. discriminate Hv.
  - apply get_prop_string in Hy as [[n ->]|[->|[c ->]]]; discriminate Hv.
Qed.

Lemma form_untouched_stable (h0 h' : heap) (x : value) :
  heap_closed h0 -> (forall l, l < length h0 -> h' !! l = h0 !! l) ->
  val_in (length h0) x -> form_untouched h0 x -> form_untouched h' x.
Proof.
  intros Hh Hext Hx H c. rewrite (get_path_stable h0 h') by done. apply H.
Qed.

Lemma form_untouched_initial : form_untouched initialHeap initialDataRef.
Proof. intros c. destruct c; vm_compute; reflexivity. Qed.

Lemma observe_prim (x : option value) (v : value) :
  match v with VRef _ => False | _ => True end ->
  observe x = Some v -> x = Some v.
Proof. destruct x as [[]|], v; try done; by intros _ [= ->]. Qed.

Lemma control_default_prim (c : control) :
  match control_default c with VRef _ => False | _ => True end.
Proof. by destruct c. Qed.

Lemma view_ok_same (w w' : world) :
  view_ok w ->
  w_heap w' = w_heap w -> data (w_state w') = data (w_state w) ->
  w_timer w' = w_timer w -> w_storage w' = w_storage w ->
  view_ok w'.
Proof.
  intros (Hc & Hf & Ht & Hs) Hh Hd Htimer Hstorage. unfold view_ok.
  rewrite Hh, Hd, Htimer, Hstorage. split; [|done]. by eapply world_closed_same.
Qed.

Lemma view_ok_initial : view_ok initialWorld.
Proof.
  split; [exact initialWorld_closed|]. split; [exact form_untouched_initial|].
  split; intros ? H; discriminate H.
Qed.

Lemma reload_view (w : world) : view_ok w -> view_ok (reload w).
Proof.
  intros (_ & _ & _ & Hs).
  split; [apply reload_closed|]. split; [exact form_untouched_initial|].
  split; [intros ? H; discriminate H|exact Hs].
Qed.

Lemma removeItem_view (w : world) : view_ok w -> view_ok (removeItem w).
Proof.
  intros (Hc & Hf & Ht & _). split; [exact Hc|]. split; [exact Hf|]. split; [exact Ht|].
  intros doc H. discriminate H.
Qed.

(** The draft of a state whose form is untouched. *)
Lemma stringify_state_untouched (h : heap) (c : WizardState) (doc : document) :
  form_untouched h (data c) -> stringify_state h c = Some doc -> draft_untouched doc.
Proof.
  intros Hf Hdoc. destruct (form_untouched_ref _ _ Hf) as [l Hl].
  destruct (stringify_state_data h c l doc Hl Hdoc) as (j & Hj & Hstr).
  exists h, l, j. split; [done|]. split; [done|]. by rewrite <- Hl.
Qed.

Lemma saveDraft_view (c : WizardState) (opts : option reason) (e : env) (w : world) :
  view_ok w -> form_untouched (w_heap w) (data c) -> view_ok (saveDraft c opts e w).
Proof.
  intros Hw Hc. pose proof Hw as (Hcl & Hf & Ht & Hs).
  destruct (saveDraft_frame c opts e w) as (Hh & _ & Hd & _ & Htimer & _).
  destruct (saveDraft_storage c opts e w) as [Hst _].
  unfold view_ok. rewrite Hh, Hd, Htimer, Hst.
  split; [by apply saveDraft_closed|]. split; [done|]. split; [done|].
  destruct (stringify_state (w_heap w) c) as [doc|] eqn:Hdoc; [|done].
  destruct (quota_error e); [done|].
  intros doc' [= <-]. by apply (stringify_state_untouched (w_heap w) c).
Qed.

Lemma next_view (s : WizardState) (e : env) (w : world) : view_ok w -> view_ok (next s e w).
Proof.
  intros Hw. destruct (next_world s e w) as (Hh & Hs & _ & Ht & _ & _ & Hd & _).
  by eapply view_ok_same.
Qed.

Lemma prev_view (s : WizardState) (e : env) (w : world) : view_ok w -> view_ok (prev s e w).
Proof.
  intros Hw. destruct (prev_world s e w) as (Hh & Hs & _ & Ht & _ & _ & Hd & _).
  by eapply view_ok_same.
Qed.

(** A change through a path of the view leaves what the controls show. *)
Lemma onChange_view (c : control) (v : value) (e : env) (w : world) :
  val_in (length (w_heap w)) v ->
  view_ok w -> view_ok (onChange (control_path c) v e w).
Proof.
  intros Hv Hw. pose proof Hw as (Hcl & Hf & Ht & Hs). pose proof Hcl as (Hh & Hd & Htd).
  destruct (onChange_state (control_path c) v e w)
    as (Hheap & Hdata & _ & _ & _ & _ & Htimer & Hstorage & _).
  destruct (set_keys_extends (w_heap w) (data (w_state w)) (split DOT (control_path c)) v Hh Hv)
    as (Hh' & Hlen & Hext).
  split; [by apply dispatch_closed|].
  rewrite Htimer, Hstorage, Hheap.
  split; [|split; [|done]].
  - destruct (form_untouched_ref _ _ Hf) as [d Hdref].
    destruct (control_path_data c) as (rest & _ & Hsplit).
    intros c'. destruct (control_shown_section c') as (sec & f & Hshown & Hsec).
    unfold onChange. rewrite dispatch_state, data_of_change. cbn [snd data].
    rewrite Hsplit, Hdref, Hshown.
    rewrite set_keys_sibling by done.
    rewrite <- Hshown, <- Hdref. apply Hf.
  - intros c' Hc'. eapply form_untouched_stable; [exact Hh|exact Hext|by apply Htd|by apply Ht].
Qed.

(** Loading a draft of an untouched form gives an untouched form. *)
Lemma hydrate_untouched (now : jsstring) (doc : document) (h0 : heap) (t : WizardState) :
  heap_closed h0 -> draft_untouched doc ->
  form_untouched
    (reducer now (parse_document doc h0).1 t (HYDRATE (parse_document doc h0).2)).1
    (data (reducer now (parse_document doc h0).1 t (HYDRATE (parse_document doc h0).2)).2).
Proof.
  intros Hh0 (h & l & j & Hj & Hstr & Hform).
  unfold parse_document. rewrite Hj.
  pose proof (parse_stringify _ h (VRef l) j h0 Hstr Hh0)
    as (Hh1 & Hlen & Hext & Hy & Hsame & Hkeys).
  destruct (Hkeys l eq_refl) as (ly & Hly & Hnew & Hkey). clear Hkeys.
  destruct (parse j h0) as [h1 y]. cbn [fst snd] in *. subst y.
  erewrite reducer_hydrate_ref by reflexivity. cbn [fst snd data].
  intros c. destruct (control_shown_section c) as (sec & f & Hshown & _).
  pose proof (Hsame (control_shown c)) as Hc. rewrite (Hform c) in Hc.
  assert (Hprim : observe (Some (control_default c)) = Some (control_default c))
    by (by destruct c).
  rewrite Hprim in Hc. apply observe_prim in Hc; [|apply control_default_prim].
  rewrite Hshown in *. apply get_path_two in Hc as (y1 & Hy1 & Hv).
  cbn [get_prop] in Hy1. injection Hy1 as Hy1.
  assert (Hin : fields h1 ly !! sec = Some y1).
  { unfold get in Hy1. destruct (fields h1 ly !! sec) as [y'|]; [by subst|].
    cbn in Hy1. subst y1. discriminate Hv. }
  rewrite get_path_ref_cons. unfold get. rewrite fields_alloc_new.
  rewrite (lookup_union_Some_l _ _ _ _ Hin). cbn [default from_option id get_path].
  rewrite (get_prop_stable h1); [by rewrite Hv| |].
  - intros l0 Hl0. by apply lookup_alloc_old.
  - eapply fields_closed; eauto.
Qed.

Lemma loadDraft_view (e : env) (w : world) : view_ok w -> view_ok (loadDraft e w).
Proof.
  intros Hw. pose proof Hw as (Hcl & Hf & Ht & Hs). pose proof Hcl as (Hh & Hd & Htd).
  destruct (w_storage w) as [doc|] eqn:Hdoc.
  - split; [by apply loadDraft_closed|].
    destruct (loadDraft_world e w doc Hdoc) as (_ & Htimer & Hstorage & _ & Hstate).
    assert (Hheap : w_heap (loadDraft e w)
              = (reducer (now e) (parse_document doc (w_heap w)).1 (w_state w)
                   (HYDRATE (parse_document doc (w_heap w)).2)).1).
    { unfold loadDraft, dispatch. rewrite Hdoc.
      destruct (parse_document doc (w_heap w)) as [h parsed]. cbn [fst snd w_heap w_state].
      by destruct (reducer (now e) h (w_state w) (HYDRATE parsed)). }
    rewrite Htimer, Hstorage, Hstate, Hheap.
    split; [apply hydrate_untouched; [done|by apply Hs]|].
    split; [|intros doc' [= <-]; by apply Hs].
    intros c Hc.
    destruct (parse_document_extends doc (w_heap w) Hh) as (Hh1 & Hlen1 & Hext1 & Hp).
    destruct (reducer_extends (now e) (parse_document doc (w_heap w)).1 (w_state w)
                (HYDRATE (parse_document doc (w_heap w)).2) Hh1) as (_ & Hlen2 & Hext2 & _).
    { eapply val_in_mono; eauto. }
    { exact Hp. }
    eapply form_untouched_stable; [exact Hh| |by apply Htd|by apply Ht].
    intros l0 Hl0. rewrite Hext2 by lia. by apply Hext1.
  - eapply view_ok_same; [exact Hw|unfold loadDraft; by rewrite Hdoc..].
Qed.

Lemma autoSaveEffect_view (before after : world) :
  view_ok after -> view_ok (autoSaveEffect before after).
Proof.
  intros Hw. pose proof Hw as (Hcl & Hf & Ht & Hs). unfold autoSaveEffect.
  case_bool_decide; [done|].
  destruct (w_loaded after); [|done]. destruct (dirty (w_state after)); [|done].
  cbn [negb]. destruct Hcl as (Hh & Hd & _).
  split; [split; [exact Hh|split; [exact Hd|by intros c [= <-]]]|].
  split; [done|]. split; [|done]. by intros c [= <-].
Qed.

Lemma handle_view (e : env) (ev : event) (w w' : world) :
  match ev with Input _ _ => False | _ => True end ->
  view_ok w -> handle e ev w = Some w' -> view_ok w'.
Proof.
  intros Hev Hw. pose proof Hw as (Hcl & Hf & Ht & Hs).
  destruct ev as [|i| |path v| | | | |]; try done; cbn [handle].
  - destruct (w_loaded w); [discriminate|]. intros [= <-]. by apply loadDraft_view.
  - case_bool_decide; [|discriminate]. intros [= <-].
    destruct (dispatch_goto e (Z.of_nat i) w) as (? & ? & _ & _ & ?).
    by eapply view_ok_same.
  - destruct (_ =? 0)%Z; [discriminate|]. intros [= <-]. by apply prev_view.
  - destruct (saving _); [discriminate|]. intros [= <-]. by apply saveDraft_view.
  - unfold handleSaveAndContinue.
    destruct (validateCurrent _ _) as [[m|]|]; cbn [mbind option_bind]; [| |discriminate].
    + destruct (truthy (VStr m)); intros [= <-].
      * destruct (dispatch_error e (Some m) w) as (? & ? & _ & _ & ?).
        by eapply view_ok_same.
      * by apply next_view, saveDraft_view.
    + intros [= <-]. by apply next_view, saveDraft_view.
  - destruct (w_timer w) as [c|] eqn:Hc; [|discriminate]. intros [= <-].
    apply saveDraft_view; [|by apply Ht].
    split; [|split; [exact Hf|split; [intros ? H; discriminate H|exact Hs]]].
    destruct Hcl as (Hh & Hd & _). split; [exact Hh|]. split; [exact Hd|].
    intros ? H. discriminate H.
  - intros [= <-]. unfold resetAll. by apply reload_view, removeItem_view.
  - intros [= <-]. by apply reload_view.
Qed.

Lemma control_event_input (w : world) (c : control) (text : option jsstring) (ev : event) :
  control_event w c text = Some ev ->
  exists v, ev = Input (control_path c) v /\ match v with VStr _ | VBool _ => True | _ => False end.
Proof.
  unfold control_event. destruct (step_at _) as [st|]; [|discriminate]. cbn [mbind option_bind].
  case_decide; [|discriminate].
  destruct text as [s|], (is_toggle c); try discriminate.
  - intros [= <-]. by eexists.
  - destruct (get_path _ _ _) as [x|]; [|discriminate]. cbn. intros [= <-]. by eexists.
Qed.

Lemma shown_prop (h : heap) (d : loc) (c : control) (sec f : jsstring) :
  form_untouched h (VRef d) -> control_shown c = [sec; f] ->
  get_prop h (get h d sec) f = Some (control_default c).
Proof.
  intros Hf Hshown. specialize (Hf c). rewrite Hshown in Hf.
  apply get_path_two in Hf as (y & [= <-] & Hv). exact Hv.
Qed.

(** On an untouched form the first rule of every step fails. *)
Lemma validate_untouched (h : heap) (s : WizardState) :
  valid_index (currentIndex s) -> form_untouched h (data s) ->
  validateCurrent h s = Some (Some (first_message (currentIndex s))).
Proof.
  intros Hi Hf. destruct (form_untouched_ref _ _ Hf) as [d Hd]. rewrite Hd in Hf.
  pose proof (shown_prop h d account_email _ _ Hf eq_refl) as He.
  pose proof (shown_prop h d company_nameJa _ _ Hf eq_refl) as Hn.
  pose proof (shown_prop h d members_ceo _ _ Hf eq_refl) as Hc.
  pose proof (shown_prop h d docs_hankoReady _ _ Hf eq_refl) as Hk.
  pose proof (shown_prop h d review_agree _ _ Hf eq_refl) as Ha.
  unfold valid_index in Hi. change (Z.of_nat (length STEPS) - 1)%Z with 4%Z in Hi.
  unfold validateCurrent. rewrite Hd.
  assert (Hcases : (currentIndex s = 0 \/ currentIndex s = 1 \/ currentIndex s = 2 \/
                    currentIndex s = 3 \/ currentIndex s = 4)%Z) by lia.
  destruct Hcases as [->|[->|[->|[->| ->]]]].
  - change (step_at 0) with (STEPS !! 0). cbn [STEPS lookup list_lookup mbind option_bind key].
    rewrite decide_True by reflexivity.
    cbn [get_prop mbind option_bind]. rewrite He. vm_compute. reflexivity.
  - change (step_at 1) with (STEPS !! 1). cbn [STEPS lookup list_lookup mbind option_bind key].
    rewrite decide_False by (vm_compute; discriminate).
    rewrite decide_True by reflexivity.
    cbn [get_prop mbind option_bind]. rewrite Hn. vm_compute. reflexivity.
  - change (step_at 2) with (STEPS !! 2). cbn [STEPS lookup list_lookup mbind option_bind key].
    rewrite !decide_False by (vm_compute; discriminate).
    rewrite decide_True by reflexivity.
    cbn [get_prop mbind option_bind]. rewrite Hc. vm_compute. reflexivity.
  - change (step_at 3) with (STEPS !! 3). cbn [STEPS lookup list_lookup mbind option_bind key].
    rewrite !decide_False by (vm_compute; discriminate).
    rewrite decide_True by reflexivity.
    cbn [get_prop mbind option_bind]. rewrite Hk. vm_compute. reflexivity.
  - change (step_at 4) with (STEPS !! 4). cbn [STEPS lookup list_lookup mbind option_bind key].
    rewrite !decide_False by (vm_compute; discriminate).
    rewrite decide_True by reflexivity.
    cbn [get_prop mbind option_bind]. rewrite Ha. vm_compute. reflexivity.
Qed.

(** ** The progress bar *)

Lemma progress_index (s : WizardState) (i : Z) :
  currentIndex s = i ->
  progress s = Math_round
    (SFmul prec emax
       (SFdiv prec emax (SFadd prec emax (number i) (number 1))
          (number (Z.of_nat (length STEPS))))
       (number 100)).
Proof. by intros <-. Qed.

(** ** The render behind a pending timer *)

Lemma timer_current_quiet (w w1 : world) :
  timer_current w ->
  data (w_state w1) = data (w_state w) -> w_loaded w1 = w_loaded w ->
  w_timer w1 = w_timer w -> timer_current w1.
Proof. unfold timer_current. by intros H -> -> ->. Qed.

Lemma timer_current_none (w : world) : w_timer w = None -> timer_current w.
Proof. intros Ht. split; [done|]. intros c Hc. congruence. Qed.

Lemma autoSaveEffect_cases (before after : world) :
  autoSaveEffect before after = after \/
  (w_loaded after = true /\
   autoSaveEffect before after = set_timer (Some (w_state after)) after).
Proof.
  unfold autoSaveEffect. destruct (bool_decide _); [by left|].
  destruct (w_loaded after); [|by left].
  destruct (dirty (w_state after)); [by right|by left].
Qed.

Lemma autoSaveEffect_unloaded (before after : world) :
  w_loaded after = false -> autoSaveEffect before after = after.
Proof.
  intros Hl. destruct (autoSaveEffect_cases before after) as [->|[Hl' _]]; [done|congruence].
Qed.

Lemma timer_current_armed (w : world) :
  w_loaded w = true -> timer_current (set_timer (Some (w_state w)) w).
Proof.
  intros Hl. split; cbn [set_timer w_loaded w_timer w_state]; [congruence|].
  by intros c [= <-].
Qed.

Lemma fire_timer_current (e : env) (ev : event) (w w' : world) :
  world_closed w -> timer_current w -> fire e ev w = Some w' -> timer_current w'.
Proof.
  intros Hcl Hw Hf. pose proof Hw as [Hnone Hdata].
  assert (Hclick : match ev with
                   | ClickStep _ | ClickPrev | ClickSave | ClickSaveAndContinue => True
                   | _ => False
                   end -> timer_current w').
  { intros Hev. unfold fire in Hf. destruct (handle e ev w) as [w1|] eqn:Hh; [|discriminate].
    cbn in Hf. injection Hf as <-.
    destruct (handle_click e ev w w1 Hev Hh) as (_ & Hd & Hl & Ht & Hdirty).
    rewrite autoSaveEffect_quiet by done. by eapply timer_current_quiet. }
  destruct ev as [|i| |path v| | | | |]; try (by apply Hclick).
  - (* the mount effect: no timer was pending *)
    unfold fire in Hf. cbn [handle] in Hf.
    destruct (w_loaded w) eqn:Hl; [discriminate|]. cbn in Hf. injection Hf as <-.
    assert (Ht : w_timer (loadDraft e w) = None).
    { rewrite <- (Hnone eq_refl). destruct (w_storage w) as [doc|] eqn:Hs.
      - by destruct (loadDraft_world e w doc Hs) as (_ & -> & _).
      - unfold loadDraft. by rewrite Hs. }
    destruct (autoSaveEffect_cases w (loadDraft e w)) as [->|[Hl' ->]].
    + by apply timer_current_none.
    + by apply timer_current_armed.
  - (* a change *)
    destruct (w_loaded w) eqn:Hl.
    + rewrite (fire_input e path v w w' Hcl Hl Hf). apply timer_current_armed.
      destruct (onChange_state path v e w) as (_ & _ & _ & _ & _ & -> & _). exact Hl.
    + unfold fire in Hf. cbn [handle] in Hf.
      assert (Hsame : autoSaveEffect w (onChange path v e w) = onChange path v e w).
      { destruct (autoSaveEffect_cases w (onChange path v e w)) as [->|[Hl' _]]; [done|].
        destruct (onChange_state path v e w) as (_ & _ & _ & _ & _ & Hl1 & _). congruence. }
      assert (Ht : w_timer (onChange path v e w) = None).
      { destruct (onChange_state path v e w) as (_ & _ & _ & _ & _ & _ & -> & _).
        by apply Hnone. }
      assert (Hw' : w' = autoSaveEffect w (onChange path v e w)).
      { destruct v; try discriminate Hf; cbn [mbind option_bind] in Hf; by injection Hf. }
      rewrite Hw', Hsame. by apply timer_current_none.
  - (* the timer fires *)
    apply fire_timer in Hf as (c & _ & ->). apply timer_current_none.
    by destruct (saveDraft_frame c (Some autosave) e (set_timer None w))
      as (_ & _ & _ & _ & -> & _).
  - unfold fire in Hf. cbn [handle mbind option_bind] in Hf. injection Hf as <-.
    rewrite autoSaveEffect_unloaded by done. by apply timer_current_none.
  - unfold fire in Hf. cbn [handle mbind option_bind] in Hf. injection Hf as <-.
    rewrite autoSaveEffect_unloaded by done. by apply timer_current_none.
Qed.

(** ** The rules of the other steps *)

(** X20: the rules of the steps after the first, on data of the types that
    [WizardState] declares. The company step asks for a Japanese name and
    then for an address, each failing only when empty; the members step for
    a representative; the docs step for the seal flag and the review step
    for the agreement flag. The first rule that fails gives the message. *)
Theorem validate_later_steps (h : heap) (s : WizardState) :
  (currentIndex s = 1%Z ->
   forall nameJa address : jsstring,
     get_path h (data s) [js "company"; js "nameJa"] = Some (VStr nameJa) ->
     get_path h (data s) [js "company"; js "address"] = Some (VStr address) ->
     validateCurrent h s =
       Some (if bool_decide (nameJa = []) then Some (js "商号（日本語）は必須です")
             else if bool_decide (address = []) then Some (js "本店所在地は必須です")
             else None)) /\
  (currentIndex s = 2%Z ->
   forall ceo : jsstring,
     get_path h (data s) [js "members"; js "ceo"] = Some (VStr ceo) ->
     validateCurrent h s =
       Some (if bool_decide (ceo = []) then Some (js "代表者氏名は必須です") else None)) /\
  (currentIndex s = 3%Z ->
   forall hankoReady : bool,
     get_path h (data s) [js "docs"; js "hankoReady"] = Some (VBool hankoReady) ->
     validateCurrent h s =
       Some (if hankoReady then None else Some (js "印鑑の準備を完了してください"))) /\
  (currentIndex s = 4%Z ->
   forall agree : bool,
     get_path h (data s) [js "review"; js "agree"] = Some (VBool agree) ->
     validateCurrent h s = Some (if agree then None else Some (js "規約同意が必要です"))).
Proof.
  split; [|split; [|split]].
  - intros Hi nameJa address (y & Hy & Hn)%get_path_two (y' & Hy' & Ha)%get_path_two.
    rewrite Hy in Hy'. injection Hy' as <-.
    unfold validateCurrent. rewrite Hi.
    change (step_at 1) with (STEPS !! 1). cbn [STEPS lookup list_lookup mbind option_bind key].
    rewrite decide_False by (vm_compute; discriminate).
    rewrite decide_True by reflexivity.
    rewrite Hy. cbn [mbind option_bind]. rewrite Hn. cbn [mbind option_bind truthy].
    destruct (bool_decide (nameJa = [])); cbn [negb]; [done|].
    rewrite Ha. cbn [mbind option_bind truthy].
    by destruct (bool_decide (address = [])).
  - intros Hi ceo (y & Hy & Hc)%get_path_two.
    unfold validateCurrent. rewrite Hi.
    change (step_at 2) with (STEPS !! 2). cbn [STEPS lookup list_lookup mbind option_bind key].
    rewrite !decide_False by (vm_compute; discriminate).
    rewrite decide_True by reflexivity.
    rewrite Hy. cbn [mbind option_bind]. rewrite Hc. cbn [mbind option_bind truthy].
    by destruct (bool_decide (ceo = [])).
  - intros Hi b (y & Hy & Hb)%get_path_two.
    unfold validateCurrent. rewrite Hi.
    change (step_at 3) with (STEPS !! 3). cbn [STEPS lookup list_lookup mbind option_bind key].
    rewrite !decide_False by (vm_compute; discriminate).
    rewrite decide_True by reflexivity.
    rewrite Hy. cbn [mbind option_bind]. rewrite Hb. cbn [mbind option_bind truthy].
    by destruct b.
  - intros Hi b (y & Hy & Hb)%get_path_two.
    unfold validateCurrent. rewrite Hi.
    change (step_at 4) with (STEPS !! 4). cbn [STEPS lookup list_lookup mbind option_bind key].
    rewrite !decide_False by (vm_compute; discriminate).
    rewrite decide_True by reflexivity.
    rewrite Hy. cbn [mbind option_bind]. rewrite Hb. cbn [mbind option_bind truthy].
    by destruct b.
Qed.

Lemma validate_later_steps_witness :
  currentIndex company_step = 1%Z /\
  get_path initialHeap (data company_step) [js "company"; js "nameJa"] = Some (VStr []) /\
  get_path initialHeap (data company_step) [js "company"; js "address"] = Some (VStr []) /\
  validateCurrent initialHeap company_step = Some (Some (js "商号（日本語）は必須です")).
Proof.
  assert (Hn : get_path initialHeap (data company_step) [js "company"; js "nameJa"]
               = Some (VStr [])) by (vm_compute; reflexivity).
  assert (Ha : get_path initialHeap (data company_step) [js "company"; js "address"]
               = Some (VStr [])) by (vm_compute; reflexivity).
  split; [reflexivity|]. split; [exact Hn|]. split; [exact Ha|].
  exact (proj1 (validate_later_steps initialHeap company_step) eq_refl [] [] Hn Ha).
Defined.

(** * The page while saves are in flight *)

(** ** The two halves of a save *)

(** Run one after the other, in one environment, the halves are
    [saveDraft]. *)
Lemma saveDraft_halves (state : WizardState) (opts : option reason) (e : env) (w : world) :
  saveDraft state opts e w =
    match saveDraft_begin state e w with
    | (w1, Some m) => saveDraft_end opts (Some m) e w1
    | (w1, None) => saveDraft_resume opts e w1
    end.
Proof.
  unfold saveDraft, saveDraft_begin, saveDraft_resume, saveDraft_end.
  destruct (stringify_state _ _) as [doc|]; [|reflexivity].
  destruct (quota_error e) as [m|]; [reflexivity|].
  by destruct (fakeSaveToServer (random_below e)) as [m|[]].
Qed.

Ltac unfold_halves :=
  unfold saveDraft_begin, saveDraft_resume, saveDraft_end, dispatch, setItem, log; simpl_save;
  rewrite ?stringify_state_eta.

Lemma saveDraft_begin_step (c : WizardState) (e : env) (w : world) :
  save_step c w (saveDraft_begin c e w).1.
Proof.
  unfold save_step. unfold_halves.
  destruct (stringify_state (w_heap w) c) as [doc|] eqn:Hdoc; [|simpl_save; tauto].
  destruct (quota_error e); simpl_save; [tauto|].
  do 5 (split; [reflexivity|]). right. by exists doc.
Qed.

Lemma saveDraft_begin_state (c : WizardState) (e : env) (w : world) :
  saving (w_state (saveDraft_begin c e w).1) = true /\
  error (w_state (saveDraft_begin c e w).1) = None /\
  dirty (w_state (saveDraft_begin c e w).1) = dirty (w_state w) /\
  savedAt (w_state (saveDraft_begin c e w).1) = savedAt (w_state w) /\
  (saveDraft_begin c e w).2 = local_failure (w_heap w) c e /\
  w_storage (saveDraft_begin c e w).1 =
    match stringify_state (w_heap w) c, quota_error e with
    | Some doc, None => Some doc
    | _, _ => w_storage w
    end /\
  w_effects (saveDraft_begin c e w).1 =
    match stringify_state (w_heap w) c, quota_error e with
    | Some doc, None => w_effects w ++ [SetItem doc; RemoteSave (currentIndex c) (data c)]
    | _, _ => w_effects w
    end.
Proof.
  unfold local_failure. unfold_halves.
  destruct (stringify_state (w_heap w) c) as [doc|]; [|simpl_save; tauto].
  destruct (quota_error e); simpl_save; rewrite <- ?app_assoc; tauto.
Qed.

Lemma saveDraft_end_step (c : WizardState) (opts : option reason) (thrown : option jsstring)
    (e : env) (w : world) :
  save_step c w (saveDraft_end opts thrown e w).
Proof.
  unfold save_step. unfold_halves. destruct thrown, opts as [[|]|]; simpl_save; tauto.
Qed.

Lemma saveDraft_end_state (opts : option reason) (thrown : option jsstring) (e : env)
    (w : world) :
  saving (w_state (saveDraft_end opts thrown e w)) = false /\
  dirty (w_state (saveDraft_end opts thrown e w)) =
    (if bool_decide (opts = Some manual) then false else dirty (w_state w)) /\
  error (w_state (saveDraft_end opts thrown e w)) =
    match thrown with Some m => Some (shown_message m) | None => error (w_state w) end /\
  savedAt (w_state (saveDraft_end opts thrown e w)) = savedAt (w_state w) /\
  w_storage (saveDraft_end opts thrown e w) = w_storage w /\
  w_effects (saveDraft_end opts thrown e w) = w_effects w.
Proof.
  unfold shown_message. unfold_halves. destruct thrown, opts as [[|]|]; simpl_save; tauto.
Qed.

Lemma saveDraft_resume_step (c : WizardState) (opts : option reason) (e : env) (w : world) :
  save_step c w (saveDraft_resume opts e w).
Proof.
  unfold save_step. unfold_halves. destruct (random_below e), opts as [[|]|]; simpl_save; tauto.
Qed.

Lemma saveDraft_resume_state (opts : option reason) (e : env) (w : world) :
  saving (w_state (saveDraft_resume opts e w)) = false /\
  dirty (w_state (saveDraft_resume opts e w)) =
    (if bool_decide (opts = Some manual) || negb (random_below e)
     then false else dirty (w_state w)) /\
  error (w_state (saveDraft_resume opts e w)) =
    (if random_below e then Some (js "ネットワークエラー") else error (w_state w)) /\
  savedAt (w_state (saveDraft_resume opts e w)) =
    (if random_below e then savedAt (w_state w) else Some (now e)) /\
  w_storage (saveDraft_resume opts e w) = w_storage w /\
  w_effects (saveDraft_resume opts e w) = w_effects w.
Proof.
  unfold_halves. destruct (random_below e), opts as [[|]|]; simpl_save;
    rewrite ?network_error_truthy; tauto.
Qed.

(** What [continue] leaves alone. *)
Lemma continue_world (k : option WizardState) (e : env) (w : world) :
  w_heap (continue k e w) = w_heap w /\ w_storage (continue k e w) = w_storage w /\
  w_effects (continue k e w) = w_effects w /\ w_timer (continue k e w) = w_timer w /\
  w_loaded (continue k e w) = w_loaded w /\
  dirty (w_state (continue k e w)) = dirty (w_state w) /\
  data (w_state (continue k e w)) = data (w_state w).
Proof.
  destruct k as [s|]; cbn [continue]; [|done].
  destruct (next_world s e w) as (? & ? & ? & ? & ? & ? & ? & _). done.
Qed.

(** The shape of a step of the page: a handler that awaits nothing, which
    [handle] describes as well, or a part of a save followed by what
    awaited it. [c] is the render whose [saveDraft] writes to the storage,
    if the step writes to it. *)
Lemma start_save_shape (c : WizardState) (opts : option reason) (k : option WizardState)
    (e : env) (w0 : world) (saves : list pending) :
  exists w1 k',
    save_step c w0 w1 /\ pg_world (start_save c opts k e w0 saves) = continue k' e w1 /\
    (k' = None \/ k' = k) /\
    (forall s, s ∈ pg_saves (start_save c opts k e w0 saves) -> s ∈ saves \/ s_then s = k).
Proof.
  unfold start_save. pose proof (saveDraft_begin_step c e w0) as Hb.
  destruct (saveDraft_begin c e w0) as [w1 [m|]]; cbn [fst] in Hb.
  - exists (saveDraft_end opts (Some m) e w1), k. cbn [pg_world pg_saves].
    split; [|split; [done|split; [by right|by left]]].
    destruct (saveDraft_end_step c opts (Some m) e w1) as (Hh & Hi & Hd & Hl & Ht & _).
    destruct (saveDraft_end_state opts (Some m) e w1) as (_ & _ & _ & _ & Hst & _).
    destruct Hb as (Hh' & Hi' & Hd' & Hl' & Ht' & Hs').
    unfold save_step. rewrite Hh, Hi, Hd, Hl, Ht, Hst. done.
  - exists w1, None. cbn [pg_world pg_saves continue].
    split; [done|]. split; [done|]. split; [by left|].
    intros s [Hs|Hs]%elem_of_app; [by left|]. apply list_elem_of_singleton in Hs as ->. by right.
Qed.

Lemma page_handle_shape (e : env) (pe : page_event) (p p' : page) :
  page_handle e pe p = Some p' ->
  (forall s, s ∈ pg_saves p' ->
     s ∈ pg_saves p \/ s_then s = None \/ s_then s = Some (w_state (pg_world p))) /\
  ((exists ev, pe = Page ev /\ handle e ev (pg_world p) = Some (pg_world p') /\
      match ev with ClickSave | TimerFires => False | _ => True end) \/
   (exists c w0 w1 k,
      (w0 = pg_world p /\ c = w_state (pg_world p) \/
       w0 = set_timer None (pg_world p) /\ w_timer (pg_world p) = Some c) /\
      save_step c w0 w1 /\ pg_world p' = continue k e w1 /\
      (k = None \/ k = Some (w_state (pg_world p)) \/
       exists s, s ∈ pg_saves p /\ s_then s = k))).
Proof.
  destruct p as [w saves]. cbn [pg_world pg_saves].
  assert (Hstart : forall c opts k w0,
            (w0 = w /\ c = w_state w \/ w0 = set_timer None w /\ w_timer w = Some c) ->
            (k = None \/ k = Some (w_state w)) ->
            Some (start_save c opts k e w0 saves) = Some p' ->
            (forall s, s ∈ pg_saves p' ->
               s ∈ saves \/ s_then s = None \/ s_then s = Some (w_state w)) /\
            ((exists ev, pe = Page ev /\ handle e ev w = Some (pg_world p') /\
                match ev with ClickSave | TimerFires => False | _ => True end) \/
             (exists c w0 w1 k,
                (w0 = w /\ c = w_state w \/
                 w0 = set_timer None w /\ w_timer w = Some c) /\
                save_step c w0 w1 /\ pg_world p' = continue k e w1 /\
                (k = None \/ k = Some (w_state w) \/
                 exists s, s ∈ saves /\ s_then s = k)))).
  { intros c opts k w0 Hw0 Hk [= <-].
    destruct (start_save_shape c opts k e w0 saves) as (w1 & k' & Hstep & Hw' & Hk' & Hs).
    split.
    - intros s [?| ->]%Hs; [by left|]. right. tauto.
    - right. exists c, w0, w1, k'. split; [done|]. split; [done|]. split; [done|].
      destruct Hk' as [->| ->]; [by left|]. destruct Hk as [->| ->]; tauto. }
  assert (Hplain : forall ev w',
            pe = Page ev -> match ev with ClickSave | TimerFires => False | _ => True end ->
            handle e ev w = Some w' ->
            forall saves', (saves' = saves \/ saves' = []) ->
            Some {| pg_world := w'; pg_saves := saves' |} = Some p' ->
            (forall s, s ∈ pg_saves p' ->
               s ∈ saves \/ s_then s = None \/ s_then s = Some (w_state w)) /\
            ((exists ev, pe = Page ev /\ handle e ev w = Some (pg_world p') /\
                match ev with ClickSave | TimerFires => False | _ => True end) \/
             (exists c w0 w1 k,
                (w0 = w /\ c = w_state w \/
                 w0 = set_timer None w /\ w_timer w = Some c) /\
                save_step c w0 w1 /\ pg_world p' = continue k e w1 /\
                (k = None \/ k = Some (w_state w) \/
                 exists s, s ∈ saves /\ s_then s = k)))).
  { intros ev w' -> Hev Hh saves' Hsaves [= <-]. cbn [pg_world pg_saves]. split.
    - intros s Hs. destruct Hsaves as [->| ->]; [by left|]. by apply elem_of_nil in Hs.
    - left. by exists ev. }
  destruct pe as [ev|]; cbn [page_handle pg_world pg_saves].
  - destruct ev as [|i| |path v| | | | |].
    + destruct (handle e Mount w) as [w'|] eqn:Hh; [|discriminate]. cbn [mbind option_bind].
      exact (Hplain Mount w' eq_refl I Hh saves (or_introl eq_refl)).
    + destruct (handle e (ClickStep i) w) as [w'|] eqn:Hh; [|discriminate].
      cbn [mbind option_bind].
      exact (Hplain (ClickStep i) w' eq_refl I Hh saves (or_introl eq_refl)).
    + destruct (handle e ClickPrev w) as [w'|] eqn:Hh; [|discriminate].
      cbn [mbind option_bind].
      exact (Hplain ClickPrev w' eq_refl I Hh saves (or_introl eq_refl)).
    + destruct (handle e (Input path v) w) as [w'|] eqn:Hh; [|discriminate].
      cbn [mbind option_bind].
      exact (Hplain (Input path v) w' eq_refl I Hh saves (or_introl eq_refl)).
    + destruct (saving (w_state w)); [discriminate|]. apply Hstart; auto.
    + destruct (validateCurrent (w_heap w) (w_state w)) as [[m|]|] eqn:Hv;
        cbn [mbind option_bind]; [| |discriminate].
      * destruct (truthy (VStr m)) eqn:Hm; [|apply Hstart; auto].
        apply (Hplain ClickSaveAndContinue _ eq_refl I); [|by left].
        cbn [handle]. unfold handleSaveAndContinue. rewrite Hv. cbn [mbind option_bind].
        by rewrite Hm.
      * apply Hstart; auto.
    + destruct (w_timer w) as [c|] eqn:Hc; [|discriminate]. apply Hstart; auto.
    + exact (Hplain ClickReset _ eq_refl I eq_refl [] (or_intror eq_refl)).
    + exact (Hplain Reload _ eq_refl I eq_refl [] (or_intror eq_refl)).
  - destruct saves as [|s rest]; [discriminate|]. intros [= <-]. cbn [pg_world pg_saves].
    split; [intros s' Hs'; left; by apply list_elem_of_further|].
    right. exists (w_state w), w, (saveDraft_resume (s_opts s) e w), (s_then s).
    split; [by left|]. split; [apply saveDraft_resume_step|]. split; [done|].
    right. right. exists s. split; [apply list_elem_of_here|done].
Qed.

(** ** The index stays within the step list *)

Lemma save_step_ok (c : WizardState) (w w1 : world) :
  world_ok w -> valid_index (currentIndex c) -> save_step c w w1 -> world_ok w1.
Proof.
  intros (Hi & Ht & Hs) Hc (_ & Hi1 & _ & _ & Ht1 & Hs1). unfold world_ok.
  rewrite Hi1, Ht1. split; [done|]. split; [done|].
  destruct Hs1 as [-> |(doc & Hdoc & ->)]; [done|].
  intros doc' [= <-]. apply stringify_state_fields in Hdoc as (-> & _). done.
Qed.

Lemma continue_ok (k : option WizardState) (e : env) (w : world) :
  world_ok w -> (forall c, k = Some c -> valid_index (currentIndex c)) ->
  world_ok (continue k e w).
Proof. intros Hw Hk. destruct k as [c|]; [|done]. apply next_ok; [done|]. by apply Hk. Qed.

Lemma page_handle_ok (e : env) (pe : page_event) (p p' : page) :
  page_ok p -> page_handle e pe p = Some p' -> page_ok p'.
Proof.
  intros [Hw Hsaves] Hh. rewrite list.Forall_forall in Hsaves.
  destruct (page_handle_shape e pe p p' Hh) as [Hs Hshape].
  split.
  - destruct Hshape as [(ev & -> & Hev & _)|(c & w0 & w1 & k & Horigin & Hstep & -> & Hk)].
    + by eapply handle_ok.
    + apply continue_ok.
      * destruct Hw as (Hi & Ht & Hst).
        destruct Horigin as [[-> ->]|[-> Hc]].
        -- exact (save_step_ok _ _ _ (conj Hi (conj Ht Hst)) Hi Hstep).
        -- eapply save_step_ok; [|by apply (Ht c)|exact Hstep].
           split; [done|]. split; [intros ? H; discriminate H|done].
      * intros c' ->. destruct Hk as [Hk|[[= ->]|(s & Hin & Hk)]]; [discriminate|exact (proj1 Hw)|].
        by eapply Hsaves.
  - rewrite list.Forall_forall. intros s [Hin|[Hn|Hn]]%Hs c Hc.
    + by eapply Hsaves.
    + congruence.
    + rewrite Hn in Hc. injection Hc as <-. exact (proj1 Hw).
Qed.

Lemma page_fire_ok (e : env) (pe : page_event) (p p' : page) :
  page_ok p -> page_fire e pe p = Some p' -> page_ok p'.
Proof.
  intros Hp. unfold page_fire.
  destruct (page_handle e pe p) as [p1|] eqn:Hh; [|discriminate].
  cbn [mbind option_bind]. intros [= <-].
  destruct (page_handle_ok e pe p p1 Hp Hh) as [Hw Hs].
  split; [by apply autoSaveEffect_ok|done].
Qed.

Lemma page_reachable_ok (p : page) : page_reachable p -> page_ok p.
Proof.
  induction 1 as [|e pe p p' _ IH Hf]; [|by eapply page_fire_ok].
  split; [|apply Forall_nil_2].
  split; [unfold valid_index; cbn; lia|]. split; [done|done].
Qed.

(** ** Pages without dangling references *)

Lemma save_step_closed (c : WizardState) (w w1 : world) :
  world_closed w -> save_step c w w1 -> world_closed w1.
Proof. intros Hw (Hh & _ & Hd & _ & Ht & _). by eapply world_closed_same. Qed.

Lemma continue_closed (k : option WizardState) (e : env) (w : world) :
  world_closed w -> world_closed (continue k e w).
Proof. intros Hw. destruct k; [by apply next_closed|done]. Qed.

Lemma set_timer_none_closed (w : world) : world_closed w -> world_closed (set_timer None w).
Proof. intros (Hh & Hd & _). split; [done|]. split; [done|]. intros ? H. discriminate H. Qed.

Lemma page_fire_closed (e : env) (pe : page_event) (p p' : page) :
  world_closed (pg_world p) -> page_fire e pe p = Some p' -> world_closed (pg_world p').
Proof.
  intros Hw. unfold page_fire.
  destruct (page_handle e pe p) as [p1|] eqn:Hh; [|discriminate].
  cbn [mbind option_bind]. intros [= <-]. cbn [pg_world]. apply autoSaveEffect_closed.
  destruct (page_handle_shape e pe p p1 Hh)
    as [_ [(ev & -> & Hev & _)|(c & w0 & w1 & k & Horigin & Hstep & -> & _)]].
  - by eapply handle_closed.
  - apply continue_closed. eapply save_step_closed; [|exact Hstep].
    destruct Horigin as [[-> _]|[-> _]]; [done|by apply set_timer_none_closed].
Qed.

Lemma page_reachable_closed (p : page) : page_reachable p -> world_closed (pg_world p).
Proof.
  induction 1 as [|e pe p p' _ IH Hf]; [exact initialWorld_closed|by eapply page_fire_closed].
Qed.

(** ** Runs in which nothing happens during a remote call *)

Lemma autoSaveEffect_before (before before' after : world) :
  data (w_state before') = data (w_state before) ->
  dirty (w_state before') = dirty (w_state before) ->
  w_loaded before' = w_loaded before ->
  autoSaveEffect before' after = autoSaveEffect before after.
Proof. unfold autoSaveEffect. by intros -> -> ->. Qed.

(** A save that is started and, in the same environment, resumed before
    anything else happens is the save of [handle]. *)
Lemma start_save_returns (c : WizardState) (opts : option reason) (k : option WizardState)
    (e : env) (w w0 : world) :
  data (w_state w0) = data (w_state w) -> dirty (w_state w0) = dirty (w_state w) ->
  w_loaded w0 = w_loaded w ->
  let p1 := start_save c opts k e w0 [] in
  let w' := autoSaveEffect w (continue k e (saveDraft c opts e w0)) in
  (pg_saves p1 = [] /\ autoSaveEffect w (pg_world p1) = w') \/
  (page_fire e RemoteReturns
     {| pg_world := autoSaveEffect w (pg_world p1); pg_saves := pg_saves p1 |}
   = Some {| pg_world := w'; pg_saves := [] |}).
Proof.
  intros Hd Hdirty Hl. cbn zeta. rewrite saveDraft_halves. unfold start_save.
  pose proof (saveDraft_begin_step c e w0) as (_ & _ & Hd1 & Hl1 & _).
  pose proof (saveDraft_begin_state c e w0) as (_ & _ & Hdirty1 & _).
  destruct (saveDraft_begin c e w0) as [w1 [m|]]; cbn [fst pg_world pg_saves] in *;
    [by left|right].
  rewrite (autoSaveEffect_quiet w w1) by (rewrite ?Hd1, ?Hl1, ?Hdirty1; auto).
  unfold page_fire. cbn [page_handle pg_world pg_saves app mbind option_bind s_opts s_then].
  f_equal. f_equal. apply autoSaveEffect_before; congruence.
Qed.

Lemma page_fire_step (e : env) (pe : page_event) (p p' : page) :
  page_reachable p -> page_fire e pe p = Some p' -> page_reachable p'.
Proof. intros Hp Hf. by eapply page_step. Qed.

Lemma fire_page (e : env) (ev : event) (w w' : world) :
  page_reachable {| pg_world := w; pg_saves := [] |} -> fire e ev w = Some w' ->
  page_reachable {| pg_world := w'; pg_saves := [] |}.
Proof.
  intros Hp Hf. unfold fire in Hf.
  destruct (handle e ev w) as [w1|] eqn:Hh; [|discriminate].
  cbn [mbind option_bind] in Hf. injection Hf as <-.
  assert (Hplain : page_handle e (Page ev) {| pg_world := w; pg_saves := [] |}
                   = Some {| pg_world := w1; pg_saves := [] |} ->
                   page_reachable {| pg_world := autoSaveEffect w w1; pg_saves := [] |}).
  { intros Hpage. apply (page_fire_step e (Page ev) _ _ Hp). unfold page_fire.
    by rewrite Hpage. }
  assert (Hsave : forall c opts k w0,
            data (w_state w0) = data (w_state w) -> dirty (w_state w0) = dirty (w_state w) ->
            w_loaded w0 = w_loaded w ->
            page_handle e (Page ev) {| pg_world := w; pg_saves := [] |}
            = Some (start_save c opts k e w0 []) ->
            w1 = continue k e (saveDraft c opts e w0) ->
            page_reachable {| pg_world := autoSaveEffect w w1; pg_saves := [] |}).
  { intros c opts k w0 Hd Hdirty Hl Hpage ->.
    assert (H1 : page_reachable
                   {| pg_world := autoSaveEffect w (pg_world (start_save c opts k e w0 []));
                      pg_saves := pg_saves (start_save c opts k e w0 []) |}).
    { apply (page_fire_step e (Page ev) _ _ Hp). unfold page_fire. by rewrite Hpage. }
    destruct (start_save_returns c opts k e w w0 Hd Hdirty Hl) as [[Hs Hw]|Hret].
    - by rewrite Hs, Hw in H1.
    - by apply (page_fire_step e RemoteReturns _ _ H1). }
  destruct ev as [|i| |path v| | | | |]; cbn [handle] in Hh.
  - apply Hplain. cbn [page_handle pg_world pg_saves handle]. by rewrite Hh.
  - apply Hplain. cbn [page_handle pg_world pg_saves handle]. by rewrite Hh.
  - apply Hplain. cbn [page_handle pg_world pg_saves handle]. by rewrite Hh.
  - apply Hplain. cbn [page_handle pg_world pg_saves handle]. by rewrite Hh.
  - destruct (saving (w_state w)) eqn:Hs; [discriminate|]. injection Hh as <-.
    apply (Hsave (w_state w) (Some manual) None w); try done.
    cbn [page_handle pg_world pg_saves]. by rewrite Hs.
  - unfold handleSaveAndContinue in Hh.
    destruct (validateCurrent (w_heap w) (w_state w)) as [[m|]|] eqn:Hv;
      cbn [mbind option_bind] in Hh; [| |discriminate].
    + destruct (truthy (VStr m)) eqn:Hm; injection Hh as <-.
      * apply Hplain. cbn [page_handle pg_world pg_saves]. rewrite Hv.
        cbn [mbind option_bind]. by rewrite Hm.
      * apply (Hsave (w_state w) (Some manual) (Some (w_state w)) w); try done.
        cbn [page_handle pg_world pg_saves]. rewrite Hv. cbn [mbind option_bind].
        by rewrite Hm.
    + injection Hh as <-.
      apply (Hsave (w_state w) (Some manual) (Some (w_state w)) w); try done.
      cbn [page_handle pg_world pg_saves]. by rewrite Hv.
  - destruct (w_timer w) as [c|] eqn:Hc; [|discriminate]. injection Hh as <-.
    apply (Hsave c (Some autosave) None (set_timer None w)); try done.
    cbn [page_handle pg_world pg_saves]. by rewrite Hc.
  - injection Hh as <-. apply Hplain. reflexivity.
  - injection Hh as <-. apply Hplain. reflexivity.
Qed.

(** Every world of the runs above is the world of a page with no save in
    flight. *)
Lemma reachable_page (w : world) :
  reachable w -> page_reachable {| pg_world := w; pg_saves := [] |}.
Proof.
  induction 1 as [|e ev w w' _ IH Hf]; [apply page_initial|by eapply fire_page].
Qed.

Lemma saving_page_reachable : page_reachable saving_page.
Proof.
  apply (page_fire_step env_ok (Page ClickSave) {| pg_world := typed_world; pg_saves := [] |}).
  - apply reachable_page. exact typed_world_reachable.
  - apply default_Some. vm_compute. reflexivity.
Qed.

Lemma typing_while_saving_page_reachable : page_reachable typing_while_saving_page.
Proof.
  apply (page_fire_step env_ok (Page (Input (js "data.account.email") (VStr (js "c@d.com"))))
           saving_page); [exact saving_page_reachable|].
  apply default_Some. vm_compute. reflexivity.
Qed.

(** C8: in every state the page can reach, with saves in flight or not,
    the index is one of the five steps; [next] does nothing on the last step
    and [prev] nothing on the first, and from a valid index both stay within
    the list. *)
Theorem index_always_valid :
  length STEPS = 5 /\
  (forall p, page_reachable p -> (0 <= currentIndex (w_state (pg_world p)) <= 4)%Z) /\
  (forall s e w, currentIndex s = 4%Z -> next s e w = w) /\
  (forall s e w, currentIndex s = 0%Z -> prev s e w = w) /\
  (forall s e w,
     (0 <= currentIndex s <= 4)%Z -> (0 <= currentIndex (w_state w) <= 4)%Z ->
     (0 <= currentIndex (w_state (next s e w)) <= 4)%Z /\
     (0 <= currentIndex (w_state (prev s e w)) <= 4)%Z).
Proof.
  split; [reflexivity|]. split; [|split; [|split]].
  - intros p Hp. destruct (page_reachable_ok p Hp) as ((Hi & _) & _). exact Hi.
  - intros s e w Hs. unfold next. by rewrite Hs.
  - intros s e w Hs. unfold prev. by rewrite Hs.
  - intros s e w Hs Hw.
    destruct (next_world s e w) as (_ & _ & _ & _ & _ & _ & _ & ->).
    destruct (prev_world s e w) as (_ & _ & _ & _ & _ & _ & _ & ->).
    change (Z.of_nat (length STEPS) - 1)%Z with 4%Z.
    destruct (Z.ltb_spec (currentIndex s) 4), (Z.gtb_spec (currentIndex s) 0); lia.
Qed.

Lemma index_always_valid_witness :
  page_reachable typing_while_saving_page /\
  saving (w_state (pg_world typing_while_saving_page)) = true /\
  pg_saves typing_while_saving_page = [{| s_opts := Some manual; s_then := None |}] /\
  (0 <= currentIndex (w_state (pg_world typing_while_saving_page)) <= 4)%Z.
Proof.
  split; [exact typing_while_saving_page_reachable|].
  split; [vm_compute; reflexivity|]. split; [vm_compute; reflexivity|].
  exact (proj1 (proj2 index_always_valid) _ typing_while_saving_page_reachable).
Defined.

(** ** The page driven by the controls of the view *)

Lemma save_step_view (c : WizardState) (w w1 : world) :
  view_ok w -> form_untouched (w_heap w) (data c) -> save_step c w w1 -> view_ok w1.
Proof.
  intros Hw Hc Hstep. pose proof Hw as (Hcl & Hf & Ht & Hs).
  pose proof Hstep as (Hh & _ & Hd & _ & Htimer & Hst).
  unfold view_ok. rewrite Hh, Hd, Htimer.
  split; [by eapply save_step_closed|]. split; [done|]. split; [done|].
  destruct Hst as [-> |(doc & Hdoc & ->)]; [done|].
  intros doc' [= <-]. by apply (stringify_state_untouched (w_heap w) c).
Qed.

Lemma continue_view (k : option WizardState) (e : env) (w : world) :
  view_ok w -> view_ok (continue k e w).
Proof. intros Hw. destruct k; [by apply next_view|done]. Qed.

Lemma set_timer_none_view (w : world) : view_ok w -> view_ok (set_timer None w).
Proof.
  intros (Hcl & Hf & _ & Hs). split; [by apply set_timer_none_closed|].
  split; [done|]. split; [intros ? H; discriminate H|done].
Qed.

Lemma page_handle_view (e : env) (pe : page_event) (p p' : page) :
  match pe with Page (Input _ _) => False | _ => True end ->
  view_ok (pg_world p) -> page_handle e pe p = Some p' -> view_ok (pg_world p').
Proof.
  intros Hpe Hw Hh.
  destruct (page_handle_shape e pe p p' Hh)
    as [_ [(ev & -> & Hev & _)|(c & w0 & w1 & k & Horigin & Hstep & -> & _)]].
  - eapply handle_view; [|exact Hw|exact Hev]. by destruct ev.
  - apply continue_view. pose proof Hw as (_ & Hf & Ht & _).
    destruct Horigin as [[-> ->]|[-> Hc]].
    + by eapply save_step_view.
    + eapply save_step_view; [by apply set_timer_none_view|by apply Ht|exact Hstep].
Qed.

Lemma view_reachable_ok (p : page) : view_reachable p -> view_ok (pg_world p).
Proof.
  induction 1 as [|e pe p p' _ IH Hpe Hf|e c text ev p p' _ IH Hev Hf].
  - exact view_ok_initial.
  - unfold page_fire in Hf. destruct (page_handle e pe p) as [p1|] eqn:Hh; [|discriminate].
    cbn in Hf. injection Hf as <-. cbn [pg_world].
    apply autoSaveEffect_view. by eapply page_handle_view.
  - apply control_event_input in Hev as (v & -> & Hv).
    assert (Hok : view_ok (onChange (control_path c) v e (pg_world p)))
      by (apply onChange_view; [by destruct v|done]).
    unfold page_fire in Hf. cbn [page_handle handle] in Hf.
    destruct v; try done; cbn in Hf; injection Hf as <-; by apply autoSaveEffect_view.
Qed.

Lemma view_reachable_reachable (p : page) : view_reachable p -> page_reachable p.
Proof.
  induction 1 as [|e pe p p' _ IH _ Hf|e c text ev p p' _ IH _ Hf].
  - apply page_initial.
  - by eapply page_step.
  - by eapply page_step.
Qed.

Lemma view_typing_page_reachable : view_reachable view_typing_page.
Proof.
  assert (H0 : view_reachable
                 (default initialPage (page_fire env_ok (Page Mount) initialPage))).
  { eapply (view_step env_ok (Page Mount)); [apply view_initial|exact I|].
    apply default_Some. vm_compute. reflexivity. }
  assert (H1 : view_reachable view_typed_page).
  { eapply (view_input env_ok account_email (Some (js "a@b.com"))); [exact H0| |].
    - vm_compute. reflexivity.
    - apply default_Some. vm_compute. reflexivity. }
  assert (H2 : view_reachable view_saving_page).
  { eapply (view_step env_ok (Page ClickSave)); [exact H1|exact I|].
    apply default_Some. vm_compute. reflexivity. }
  eapply (view_input env_ok account_password (Some (js "12345678"))); [exact H2| |].
  - vm_compute. reflexivity.
  - apply default_Some. vm_compute. reflexivity.
Qed.

(** X16: on a page driven by the controls of the view, started with an
    empty storage, every control shows its initial value in every state
    the page can reach, with saves in flight or not: no typing, toggle,
    save, reload or load changes a field that a control displays, and every
    click on a toggle passes [true]. *)
Theorem view_inputs_never_reach_the_form (p : page) :
  view_reachable p ->
  (forall c, get_path (w_heap (pg_world p)) (data (w_state (pg_world p))) (control_shown c)
             = Some (control_default c)) /\
  (forall c ev, control_event (pg_world p) c None = Some ev ->
     is_toggle c = true /\ ev = Input (control_path c) (VBool true)).
Proof.
  intros Hw%view_reachable_ok. destruct Hw as (_ & Hf & _). split; [exact Hf|].
  intros c ev. unfold control_event.
  destruct (step_at _) as [st|]; [|discriminate]. cbn [mbind option_bind].
  case_decide; [|discriminate]. destruct (is_toggle c) eqn:Ht; [|discriminate].
  rewrite (Hf c). unfold control_default. rewrite Ht. cbn. by intros [= <-].
Qed.

Lemma view_inputs_never_reach_the_form_witness :
  view_reachable view_typing_page /\
  saving (w_state (pg_world view_typing_page)) = true /\
  pg_saves view_typing_page = [{| s_opts := Some manual; s_then := None |}] /\
  get_path (w_heap (pg_world view_typing_page)) (data (w_state (pg_world view_typing_page)))
    [js "account"; js "email"] = Some (VStr []) /\
  get_path (w_heap (pg_world view_typing_page)) (data (w_state (pg_world view_typing_page)))
    [js "account"; js "password"] = Some (VStr []) /\
  get_path (w_heap (pg_world view_typing_page)) (data (w_state (pg_world view_typing_page)))
    [js "data"; js "account"; js "password"] = Some (VStr (js "12345678")).
Proof.
  split; [exact view_typing_page_reachable|].
  split; [vm_compute; reflexivity|]. split; [vm_compute; reflexivity|].
  destruct (view_inputs_never_reach_the_form view_typing_page view_typing_page_reachable)
    as [Hf _].
  split; [exact (Hf account_email)|]. split; [exact (Hf account_password)|].
  vm_compute. reflexivity.
Defined.

(** X17: on a page driven by the controls of the view, validation always
    answers with the first message of the current step, so "save and
    continue" never saves nor moves on, whatever saves are in flight: it
    sets [error] and leaves the index, the storage, the effect log and the
    saves in flight as they are. *)
Theorem view_never_passes_validation (p : page) :
  view_reachable p ->
  validateCurrent (w_heap (pg_world p)) (w_state (pg_world p))
  = Some (Some (first_message (currentIndex (w_state (pg_world p))))) /\
  forall e, exists p',
    page_fire e (Page ClickSaveAndContinue) p = Some p' /\
    error (w_state (pg_world p')) = Some (first_message (currentIndex (w_state (pg_world p)))) /\
    currentIndex (w_state (pg_world p')) = currentIndex (w_state (pg_world p)) /\
    w_storage (pg_world p') = w_storage (pg_world p) /\
    w_effects (pg_world p') = w_effects (pg_world p) /\
    pg_saves p' = pg_saves p.
Proof.
  intros Hp. pose proof (view_reachable_ok p Hp) as (_ & Hf & _).
  destruct (page_reachable_ok p (view_reachable_reachable p Hp)) as ((Hi & _) & _).
  pose proof (validate_untouched _ _ Hi Hf) as Hm.
  split; [exact Hm|]. intros e.
  set (w := pg_world p) in *.
  exists {| pg_world := dispatch e (SET_ERROR (Some (first_message (currentIndex (w_state w))))) w;
            pg_saves := pg_saves p |}.
  split; [|done].
  unfold page_fire. cbn [page_handle]. fold w. rewrite Hm.
  cbn [mbind option_bind]. rewrite (validateCurrent_truthy _ _ _ Hm).
  cbn [mbind option_bind pg_world pg_saves]. f_equal. f_equal.
  by apply autoSaveEffect_quiet; [| |left].
Qed.

Lemma view_never_passes_validation_witness :
  view_reachable view_typing_page /\
  saving (w_state (pg_world view_typing_page)) = true /\
  validateCurrent (w_heap (pg_world view_typing_page)) (w_state (pg_world view_typing_page))
  = Some (Some (js "メールアドレスは必須です")).
Proof.
  split; [exact view_typing_page_reachable|]. split; [vm_compute; reflexivity|].
  destruct (view_never_passes_validation view_typing_page view_typing_page_reachable)
    as [Hm _].
  rewrite Hm. vm_compute. reflexivity.
Defined.

(** ** The render behind a pending timer *)

Lemma page_fire_timer_current (e : env) (pe : page_event) (p p' : page) :
  world_closed (pg_world p) -> timer_current (pg_world p) ->
  page_fire e pe p = Some p' -> timer_current (pg_world p').
Proof.
  intros Hcl Hw. unfold page_fire.
  destruct (page_handle e pe p) as [p1|] eqn:Hh; [|discriminate].
  cbn [mbind option_bind]. intros [= <-]. cbn [pg_world].
  destruct (page_handle_shape e pe p p1 Hh)
    as [_ [(ev & -> & Hev & _)|(c & w0 & w1 & k & Horigin & Hstep & -> & _)]].
  - eapply (fire_timer_current e ev); [exact Hcl|exact Hw|].
    unfold fire. by rewrite Hev.
  - destruct (autoSaveEffect_cases (pg_world p) (continue k e w1)) as [->|[Hl ->]];
      [|by apply timer_current_armed].
    destruct (continue_world k e w1) as (_ & _ & _ & Ht & Hl & _ & Hd).
    destruct Hstep as (_ & _ & Hd1 & Hl1 & Ht1 & _).
    destruct Horigin as [[-> _]|[-> _]].
    + eapply timer_current_quiet; [exact Hw|congruence..].
    + apply timer_current_none. rewrite Ht, Ht1. reflexivity.
Qed.

Lemma page_reachable_timer_current (p : page) :
  page_reachable p -> timer_current (pg_world p).
Proof.
  induction 1 as [|e pe p p' Hp IH Hf]; [by apply timer_current_none|].
  eapply page_fire_timer_current; eauto. by apply page_reachable_closed.
Qed.

(** X19: a pending autosave timer belongs to a render with the data of the
    current state, and none is pending before the page has loaded, whatever
    saves are in flight: what an autosave stores can be out of date in the
    index, [savedAt], [saving] and [error], never in the data. *)
Theorem pending_autosave_has_current_data (p : page) (c : WizardState) :
  page_reachable p -> w_timer (pg_world p) = Some c ->
  w_loaded (pg_world p) = true /\ data c = data (w_state (pg_world p)).
Proof.
  intros Hp Hc. destruct (page_reachable_timer_current p Hp) as [Hnone Hdata].
  split; [|by apply Hdata].
  destruct (w_loaded (pg_world p)); [done|]. rewrite Hnone in Hc by done. discriminate Hc.
Qed.

Lemma page_fire_all_reachable (evs : list (env * page_event)) : forall p p' : page,
  page_reachable p -> page_fire_all p evs = Some p' -> page_reachable p'.
Proof.
  induction evs as [|[e pe] evs IH]; intros p p' Hp; cbn [page_fire_all].
  - by intros [= <-].
  - destruct (page_fire e pe p) as [p1|] eqn:Hf; [|discriminate]. cbn [mbind option_bind].
    apply IH. by eapply page_step.
Qed.

Lemma returned_page_reachable : page_reachable returned_page.
Proof.
  eapply page_fire_all_reachable; [exact typing_while_saving_page_reachable|].
  apply default_Some. vm_compute. reflexivity.
Qed.

Lemma pending_autosave_has_current_data_witness :
  page_reachable returned_page /\
  exists c, w_timer (pg_world returned_page) = Some c /\
    saving c = true /\ currentIndex c = 0%Z /\
    saving (w_state (pg_world returned_page)) = false /\
    currentIndex (w_state (pg_world returned_page)) = 2%Z /\
    data c = data (w_state (pg_world returned_page)).
Proof.
  split; [exact returned_page_reachable|].
  assert (Ht : w_timer (pg_world returned_page)
               = Some (w_state (pg_world typing_while_saving_page)))
    by (vm_compute; reflexivity).
  exists (w_state (pg_world typing_while_saving_page)).
  split; [exact Ht|]. do 4 (split; [vm_compute; reflexivity|]).
  exact (proj2 (pending_autosave_has_current_data returned_page _
                  returned_page_reachable Ht)).
Defined.

(** ** Save and continue while something else happens *)

Lemma ready_world_reachable : reachable ready_world.
Proof.
  eapply fire_all_reachable; [apply reachable_initial|].
  apply default_Some. vm_compute. reflexivity.
Qed.

Lemma continuing_page_reachable : page_reachable continuing_page.
Proof.
  eapply page_fire_all_reachable; [exact (reachable_page _ ready_world_reachable)|].
  apply default_Some. vm_compute. reflexivity.
Qed.

(** X21: a click on "save and continue" that validation lets through, and
    whose draft is written, leaves the page with the save in flight and the
    index where it was; when the remote call of such a save returns, [next]
    runs with the index of the render that was clicked: the page goes to the
    step after that one, wherever the user has gone in the meantime, and
    stays where it is now if that render showed the last step. On a step
    before the last, [GOTO] clears the error of a failed remote call. *)
Theorem save_and_continue_returns_to_its_step (e : env) (p : page) :
  (forall doc,
     validateCurrent (w_heap (pg_world p)) (w_state (pg_world p)) = Some None ->
     stringify_state (w_heap (pg_world p)) (w_state (pg_world p)) = Some doc ->
     quota_error e = None ->
     exists p', page_fire e (Page ClickSaveAndContinue) p = Some p' /\
       pg_saves p' = pg_saves p ++ [{| s_opts := Some manual;
                                       s_then := Some (w_state (pg_world p)) |}] /\
       w_storage (pg_world p') = Some doc /\
       w_effects (pg_world p') =
         w_effects (pg_world p) ++
           [SetItem doc; RemoteSave (currentIndex (w_state (pg_world p)))
                           (data (w_state (pg_world p)))] /\
       saving (w_state (pg_world p')) = true /\
       currentIndex (w_state (pg_world p')) = currentIndex (w_state (pg_world p))) /\
  (forall s rest c,
     pg_saves p = s :: rest -> s_then s = Some c ->
     exists p', page_fire e RemoteReturns p = Some p' /\
       pg_saves p' = rest /\
       saving (w_state (pg_world p')) = false /\
       currentIndex (w_state (pg_world p')) =
         (if (currentIndex c <? Z.of_nat (length STEPS) - 1)%Z then (currentIndex c + 1)%Z
          else currentIndex (w_state (pg_world p))) /\
       error (w_state (pg_world p')) =
         (if (currentIndex c <? Z.of_nat (length STEPS) - 1)%Z then None
          else if random_below e then Some (js "ネットワークエラー")
          else error (w_state (pg_world p)))).
Proof.
  split.
  - intros doc Hv Hdoc Hq. unfold page_fire. cbn [page_handle]. rewrite Hv.
    cbn [mbind option_bind]. unfold start_save.
    pose proof (saveDraft_begin_step (w_state (pg_world p)) e (pg_world p))
      as (_ & Hi & Hd & Hl & _).
    pose proof (saveDraft_begin_state (w_state (pg_world p)) e (pg_world p))
      as (Hsaving & _ & Hdirty & _ & Hthrown & Hst & Hef).
    unfold local_failure in Hthrown. rewrite Hdoc, Hq in Hthrown, Hst, Hef.
    destruct (saveDraft_begin (w_state (pg_world p)) e (pg_world p)) as [w1 thrown].
    cbn [fst snd] in *. subst thrown. cbn [mbind option_bind pg_world pg_saves].
    eexists. split; [reflexivity|]. cbn [pg_world pg_saves].
    rewrite (autoSaveEffect_quiet (pg_world p) w1) by auto. done.
  - intros s rest c Hs Hc. unfold page_fire. cbn [page_handle]. rewrite Hs, Hc.
    cbn [mbind option_bind continue pg_world pg_saves].
    eexists. split; [reflexivity|]. cbn [pg_world pg_saves]. split; [done|].
    set (w1 := saveDraft_resume (s_opts s) e (pg_world p)).
    destruct (autoSaveEffect_state (pg_world p) (next c e w1)) as (_ & -> & _).
    destruct (saveDraft_resume_step c (s_opts s) e (pg_world p)) as (_ & Hi & _).
    destruct (saveDraft_resume_state (s_opts s) e (pg_world p)) as (Hsaving & _ & Herr & _).
    fold w1 in Hi, Hsaving, Herr.
    destruct (next_world c e w1) as (_ & _ & _ & _ & _ & _ & _ & ->). rewrite Hi.
    unfold next. destruct (currentIndex c <? Z.of_nat (length STEPS) - 1)%Z.
    + rewrite dispatch_state. cbn [reducer snd saving error]. done.
    + done.
Qed.

Lemma save_and_continue_returns_to_its_step_witness :
  page_reachable continuing_page /\
  currentIndex (w_state (pg_world continuing_page)) = 3%Z /\
  pg_saves continuing_page
  = [{| s_opts := Some manual; s_then := Some (w_state ready_world) |}] /\
  currentIndex (w_state ready_world) = 0%Z /\
  exists p', page_fire env_ok RemoteReturns continuing_page = Some p' /\
    pg_saves p' = [] /\ currentIndex (w_state (pg_world p')) = 1%Z.
Proof.
  assert (Hs : pg_saves continuing_page
               = [{| s_opts := Some manual; s_then := Some (w_state ready_world) |}])
    by (vm_compute; reflexivity).
  assert (Hi : currentIndex (w_state ready_world) = 0%Z) by (vm_compute; reflexivity).
  split; [exact continuing_page_reachable|]. split; [vm_compute; reflexivity|].
  split; [exact Hs|]. split; [exact Hi|].
  destruct (proj2 (save_and_continue_returns_to_its_step env_ok continuing_page)
              _ _ _ Hs eq_refl) as (p' & Hf & Hrest & _ & Hidx & _).
  exists p'. split; [exact Hf|]. split; [exact Hrest|].
  rewrite Hidx, Hi. reflexivity.
Defined.

(** X18: in every state the page can reach the progress shown is twenty
    times the number of the current step, computed in doubles without a
    rounding error that [Math.round] would not absorb: 20 on the first
    step, and 100 exactly on the last one. *)
Theorem progress_of_step (p : page) :
  page_reachable p ->
  progress (w_state (pg_world p)) = Some (20 * (currentIndex (w_state (pg_world p)) + 1))%Z /\
  (progress (w_state (pg_world p)) = Some 100%Z <-> currentIndex (w_state (pg_world p)) = 4%Z).
Proof.
  intros Hp. destruct (page_reachable_ok p Hp) as ((Hi & _) & _). unfold valid_index in Hi.
  change (Z.of_nat (length STEPS) - 1)%Z with 4%Z in Hi.
  set (w := pg_world p) in *.
  assert (Hcases : (currentIndex (w_state w) = 0 \/ currentIndex (w_state w) = 1 \/
                    currentIndex (w_state w) = 2 \/ currentIndex (w_state w) = 3 \/
                    currentIndex (w_state w) = 4)%Z) by lia.
  destruct Hcases as [Hc|[Hc|[Hc|[Hc|Hc]]]]; rewrite (progress_index _ _ Hc), Hc;
    (split; [vm_compute; reflexivity|]); (split; [|reflexivity || discriminate]);
    vm_compute; intros H; reflexivity || discriminate H.
Qed.

Lemma progress_of_step_witness :
  page_reachable returned_page /\ progress (w_state (pg_world returned_page)) = Some 60%Z.
Proof.
  split; [exact returned_page_reachable|].
  destruct (progress_of_step returned_page returned_page_reachable) as [H _].
  rewrite H. vm_compute. reflexivity.
Defined.
